(** * Structural-variant event calling: assembler and caller

    A shallow embedding of [structural_variant/assemble.py] (the de Bruijn
    assembler) and of the parts of [mavis/validate/call.py] that decide the
    event type, the flanking support and the flanking-pair geometry of an
    [EventCall], together with the properties the specification states about
    them.

    Python sets and dicts are stdpp [gset]s and [gmap]s; Python integers are
    [Z]; strings are [string]; an exception is a value of [exn] returned
    through [Result]. *)

From Stdlib Require Import ZArith String Ascii List Qcanon.
From stdpp Require Import numbers gmap strings list sorting pretty.

#[local] Set Warnings "-clear-no-such-hyp".
Local Open Scope Z_scope.

(** ** Python string slicing *)

Module Py.

(** Normalisation of one slice bound against a sequence of length [n]:
    a negative bound counts from the end, and both are clamped to
    [0..n]. *)
Definition slice_bound (n : nat) (x : Z) : nat :=
  if x <? 0 then Z.to_nat (Z.max 0 (x + Z.of_nat n))
  else Z.to_nat (Z.min x (Z.of_nat n)).

(** [s[a:b]] *)
Definition slice (s : string) (a b : Z) : string :=
  let n := String.length s in
  let i := slice_bound n a in
  let j := slice_bound n b in
  String.substring i (j - i)%nat s.

(** [s[:b]] *)
Definition slice_to (s : string) (b : Z) : string := slice s 0 b.

(** [s[a:]] *)
Definition slice_from (s : string) (a : Z) : string :=
  slice s a (Z.of_nat (String.length s)).

(** [''.join(l)] *)
Definition join_empty (l : list string) : string :=
  foldr String.append EmptyString l.

(** [sep.join(l)] *)
Fixpoint join (sep : string) (l : list string) : string :=
  match l with
  | [] => EmptyString
  | [x] => x
  | x :: rest => String.append x (String.append sep (join sep rest))
  end.

End Py.

(** ** The assembler: [structural_variant/assemble.py] *)

Module Assemble.

(** [kmers(s, size)]: the loop over [range(0, len(s))] with its [break]. *)
Fixpoint kmers_loop (s : string) (size : Z) (indices : list nat) : list string :=
  match indices with
  | [] => []
  | i :: rest =>
      if Z.of_nat i + size >? Z.of_nat (String.length s) then []
      else Py.slice s (Z.of_nat i) (Z.of_nat i + size) :: kmers_loop s size rest
  end.

Definition kmers (s : string) (size : Z) : list string :=
  kmers_loop s size (seq 0 (String.length s)).

(** *** DeBruijnGraph

    The networkx digraph is kept as its node dictionary ([nodes], in
    insertion order) and its adjacency ([edges], in insertion order, each
    pair at most once); [edge_freq] is the class's own dictionary. *)
Record DeBruijnGraph := {
  nodes : list string;
  edges : list (string * string);
  edge_freq : gmap (string * string) Z
}.

Definition empty_graph : DeBruijnGraph :=
  {| nodes := []; edges := []; edge_freq := ∅ |}.

Definition has_node (g : DeBruijnGraph) (n : string) : bool :=
  bool_decide (n ∈ nodes g).

Definition add_node_list (n : string) (l : list string) : list string :=
  if bool_decide (n ∈ l) then l else l ++ [n].

(** [edge_freq[(n1, n2)]]; a missing key is read as 0 (Python raises
    KeyError there: [in_edge_freq] below shows that every edge of a graph
    built by [add_edge] has its entry). *)
Definition freq (g : DeBruijnGraph) (e : string * string) : Z :=
  default 0 (edge_freq g !! e).

(** [DeBruijnGraph.add_edge(n1, n2, freq=1)] *)
Definition add_edge (g : DeBruijnGraph) (n1 n2 : string) (f : Z) : DeBruijnGraph :=
  {| nodes := add_node_list n2 (add_node_list n1 (nodes g));
     edges := if bool_decide ((n1, n2) ∈ edges g) then edges g
              else edges g ++ [(n1, n2)];
     edge_freq := <[(n1, n2) := freq g (n1, n2) + f]> (edge_freq g) |}.

(** [nx.DiGraph.remove_node(n)]: the node and every edge at it go; the
    class does not override it, so [edge_freq] keeps its entries. *)
Definition remove_node (g : DeBruijnGraph) (n : string) : DeBruijnGraph :=
  {| nodes := filter (λ m, m ≠ n) (nodes g);
     edges := filter (λ e, e.1 ≠ n ∧ e.2 ≠ n) (edges g);
     edge_freq := edge_freq g |}.

(** The exceptions of [remove_edge]: the KeyError of [del] on a missing
    key of [edge_freq], and the NetworkXError of [nx.DiGraph.remove_edge]
    on an edge that is not in the graph. *)
Inductive graph_exn :=
| KeyError (key : string * string)
| NetworkXError (n1 n2 : string).

(** [DeBruijnGraph.remove_edge(n1, n2)]: the graph it leaves, and the
    exception it ends with if any. The entry of [edge_freq] is deleted
    before the edge is looked for. *)
Definition remove_edge (g : DeBruijnGraph) (n1 n2 : string)
    : DeBruijnGraph * option graph_exn :=
  match edge_freq g !! (n1, n2) with
  | None => (g, Some (KeyError (n1, n2)))
  | Some _ =>
      let edge_freq' := delete (n1, n2) (edge_freq g) in
      if bool_decide ((n1, n2) ∈ edges g) then
        ({| nodes := nodes g;
            edges := filter (λ e, e ≠ (n1, n2)) (edges g);
            edge_freq := edge_freq' |}, None)
      else
        ({| nodes := nodes g; edges := edges g; edge_freq := edge_freq' |},
         Some (NetworkXError n1 n2))
  end.

Definition out_edges (g : DeBruijnGraph) (n : string) : list (string * string) :=
  filter (λ e, e.1 = n) (edges g).

Definition in_edges (g : DeBruijnGraph) (n : string) : list (string * string) :=
  filter (λ e, e.2 = n) (edges g).

Definition out_degree (g : DeBruijnGraph) (n : string) : nat :=
  length (out_edges g n).

Definition in_degree (g : DeBruijnGraph) (n : string) : nat :=
  length (in_edges g n).

(** A self loop counts twice, as in networkx. *)
Definition degree (g : DeBruijnGraph) (n : string) : nat :=
  (in_degree g n + out_degree g n)%nat.

(** The [while self.degree(curr) == 1] loop of [trim_low_weight_tails].
    Every turn that does not leave the loop removes a node of degree 1,
    hence one edge: [fuel] is the number of edges plus one (see
    [trim_walk_fuel]). *)
Fixpoint trim_walk (fuel : nat) (min_weight : Z) (g : DeBruijnGraph)
    (curr : string) : DeBruijnGraph :=
  match fuel with
  | O => g
  | S fuel' =>
      if bool_decide (degree g curr = 1%nat) then
        if bool_decide (out_degree g curr = 1%nat) then
          match out_edges g curr with
          | (curr', other) :: _ =>
              if freq g (curr', other) <? min_weight
              then trim_walk fuel' min_weight (remove_node g curr') other
              else g
          | [] => g
          end
        else if bool_decide (in_degree g curr = 1%nat) then
          match in_edges g curr with
          | (other, curr') :: _ =>
              if freq g (other, curr') <? min_weight
              then trim_walk fuel' min_weight (remove_node g curr') other
              else g
          | [] => g
          end
        else g
      else g
  end.

Definition trim_from (min_weight : Z) (g : DeBruijnGraph) (n : string) : DeBruijnGraph :=
  if has_node g n then trim_walk (S (length (edges g))) min_weight g n else g.

Definition drop_singleton (g : DeBruijnGraph) (n : string) : DeBruijnGraph :=
  if has_node g n then
    if bool_decide (degree g n = 0%nat) then remove_node g n else g
  else g.

(** [DeBruijnGraph.trim_low_weight_tails(min_weight)]: both loops run over
    a snapshot [list(self.nodes())] of the nodes. *)
Definition trim_low_weight_tails (g : DeBruijnGraph) (min_weight : Z) : DeBruijnGraph :=
  let g1 := foldl (trim_from min_weight) g (nodes g) in
  foldl drop_singleton g1 (nodes g1).

(** The graph-building loop of [assemble]:
    [for s in sequences: for kmer in kmers(s, kmer_size):
       assembly.add_edge(kmer[:-1], kmer[1:])]. *)
Definition add_kmer (g : DeBruijnGraph) (kmer : string) : DeBruijnGraph :=
  add_edge g (Py.slice_to kmer (-1)) (Py.slice_from kmer 1) 1.

Definition add_sequence (kmer_size : Z) (g : DeBruijnGraph) (s : string) : DeBruijnGraph :=
  foldl add_kmer g (kmers s kmer_size).

Definition build_graph (sequences : list string) (kmer_size : Z) : DeBruijnGraph :=
  foldl (add_sequence kmer_size) empty_graph sequences.

(** [nx.is_directed_acyclic_graph]: a digraph is acyclic exactly when
    peeling off the nodes without incoming edge, again and again, leaves
    nothing. *)
Definition peel (g : DeBruijnGraph) : DeBruijnGraph :=
  foldl remove_node g (filter (λ n, in_degree g n = 0%nat) (nodes g)).

Fixpoint peel_all (fuel : nat) (g : DeBruijnGraph) : DeBruijnGraph :=
  match fuel with
  | O => g
  | S fuel' => peel_all fuel' (peel g)
  end.

Definition is_directed_acyclic_graph (g : DeBruijnGraph) : bool :=
  bool_decide (nodes (peel_all (length (nodes g)) g) = []).

(** A directed cycle: a non-empty closed walk along the edges. *)
Fixpoint walk (g : DeBruijnGraph) (a : string) (rest : list string) (b : string) : Prop :=
  match rest with
  | [] => (a, b) ∈ edges g
  | n :: rest' => (a, n) ∈ edges g ∧ walk g n rest' b
  end.

Definition has_cycle (g : DeBruijnGraph) : Prop :=
  ∃ a rest, walk g a rest a.

(** *** digraph_connected_components

    [graph.edges()] lists the edges source by source; the undirected
    copy gets the end points of the edges first, then the other nodes. *)
Definition nx_edges (g : DeBruijnGraph) : list (string * string) :=
  n ← nodes g; out_edges g n.

Definition undirected_nodes (g : DeBruijnGraph) : list string :=
  foldl (λ l n, add_node_list n l)
        (foldl (λ l e, add_node_list e.2 (add_node_list e.1 l)) [] (nx_edges g))
        (nodes g).

Definition adjacent (g : DeBruijnGraph) (a b : string) : Prop :=
  (a, b) ∈ edges g ∨ (b, a) ∈ edges g.

Definition grow (g : DeBruijnGraph) (seen : list string) : list string :=
  seen ++ filter (λ m, (m ∉ seen) ∧ Exists (λ s, adjacent g s m) seen) (undirected_nodes g).

(** Breadth-first closure of [seen]; a round adds a node or changes
    nothing, so as many rounds as there are nodes are enough. *)
Fixpoint bfs (fuel : nat) (g : DeBruijnGraph) (seen : list string) : list string :=
  match fuel with
  | O => seen
  | S fuel' => bfs fuel' g (grow g seen)
  end.

Definition component_of (g : DeBruijnGraph) (v : string) : list string :=
  bfs (length (nodes g)) g [v].

(** [nx.connected_components]: one component per node not seen yet. *)
Definition next_component (g : DeBruijnGraph)
    (acc : list (list string) * list string) (v : string) : list (list string) * list string :=
  if bool_decide (v ∈ acc.2) then acc
  else let c := component_of g v in (acc.1 ++ [c], acc.2 ++ c).

Definition digraph_connected_components (g : DeBruijnGraph) : list (list string) :=
  (foldl (next_component g) ([], []) (undirected_nodes g)).1.

(** *** Sources, sinks and simple paths *)

(** The [if/elif/elif] over the nodes of a component. *)
Definition is_source (g : DeBruijnGraph) (n : string) : Prop :=
  degree g n ≠ 0%nat ∧ in_degree g n = 0%nat.

Definition is_sink (g : DeBruijnGraph) (n : string) : Prop :=
  degree g n ≠ 0%nat ∧ in_degree g n ≠ 0%nat ∧ out_degree g n = 0%nat.

Definition sources (g : DeBruijnGraph) (component : list string) : list string :=
  filter (is_source g) component.

Definition sinks (g : DeBruijnGraph) (component : list string) : list string :=
  filter (is_sink g) component.

Definition successors (g : DeBruijnGraph) (n : string) : list string :=
  (out_edges g n).*2.

(** [nx.all_simple_paths(G, source, target)]: depth-first, [visited]
    holds the path so far, last node first. A path repeats no node, so
    its length is bounded by the number of nodes. *)
Fixpoint simple_paths_from (fuel : nat) (g : DeBruijnGraph) (visited : list string)
    (target : string) : list (list string) :=
  match fuel with
  | O => []
  | S fuel' =>
      match visited with
      | [] => []
      | cur :: _ =>
          child ← successors g cur;
          if bool_decide (child = target) then [reverse (target :: visited)]
          else if bool_decide (child ∈ visited) then []
          else simple_paths_from fuel' g (child :: visited) target
      end
  end.

Definition all_simple_paths (g : DeBruijnGraph) (source target : string) : list (list string) :=
  simple_paths_from (length (nodes g)) g [source] target.

(** [itertools.product(sources, sinks)] *)
Definition product (xs ys : list string) : list (string * string) :=
  x ← xs; y ← ys; [(x, y)].

Definition component_paths (g : DeBruijnGraph) (component : list string) : list (list string) :=
  st ← product (sources g component) (sinks g component);
  all_simple_paths g st.1 st.2.

(** Every path the loops of [assemble] visit, in order. *)
Definition enumerated_paths (g : DeBruijnGraph) : list (list string) :=
  component ← digraph_connected_components g; component_paths g component.

(** *** Path strings and scores *)

(** [p[-1]], as a string of one character (Python raises IndexError on
    the empty string; see [path_nodes_nonempty]). *)
Definition last_char (p : string) : string :=
  Py.slice_from p (-1).

(** [path[0] + ''.join([p[-1] for p in path[1:]])] *)
Definition path_string (path : list string) : string :=
  String.append (hd EmptyString path) (Py.join_empty (last_char <$> tail path)).

(** [score = 0; for i in range(0, len(path) - 1):
      score += assembly.edge_freq[(path[i], path[i + 1])]] *)
Definition path_score (g : DeBruijnGraph) (path : list string) : Z :=
  foldl (λ score i,
           score + freq g (default EmptyString (path !! i),
                           default EmptyString (path !! S i)))
        0 (seq 0 (length path - 1)).

(** [path_scores[s] = max(path_scores.get(s, 0), score)] *)
Definition record_path (g : DeBruijnGraph) (path_scores : gmap string Z)
    (path : list string) : gmap string Z :=
  let s := path_string path in
  <[s := Z.max (default 0 (path_scores !! s)) (path_score g path)]> path_scores.

Definition path_scores_of (g : DeBruijnGraph) : gmap string Z :=
  foldl (record_path g) ∅ (enumerated_paths g).

(** *** assemble *)

(** The two [warnings.warn] calls, by their format arguments:
    'cannot specify a kmer size larger than one of the input sequences.
    reset to {0}' and 'source/sink combinations: {}'. *)
Inductive Warning :=
| KmerSizeReset (min_seq : Z)
| SourceSinkCombinations (n : nat).

(** [min([len(s) for s in sequences])] on a non-empty list. *)
Definition min_seq_len (s0 : string) (rest : list string) : Z :=
  foldl Z.min (Z.of_nat (String.length s0)) ((λ s, Z.of_nat (String.length s)) <$> rest).

(** The choice of the k-mer size (assemble.py, lines 127-136).
    [int(min_seq * 0.75)] is [min_seq * 3 / 4]: the product with 0.75 is
    exact on the non-negative lengths, and [int] rounds it down. *)
Definition choose_kmer_size (kmer_size : option Z) (min_seq : Z) : Z * list Warning :=
  match kmer_size with
  | None =>
      let temp := min_seq * 3 / 4 in
      if temp <? 10 then (Z.min min_seq 10, []) else (temp, [])
  | Some k =>
      if k >? min_seq then (min_seq, [KmerSizeReset min_seq]) else (k, [])
  end.

(** [if len(sources) * len(sinks) > 10: warnings.warn(...)], per component. *)
Definition component_warning (g : DeBruijnGraph) (component : list string) : list Warning :=
  let n := (length (sources g component) * length (sinks g component))%nat in
  if bool_decide (10 < n)%nat then [SourceSinkCombinations n] else [].

Definition enumeration_warnings (g : DeBruijnGraph) : list Warning :=
  component ← digraph_connected_components g; component_warning g component.

Section Remap.

(** The alignments of [read_tools.nsb_align], the aligner itself, the
    match percentage of an alignment's cigar and the reverse complement
    are not part of the assembler; the fractions they exchange are
    rationals here. *)
Context {Aln : Type} `{Countable Aln}.
Variable nsb_align : string → string → Qc → list Aln.
Variable match_percent : Aln → Qc.
Variable reverse_complement : Aln → Aln.

Record Contig := {
  seq : string;
  remapped_reads : gmap Aln Qp;
  score : Z
}.

(** [Contig(sequence, score)] *)
Definition new_contig (sequence : string) (score : Z) : Contig :=
  {| seq := sequence; remapped_reads := ∅; score := score |}.

(** [Contig.add_mapped_read(read, multimap)] *)
Definition add_mapped_read (c : Contig) (read : Aln) (multimap : nat) : Contig :=
  let weight := (1 / pos_to_Qp (Pos.of_nat multimap))%Qp in
  let rc := reverse_complement read in
  let key := if bool_decide (is_Some (remapped_reads c !! rc)) then rc else read in
  {| seq := seq c;
     remapped_reads :=
       <[key := Qp.min (default 1%Qp (remapped_reads c !! key)) weight]> (remapped_reads c);
     score := score c |}.

(** [for seq, score in list(path_scores.items()):
      if seq not in sequences and len(seq) >= min_contig_length:
        contigs[seq] = Contig(seq, score)] *)
Definition select_contigs (sequences : list string) (min_contig_length : Z)
    (path_scores : gmap string Z) : gmap string Contig :=
  map_imap (λ s sc,
              if bool_decide ((s ∉ sequences) ∧ min_contig_length ≤ Z.of_nat (String.length s))
              then Some (new_contig s sc) else None)
           path_scores.

(** The inner loop of the remapping: the contigs [input_seq] maps to,
    by their sequence, each with its one alignment. *)
Definition maps_to (min_match_quality : Qc) (min_read_mapping_overlap : Z)
    (contigs : gmap string Contig) (input_seq : string) : list (string * Aln) :=
  omap (λ kc : string * Contig,
          let contig := kc.2 in
          let a := nsb_align (seq contig) input_seq
                     (Qc_of_Z min_read_mapping_overlap
                      / Qc_of_Z (Z.of_nat (String.length (seq contig))))%Qc in
          match a with
          | [a0] =>
              if bool_decide (match_percent a0 < min_match_quality)%Qc then None
              else Some (kc.1, a0)
          | _ => None
          end)
       (map_to_list contigs).

Definition remap_read (min_match_quality : Qc) (min_read_mapping_overlap : Z)
    (contigs : gmap string Contig) (input_seq : string) : gmap string Contig :=
  let m := maps_to min_match_quality min_read_mapping_overlap contigs input_seq in
  foldl (λ cs kr, alter (λ c, add_mapped_read c kr.2 (length m)) kr.1 cs) contigs m.

(** [assemble(sequences, kmer_size, min_edge_weight, min_match_quality,
              min_read_mapping_overlap, min_contig_length)];
    [None] stands for an argument left to its default [None], and the
    callers pass [min_edge_weight] (default 3) and [min_match_quality]
    (default 0.95). The result is the warnings issued and the returned
    list. *)
Definition assemble (sequences : list string) (kmer_size : option Z)
    (min_edge_weight : Z) (min_match_quality : Qc)
    (min_read_mapping_overlap min_contig_length : option Z)
    : list Warning * list Contig :=
  match sequences with
  | [] => ([], [])
  | s0 :: rest =>
      let min_seq := min_seq_len s0 rest in
      let '(kmer_size, w1) := choose_kmer_size kmer_size min_seq in
      let min_read_mapping_overlap := default kmer_size min_read_mapping_overlap in
      let min_contig_length := default (min_seq + 1) min_contig_length in
      let assembly := build_graph sequences kmer_size in
      (* the exception is built and dropped: there is no [raise] *)
      let _not_raised :=
        if negb (is_directed_acyclic_graph assembly)
        then Some "assembly not supported for cyclic graphs"%string else None in
      let assembly := trim_low_weight_tails assembly min_edge_weight in
      let w2 := enumeration_warnings assembly in
      let path_scores := path_scores_of assembly in
      let contigs := select_contigs sequences min_contig_length path_scores in
      let contigs :=
        foldl (remap_read min_match_quality min_read_mapping_overlap) contigs sequences in
      (w1 ++ w2, (map_to_list contigs).*2)
  end.

End Remap.

(** *** The specification's words for paths *)

(** The edges along a path. *)
Definition path_edges (path : list string) : list (string * string) :=
  zip path (tail path).

(** The sum of the edge frequencies along a path. *)
Definition edge_sum (g : DeBruijnGraph) (path : list string) : Z :=
  foldr (λ e acc, freq g e + acc) 0 (path_edges path).

(** The last character of a node. *)
Definition final_char (n : string) : option ascii :=
  last (list_ascii_of_string n).

(** What holds of every graph that [assemble] builds and trims: the
    frequencies are positive, every edge has its frequency, and the two
    nodes of an edge, both one character short of the k-mer, are equally
    long. *)
Definition graph_ok (g : DeBruijnGraph) : Prop :=
  (∀ e v, edge_freq g !! e = Some v → 1 ≤ v)
  ∧ (∀ a b, (a, b) ∈ edges g →
       is_Some (edge_freq g !! (a, b)) ∧ String.length a = String.length b).

(** The end points of every edge are nodes, as networkx keeps them. *)
Definition edges_in_nodes (g : DeBruijnGraph) : Prop :=
  ∀ a b, (a, b) ∈ edges g → a ∈ nodes g ∧ b ∈ nodes g.

(** *** Sample inputs *)

(** An aligner that finds no alignment, so that no read is remapped. *)
Definition no_alignment (_ _ : string) (_ : Qc) : list nat := [].

Definition sample_assemble :=
  assemble (Aln := nat) no_alignment (λ _, 1%Qc) id.

(** An aligner that aligns every read to every contig, always with the
    alignment [true], whose reverse complement is [false]. *)
Definition always_aligned (_ _ : string) (_ : Qc) : list bool := [true].

(** Two reads of twelve bases that overlap in ten. *)
Definition overlapping_reads : list string := ["ACGTTGCAAGCT"; "GTTGCAAGCTAA"].

(** One read with a repeat of period two: its k-mers go round a cycle. *)
Definition repeat_reads : list string := ["ATATATATATAT"].

End Assemble.

(** ** The caller: [mavis/validate/call.py] *)

Module Call.

(** *** Exceptions *)

Inductive exn :=
| ValueError (msg : string)
| AssertionError (msg : string)
| UserWarning (msg : string).

Inductive Result (A : Type) :=
| Return (a : A)
| Raise (e : exn).
Arguments Return {A} a.
Arguments Raise {A} e.

(** Sequencing: an exception ends the computation; [x ← r; k] is
    stdpp's notation for it. *)
Global Instance Result_bind : MBind Result := λ A B k r,
  match r with
  | Return a => k a
  | Raise e => Raise e
  end.


(** *** Constants and collaborators' data *)

Inductive ORIENT := LEFT | RIGHT | ORIENT_NS.
Inductive STRAND := POS | NEG | STRAND_NS.
Inductive SVTYPE := DEL | TRANS | ITRANS | INV | INS | DUP.
Inductive CALL_METHOD := CONTIG | SPLIT | FLANK | SPAN.

Global Instance ORIENT_eq_dec : EqDecision ORIENT.
Proof. solve_decision. Defined.
Global Instance STRAND_eq_dec : EqDecision STRAND.
Proof. solve_decision. Defined.
Global Instance SVTYPE_eq_dec : EqDecision SVTYPE.
Proof. solve_decision. Defined.
Global Instance CALL_METHOD_eq_dec : EqDecision CALL_METHOD.
Proof. solve_decision. Defined.

Definition SVTYPE_code (t : SVTYPE) : nat :=
  match t with
  | DEL => 0 | TRANS => 1 | ITRANS => 2 | INV => 3 | INS => 4 | DUP => 5
  end.

Definition SVTYPE_of_code (n : nat) : SVTYPE :=
  match n with
  | 0 => DEL | 1 => TRANS | 2 => ITRANS | 3 => INV | 4 => INS | _ => DUP
  end%nat.

Global Instance SVTYPE_countable : Countable SVTYPE.
Proof. apply (inj_countable' SVTYPE_code SVTYPE_of_code). by intros []. Defined.

(** Modelled from the spec: [Interval], of interval.py, is a closed
    interval [[start, end]] of integer positions. *)
Record Interval := {
  start : Z;
  end_ : Z
}.

(** Modelled from the spec: [Breakpoint], of breakpoint.py, is a
    chromosome, a closed interval, an orientation and a strand. *)
Record Breakpoint := {
  chr : string;
  position :> Interval;
  orient : ORIENT;
  strand : STRAND
}.

(** Modelled from the spec: [BreakpointPair], of breakpoint.py, with the
    attributes call.py reads. *)
Record BreakpointPair := {
  break1 : Breakpoint;
  break2 : Breakpoint;
  opposing_strands : bool;
  stranded : bool;
  untemplated_seq : option string;
  data : gmap string string
}.

(** Modelled from the spec: interchromosomal iff
    [break1.chr ≠ break2.chr]. *)
Definition interchromosomal (p : BreakpointPair) : bool :=
  bool_decide (chr (break1 p) ≠ chr (break2 p)).

(** The attributes of a [pysam.AlignedSegment] that call.py reads. *)
Record Read := {
  query_name : string;
  query_sequence : string;
  reference_id : Z;
  reference_start : Z;
  reference_end : Z
}.

Global Instance Read_eq_dec : EqDecision Read.
Proof. solve_decision. Defined.

Global Instance Read_countable : Countable Read.
Proof.
  apply (inj_countable'
           (λ r, (query_name r, query_sequence r, reference_id r,
                  reference_start r, reference_end r))
           (λ t, {| query_name := t.1.1.1.1; query_sequence := t.1.1.1.2;
                    reference_id := t.1.1.2; reference_start := t.1.2;
                    reference_end := t.2 |})).
  by intros [].
Defined.

(** The assembled contig of an evidence bundle, by what [support] reads. *)
Record Contig := {
  seq : string;
  input_reads : gset Read
}.

Record SplitAlignment := {
  read1 : Read;
  read2 : option Read
}.

(** The evidence bundle. It is a [BreakpointPair]; its methods
    ([compute_fragment_size], [distance], [traverse],
    [decide_sequenced_strand], [putative_event_types]) depend on the
    kind of evidence and are carried as fields. *)
Module Evidence.
Record t := {
  pair : BreakpointPair;
  bam_cache_stranded : bool;
  read_length : Z;
  min_expected_fragment_size : Z;
  max_expected_fragment_size : Z;
  min_flanking_pairs_resolution : Z;
  flanking_pairs : gset (Read * Read);
  compute_fragment_size : Read → Read → Interval;
  distance : Z → Z → Interval;
  traverse : Z → Z → ORIENT → Interval;
  decide_sequenced_strand : list Read → STRAND;
  putative_event_types : list SVTYPE
}.
End Evidence.
Coercion Evidence.pair : Evidence.t >-> BreakpointPair.

(** *** EventCall *)

Record EventCall := {
  call_pair :> BreakpointPair;
  source_evidence : Evidence.t;
  spanning_reads : gset Read;
  flanking_pairs : gset (Read * Read);
  break1_split_reads : gset Read;
  break2_split_reads : gset Read;
  compatible_flanking_pairs : gset (Read * Read);
  compatible_type : option SVTYPE;
  event_type : SVTYPE;
  contig : option Contig;
  call_method : CALL_METHOD;
  contig_alignment : option SplitAlignment
}.

(** [EventCall.has_compatible] *)
Definition has_compatible (self : EventCall) : bool :=
  match compatible_type self with
  | None => false
  | Some _ => true
  end.

(** [EventCall.support()] *)
Definition support (self : EventCall) : gset Read :=
  let s := spanning_reads self in
  let s := foldl (λ acc rm, acc ∪ {[rm.1]} ∪ {[rm.2]}) s
             (elements (flanking_pairs self ∪ compatible_flanking_pairs self)) in
  let s := s ∪ break1_split_reads self in
  let s := s ∪ break2_split_reads self in
  match contig self with
  | Some c => s ∪ input_reads c
  | None => s
  end.

(** [filter_consumed_pairs(pairs, consumed_reads)], for any hashable
    kind of read. *)
Definition filter_consumed_pairs `{Countable R} (pairs : gset (R * R))
    (consumed_reads : gset R) : gset (R * R) :=
  foldl (λ temp rm,
           if bool_decide ((rm.1 ∉ consumed_reads) ∧ (rm.2 ∉ consumed_reads))
           then temp ∪ {[(rm.1, rm.2)]} else temp)
        ∅ (elements pairs).

Section Caller.

(** What call.py takes from modules that are not part of these
    sources: [BreakpointPair.classify] and [BreakpointPair.__init__]
    (breakpoint.py), [Interval.dist], [|], [len] and
    [Interval.overlaps] (interval.py), [orientation_supports_type]
    (bam/read.py), and the string of an [SVTYPE] (constants.py). *)
Variable classify : BreakpointPair → gset SVTYPE.
Variable BreakpointPair_init :
  Breakpoint → Breakpoint → bool → option string → Result BreakpointPair.
Variable Interval_dist : Interval → Interval → Z.
Variable Interval_union : Interval → Interval → Interval.
Variable Interval_len : Interval → Z.
Variable Interval_overlaps : Interval → Interval → bool.
Variable orientation_supports_type : Read → option SVTYPE → bool.
Variable SVTYPE_str : SVTYPE → string.

Definition set_strand (b : Breakpoint) (s : STRAND) : Breakpoint :=
  {| chr := chr b; position := position b; orient := orient b; strand := s |}.

(** [x in BreakpointPair.classify(self)] for an [x] that may be [None]. *)
Definition in_classify (x : option SVTYPE) (p : BreakpointPair) : bool :=
  match x with
  | Some t => bool_decide (t ∈ classify p)
  | None => false
  end.

(** The pair of a new call, once [BreakpointPair.__init__] has built [p]:
    the data of the evidence is merged in, and the strands are reset when
    the bam cache is not stranded. *)
Definition init_pair (p : BreakpointPair) (source_evidence : Evidence.t) : BreakpointPair :=
  let bam_stranded := Evidence.bam_cache_stranded source_evidence in
  {| break1 := if bam_stranded then break1 p else set_strand (break1 p) STRAND_NS;
     break2 := if bam_stranded then break2 p else set_strand (break2 p) STRAND_NS;
     opposing_strands := opposing_strands p;
     stranded := stranded p;
     untemplated_seq := Call.untemplated_seq p;
     data := data source_evidence ∪ data p |}.

(** The [if/elif/else] that sets [self.compatible_type]. *)
Definition initial_compatible_type (event_type : SVTYPE) : option SVTYPE :=
  match event_type with
  | DUP => Some INS
  | INS => Some DUP
  | _ => None
  end.

(** [if event_type not in classify(self) and self.compatible_type in classify(self):
      event_type, self.compatible_type = self.compatible_type, event_type] *)
Definition swap_types (self : BreakpointPair) (event_type : SVTYPE)
    : SVTYPE * option SVTYPE :=
  let compatible_type := initial_compatible_type event_type in
  match compatible_type with
  | Some c =>
      if negb (bool_decide (event_type ∈ classify self)) && in_classify (Some c) self
      then (c, Some event_type) else (event_type, compatible_type)
  | None => (event_type, compatible_type)
  end.

Definition new_call (self : BreakpointPair) (source_evidence : Evidence.t)
    (event_type : SVTYPE) (compatible_type : option SVTYPE) (call_method : CALL_METHOD)
    (contig : option Contig) (contig_alignment : option SplitAlignment) : EventCall :=
  {| call_pair := self; source_evidence := source_evidence;
     spanning_reads := ∅; flanking_pairs := ∅; break1_split_reads := ∅;
     break2_split_reads := ∅; compatible_flanking_pairs := ∅;
     compatible_type := compatible_type; event_type := event_type;
     contig := contig; call_method := call_method;
     contig_alignment := contig_alignment |}.

(** [EventCall.__init__]. [SVTYPE.enforce] and [CALL_METHOD.enforce]
    return their argument when it is a member of the enumeration, which
    the types ensure. *)
Definition EventCall_init (b1 b2 : Breakpoint) (source_evidence : Evidence.t)
    (event_type : SVTYPE) (call_method : CALL_METHOD) (contig : option Contig)
    (contig_alignment : option SplitAlignment) (untemplated_seq : option string)
    : Result EventCall :=
  p ← BreakpointPair_init b1 b2
        (stranded source_evidence && Evidence.bam_cache_stranded source_evidence)
        untemplated_seq;
  let self := init_pair p source_evidence in
  let '(event_type, compatible_type) := swap_types self event_type in
  if negb (bool_decide (event_type ∈ classify self)
           || bool_decide (Some event_type = compatible_type))
  then Raise (ValueError "event_type is not compatible with the breakpoint call")
  else if bool_decide (is_Some contig) && negb (bool_decide (call_method = CONTIG))
  then Raise (ValueError "if a contig is given the call method must be by contig")
  else Return (new_call self source_evidence event_type compatible_type call_method
                 contig contig_alignment).

(** *** EventCall.add_flanking_support *)

Definition min_frag (self : EventCall) : Z :=
  Z.max (Evidence.min_expected_fragment_size (source_evidence self)
         + Interval_dist (break1 self) (break2 self))
        (Evidence.max_expected_fragment_size (source_evidence self)).

Definition max_frag (self : EventCall) : Z :=
  Interval_len (Interval_union (break1 self) (break2 self))
  + Evidence.max_expected_fragment_size (source_evidence self).

(** The checks of the loop body, in order; [false] is a [continue]. *)
Definition fragment_size_ok (self : EventCall) (read mate : Read) : bool :=
  let fragment_size := Evidence.compute_fragment_size (source_evidence self) read mate in
  match event_type self with
  | DEL =>
      negb ((end_ fragment_size <? min_frag self) || (start fragment_size >? max_frag self))
  | INS =>
      negb (start fragment_size >=? Evidence.min_expected_fragment_size (source_evidence self))
  | _ => true
  end.

Definition chromosomes_ok (self : EventCall) (read mate : Read) : bool :=
  negb (bool_decide (interchromosomal self
                     ≠ bool_decide (reference_id read ≠ reference_id mate))).

Definition orientation_ok (self : EventCall) (is_compatible : bool) (read : Read) : bool :=
  orientation_supports_type read
    (if negb is_compatible then Some (event_type self) else compatible_type self).

Definition positions_ok (self : EventCall) (is_compatible : bool) (read mate : Read) : bool :=
  let left := if negb is_compatible then LEFT else RIGHT in
  if bool_decide (orient (break1 self) = left) then
    if bool_decide (orient (break2 self) = left) then
      (reference_start read + 1 <=? end_ (break1 self))
      && (reference_start mate + 1 <=? end_ (break2 self))
      && ((reference_end mate >? start (break1 self)) || interchromosomal self)
    else
      (reference_start read + 1 <=? end_ (break1 self))
      && (reference_end mate >=? start (break2 self))
  else
    if bool_decide (orient (break2 self) = left) then
      (reference_end read >=? start (break1 self))
      && (reference_start mate + 1 <=? end_ (break2 self))
    else
      (reference_end read >=? start (break1 self))
      && (reference_end mate >=? start (break2 self))
      && ((reference_end read <? end_ (break2 self)) || interchromosomal self).

Definition supports (self : EventCall) (is_compatible : bool) (read mate : Read) : bool :=
  fragment_size_ok self read mate
  && chromosomes_ok self read mate
  && orientation_ok self is_compatible read
  && positions_ok self is_compatible read mate.

Definition set_flanking_pairs (self : EventCall) (is_compatible : bool)
    (pairs : gset (Read * Read)) : EventCall :=
  {| call_pair := call_pair self; source_evidence := source_evidence self;
     spanning_reads := spanning_reads self;
     flanking_pairs := if is_compatible then flanking_pairs self else pairs;
     break1_split_reads := break1_split_reads self;
     break2_split_reads := break2_split_reads self;
     compatible_flanking_pairs :=
       if is_compatible then pairs else compatible_flanking_pairs self;
     compatible_type := compatible_type self; event_type := event_type self;
     contig := contig self; call_method := call_method self;
     contig_alignment := contig_alignment self |}.

(** One turn of [for read, mate in flanking_pairs]. *)
Definition add_flanking_pair (is_compatible : bool) (self : EventCall)
    (rm : Read * Read) : EventCall :=
  if supports self is_compatible rm.1 rm.2 then
    set_flanking_pairs self is_compatible
      ((if is_compatible then compatible_flanking_pairs self else flanking_pairs self)
       ∪ {[(rm.1, rm.2)]})
  else self.

(** [EventCall.add_flanking_support(flanking_pairs, is_compatible)] *)
Definition add_flanking_support (self : EventCall) (pairs : gset (Read * Read))
    (is_compatible : bool) : EventCall :=
  foldl (add_flanking_pair is_compatible) self (elements pairs).

(** *** Flanking-pair geometry *)

(** [min(l)] and [max(l)]: ValueError on the empty list. *)
Definition py_min (l : list Z) : Result Z :=
  match l with
  | [] => Raise (ValueError "min() arg is an empty sequence")
  | x :: rest => Return (foldl Z.min x rest)
  end.

Definition py_max (l : list Z) : Result Z :=
  match l with
  | [] => Raise (ValueError "max() arg is an empty sequence")
  | x :: rest => Return (foldl Z.max x rest)
  end.

(** [_call_interval_by_flanking_coverage]; the warning it issues before
    raising carries the message of the exception. *)
Definition _call_interval_by_flanking_coverage (coverage : Interval)
    (orientation : ORIENT) (max_expected_fragment_size read_length : Z)
    (distance : Z → Z → Interval) (traverse : Z → Z → ORIENT → Interval)
    : Result Interval :=
  if (max_expected_fragment_size <=? 0) || (read_length <=? 0) then
    Raise (ValueError
             "max_expected_fragment_size and read_length must be positive integers")
  else
    let coverage_d := start (distance (start coverage) (end_ coverage)) + 1 in
    let max_interval := max_expected_fragment_size - read_length in
    if coverage_d >? max_interval then
      Raise (AssertionError
               ("length of the coverage interval (" +:+ pretty coverage_d
                +:+ ") is greater than the maximum expected ("
                +:+ pretty max_interval +:+ ")"))
    else
      match orientation with
      | LEFT =>
          Return {| start := end_ coverage;
                    end_ := end_ (traverse (end_ coverage) (max_interval - coverage_d) RIGHT) |}
      | RIGHT =>
          Return {| start := Z.max 1 (start (traverse (start coverage)
                                               (max_interval - coverage_d) LEFT));
                    end_ := start coverage |}
      | ORIENT_NS => Raise (ValueError "orientation must be specific")
      end.

(** The state of the loop over the available flanking pairs. *)
Record Flanking := {
  flanking_count : Z;
  cover1_reads : list Read;
  cover2_reads : list Read;
  first_positions : list Z;
  second_positions : list Z
}.

Definition no_flanking : Flanking :=
  {| flanking_count := 0; cover1_reads := []; cover2_reads := [];
     first_positions := []; second_positions := [] |}.

(** The fragment-size filter of [_call_by_flanking_pairs]; [true] is a
    [continue]. *)
Definition fragment_size_rejected (evidence : Evidence.t) (event_type : SVTYPE)
    (read mate : Read) : bool :=
  let fragment_size := Evidence.compute_fragment_size evidence read mate in
  match event_type with
  | DEL => end_ fragment_size <=? Evidence.max_expected_fragment_size evidence
  | INS => start fragment_size >=? Evidence.min_expected_fragment_size evidence
  | _ => false
  end.

Definition flanking_step (evidence : Evidence.t) (event_type : SVTYPE)
    (st : Flanking) (rm : Read * Read) : Flanking :=
  let read := rm.1 in
  let mate := rm.2 in
  if fragment_size_rejected evidence event_type read mate then st
  else
    {| flanking_count := flanking_count st + 1;
       cover1_reads := cover1_reads st ++ [read];
       cover2_reads := cover2_reads st ++ [mate];
       first_positions :=
         first_positions st ++ [reference_start read + 1; reference_end read];
       second_positions :=
         second_positions st ++ [reference_start mate + 1; reference_end mate] |}.

(** The pairs that survive the consumed set and the fragment-size
    filter, as the loop leaves them. *)
Definition surviving_flanking (evidence : Evidence.t) (event_type : SVTYPE)
    (consumed_evidence : gset Read) : Flanking :=
  foldl (flanking_step evidence event_type) no_flanking
        (elements (filter_consumed_pairs (Evidence.flanking_pairs evidence)
                                         consumed_evidence)).

(** [0 if event_type == SVTYPE.DUP else 1] *)
Definition dup_offset (event_type : SVTYPE) : Z :=
  if bool_decide (event_type = DUP) then 0 else 1.

Definition new_breakpoint (c : string) (i : Interval) (o : ORIENT) (s : STRAND)
    : Breakpoint :=
  {| chr := c; position := i; orient := o; strand := s |}.

(** The last part of [_call_by_flanking_pairs]: the windows, by which
    breakpoints were given. *)
Definition call_windows (evidence : Evidence.t) (event_type : SVTYPE)
    (first_breakpoint_called second_breakpoint_called : option Breakpoint)
    (cover1 cover2 : Interval) (break1_strand break2_strand : STRAND)
    : Result (Breakpoint * Breakpoint) :=
  let window_of cover o :=
    _call_interval_by_flanking_coverage cover o
      (Evidence.max_expected_fragment_size evidence) (Evidence.read_length evidence)
      (Evidence.distance evidence) (Evidence.traverse evidence) in
  match first_breakpoint_called, second_breakpoint_called with
  | None, None =>
      window1 ← window_of cover1 (orient (break1 evidence));
      window2 ← window_of cover2 (orient (break2 evidence));
      windows ←
        (if negb (interchromosomal evidence) then
           if start window1 >? end_ window2 then
             Raise (AssertionError "flanking window regions are incompatible")
           else
             let window1' :=
               {| start := start window1;
                  end_ := Z.min (Z.min (end_ window1) (end_ window2))
                                (start cover2 - dup_offset event_type) |} in
             let window2' :=
               {| start := Z.max (Z.max (start window1') (start window2))
                                 (end_ cover1 + dup_offset event_type);
                  end_ := end_ window2 |} in
             Return (window1', window2')
         else Return (window1, window2));
      Return
        (new_breakpoint (chr (break1 evidence)) windows.1
           (orient (break1 evidence)) break1_strand,
         new_breakpoint (chr (break2 evidence)) windows.2
           (orient (break2 evidence)) break2_strand)
  | Some first, None =>
      if (bool_decide (orient first = LEFT) && (end_ cover1 >? end_ first))
         || (bool_decide (orient first = RIGHT) && (start cover1 <? start first))
      then Raise (AssertionError "input breakpoint is incompatible with flanking coverage")
      else
        window ← window_of cover2 (orient (break2 evidence));
        window ←
          (if negb (interchromosomal evidence) then
             let window' :=
               {| start := Z.max (Z.max (start window)
                                        (start first + dup_offset event_type))
                                 (end_ cover1 + 1);
                  end_ := end_ window |} in
             if (start window' >? end_ window') || (end_ window' <? start first)
             then Raise (AssertionError "input breakpoint incompatible with call")
             else Return window'
           else Return window);
        Return
          (first,
           new_breakpoint (chr (break2 evidence)) window
             (orient (break2 evidence)) break2_strand)
  | None, Some second =>
      if (bool_decide (orient second = LEFT) && (end_ cover2 >? end_ second))
         || (bool_decide (orient second = RIGHT) && (start cover2 <? start second))
      then Raise (AssertionError "input breakpoint is incompatible with flanking coverage")
      else
        window ← window_of cover1 (orient (break1 evidence));
        window ←
          (if negb (interchromosomal evidence) then
             let window' :=
               {| start := start window;
                  end_ := Z.min (Z.min (end_ window)
                                       (end_ second - dup_offset event_type))
                                (start cover2 - 1) |} in
             if (end_ window' <? start window') || (start window' >? end_ second)
             then Raise (AssertionError "input breakpoint incompatible with call")
             else Return window'
           else Return window);
        Return
          (new_breakpoint (chr (break1 evidence)) window
             (orient (break1 evidence)) break1_strand,
           second)
  | Some _, Some _ => Raise (ValueError "cannot input both breakpoints")
  end.

(** [Interval(min(positions), max(positions))] *)
Definition cover_of (positions : list Z) : Result Interval :=
  lo ← py_min positions;
  hi ← py_max positions;
  Return {| start := lo; end_ := hi |}.

(** The available pairs that pass the fragment-size filter. *)
Definition surviving_pairs (evidence : Evidence.t) (event_type : SVTYPE)
    (consumed_evidence : gset Read) : list (Read * Read) :=
  filter (λ rm, fragment_size_rejected evidence event_type rm.1 rm.2 = false)
         (elements (filter_consumed_pairs (Evidence.flanking_pairs evidence)
                                          consumed_evidence)).

(** The two rejections on the covers of an intra-chromosomal call. *)
Definition check_covers (evidence : Evidence.t) (event_type : SVTYPE)
    (cover1 cover2 : Interval) : Result unit :=
  if negb (interchromosomal evidence) then
    if Interval_overlaps cover1 cover2 && negb (bool_decide (event_type = DUP)) then
      Raise (AssertionError "flanking read coverage overlaps. cannot call by flanking reads")
    else if bool_decide (event_type = DUP)
            && ((start cover1 >? start cover2) || (end_ cover2 <? end_ cover1)) then
      Raise (AssertionError
               "flanking coverage for duplications must have some distinct positions")
    else Return ()
  else Return ().

(** [_call_by_flanking_pairs(evidence, event_type, first_breakpoint_called,
    second_breakpoint_called, consumed_evidence)] *)
Definition _call_by_flanking_pairs (evidence : Evidence.t) (event_type : SVTYPE)
    (first_breakpoint_called second_breakpoint_called : option Breakpoint)
    (consumed_evidence : option (gset Read)) : Result (Breakpoint * Breakpoint) :=
  let consumed_evidence := default ∅ consumed_evidence in
  let st := surviving_flanking evidence event_type consumed_evidence in
  if flanking_count st <? Evidence.min_flanking_pairs_resolution evidence then
    Raise (AssertionError
             ("insufficient coverage to call " +:+ SVTYPE_str event_type
              +:+ " by flanking reads"))
  else
    cover1 ← cover_of (first_positions st);
    cover2 ← cover_of (second_positions st);
    _ ← check_covers evidence event_type cover1 cover2;
    let break1_strand :=
      if stranded evidence
      then Evidence.decide_sequenced_strand evidence (cover1_reads st) else STRAND_NS in
    let break2_strand :=
      if stranded evidence
      then Evidence.decide_sequenced_strand evidence (cover2_reads st) else STRAND_NS in
    call_windows evidence event_type first_breakpoint_called second_breakpoint_called
      cover1 cover2 break1_strand break2_strand.

(** *** call_events *)

(** [sorted(l)] on strings. *)
Definition str_le (a b : string) : Prop := String.leb a b = true.

Global Instance str_le_dec a b : Decision (str_le a b).
Proof. unfold str_le. apply _. Defined.

Definition sorted (l : list string) : list string := merge_sort str_le l.

Section CallEvents.

(** The three resolvers, by their results, and [sorted] on event
    types (by the strings of constants.py). *)
Variable _call_by_contigs : Evidence.t → Result (list EventCall).
Variable _call_by_spanning_reads : Evidence.t → gset Read → Result (list EventCall).
Variable _call_by_supporting_reads :
  Evidence.t → SVTYPE → gset Read → Result (list EventCall).
Variable sorted_types : list SVTYPE → list SVTYPE.

(** [for call in calls: consumed_evidence.update(call.support())] *)
Definition consume (consumed_evidence : gset Read) (calls : list EventCall) : gset Read :=
  foldl (λ acc call, acc ∪ support call) consumed_evidence calls.

(** One turn of the loop over the event types, with its
    [try ... except UserWarning]; the resolver works on a copy of the
    consumed set. *)
Definition try_event_type (source_evidence : Evidence.t) (consumed_evidence : gset Read)
    (st : Result (list EventCall * gset string)) (event_type : SVTYPE)
    : Result (list EventCall * gset string) :=
  ce ← st;
  match _call_by_supporting_reads source_evidence event_type consumed_evidence with
  | Return found => Return (ce.1 ++ found, ce.2)
  | Raise (UserWarning err) => Return (ce.1, ce.2 ∪ {[err]})
  | Raise e => Raise e
  end.

(** [call_events(source_evidence)] *)
Definition call_events (source_evidence : Evidence.t) : Result (list EventCall) :=
  let consumed_evidence : gset Read := ∅ in
  contig_calls ← _call_by_contigs source_evidence;
  let calls := [] ++ contig_calls in
  let consumed_evidence := consume consumed_evidence contig_calls in
  spanning_calls ← _call_by_spanning_reads source_evidence consumed_evidence;
  let consumed_evidence := consume consumed_evidence spanning_calls in
  let calls := calls ++ spanning_calls in
  ce ← foldl (try_event_type source_evidence consumed_evidence)
             (Return (calls, ∅))
             (sorted_types (Evidence.putative_event_types source_evidence));
  let calls := ce.1 in
  let errors := ce.2 in
  if bool_decide (calls = []) && negb (bool_decide (errors = ∅)) then
    Raise (UserWarning (Py.join ";" (sorted (elements errors))))
  else if bool_decide (calls = []) then
    Raise (UserWarning "insufficient evidence to call events")
  else Return calls.

End CallEvents.

End Caller.

(** The attributes of a call that [add_flanking_support] reads and
    leaves alone. *)
Definition same_call (a b : EventCall) : Prop :=
  call_pair a = call_pair b ∧ source_evidence a = source_evidence b
  ∧ event_type a = event_type b ∧ compatible_type a = compatible_type b.

(** What the split/flank resolver contributes over the event types: the
    calls of the turns that returned, and the messages of the turns that
    raised a [UserWarning]. *)
Definition supporting_calls (results : list (Result (list EventCall))) : list EventCall :=
  r ← results; match r with Return found => found | Raise _ => [] end.

Definition supporting_errors (results : list (Result (list EventCall))) : gset string :=
  list_to_set
    (omap (λ r, match r with Raise (UserWarning err) => Some err | _ => None end) results).

(** A result that [call_events] handles: a list of calls, or the
    [UserWarning] its loop catches. *)
Definition handled (r : Result (list EventCall)) : Prop :=
  match r with
  | Return _ | Raise (UserWarning _) => True
  | Raise _ => False
  end.

(** *** _call_by_supporting_reads: the call by flanking pairs *)

Section SupportingReads.

Variable classify : BreakpointPair → gset SVTYPE.
Variable BreakpointPair_init :
  Breakpoint → Breakpoint → bool → option string → Result BreakpointPair.
Variable Interval_dist : Interval → Interval → Z.
Variable Interval_union : Interval → Interval → Interval.
Variable Interval_len : Interval → Z.
Variable Interval_overlaps : Interval → Interval → bool.
Variable orientation_supports_type : Read → option SVTYPE → bool.
Variable SVTYPE_str : SVTYPE → string.

(** [str(err)] at line 878. Python's [str] of an exception that was built
    with one argument is that argument, and of one that was built with
    several it is the repr of the tuple of them all: the AssertionErrors
    of [_call_by_flanking_pairs] at lines 655, 657, 679, 701, 713, 727
    and 740 carry the covers, windows and breakpoints at hand, whose repr
    is in interval.py and breakpoint.py. An [exn] keeps the first
    argument only, so the text is taken from here, by the call that
    failed (its evidence, event type and consumed reads) and the
    exception. *)
Variable str_err : Evidence.t → SVTYPE → gset Read → exn → string.

(** The body of the [try] of [_call_by_supporting_reads] (call.py, lines
    868-876): the breakpoints by flanking pairs, the call, and its
    flanking support. *)
Definition flanking_call (evidence : Evidence.t) (event_type : SVTYPE)
    (consumed_evidence : gset Read) (available_flanking_pairs : gset (Read * Read))
    : Result EventCall :=
  called ← _call_by_flanking_pairs Interval_overlaps SVTYPE_str evidence event_type
              None None (Some consumed_evidence);
  call ← EventCall_init classify BreakpointPair_init called.1 called.2 evidence event_type
           FLANK None None None;
  let call :=
    add_flanking_support Interval_dist Interval_union Interval_len
      orientation_supports_type call available_flanking_pairs false in
  let call :=
    if has_compatible call then
      add_flanking_support Interval_dist Interval_union Interval_len
        orientation_supports_type call available_flanking_pairs true
    else call in
  Return call.

(** The [try ... except (AssertionError, UserWarning) as err] around it:
    a call is appended, [str] of a caught exception is kept, and any
    other exception goes on. *)
Definition try_flanking_call (str : exn → string) (linked_pairings : list EventCall)
    (error_messages : gset string) (attempt : Result EventCall)
    : Result (list EventCall * gset string) :=
  match attempt with
  | Return call => Return (linked_pairings ++ [call], error_messages)
  | Raise (ValueError msg) => Raise (ValueError msg)
  | Raise err => Return (linked_pairings, error_messages ∪ {[str err]})
  end.

(** [_call_by_supporting_reads(evidence, event_type, consumed_evidence)]
    from the end of its loop over the split-read positions on (call.py,
    lines 861-882): [linked_pairings] holds the calls by split reads,
    [consumed_evidence] and [available_flanking_pairs] are as the first
    part of the function left them. *)
Definition call_by_supporting_reads_end (evidence : Evidence.t) (event_type : SVTYPE)
    (linked_pairings : list EventCall) (consumed_evidence : gset Read)
    (available_flanking_pairs : gset (Read * Read)) : Result (list EventCall) :=
  let consumed_evidence :=
    foldl (λ acc call, acc ∪ support call) consumed_evidence linked_pairings in
  let error_messages : gset string := ∅ in
  let available_flanking_pairs :=
    filter_consumed_pairs available_flanking_pairs consumed_evidence in
  st ← try_flanking_call (str_err evidence event_type consumed_evidence)
         linked_pairings error_messages
         (flanking_call evidence event_type consumed_evidence available_flanking_pairs);
  if bool_decide (st.1 = []) then Raise (UserWarning (Py.join ";" (elements st.2)))
  else Return st.1.

End SupportingReads.

(** *** EventCall.characterize_repeat_region *)

(** The two exceptions of [characterize_repeat_region]: its own
    ValueError, and the KeyError of a chromosome that the reference
    genome does not have. *)
Inductive repeat_exn :=
| RepeatValueError (msg : string)
| RepeatKeyError (key : string).

Inductive RepeatResult :=
| RepeatCount (repeat_count : Z)
| RepeatError (e : repeat_exn).

(** [event.untemplated_seq] where a truth value is asked for: [None] and
    the empty string are false. *)
Definition truthy (s : option string) : bool :=
  match s with
  | Some (String _ _) => true
  | _ => false
  end.

Section RepeatRegion.

(** [len] of a breakpoint (interval.py), the reference genome by the
    sequence of each chromosome ([reference_genome[chr].seq], [None]
    where the dictionary has no such key) and [str.upper]. *)
Variable Interval_len : Interval → Z.
Variable reference_genome : string → option string.
Variable upper : string → string.

(** [while rightmost - len(expected_sequence) > 0: ...]; the loop may
    run for ever, so it is given the number of turns it may take, and
    [None] says that they were not enough. *)
Fixpoint repeat_loop (fuel : nat) (chromosome expected_sequence : string)
    (rightmost repeat_count : Z) : option RepeatResult :=
  match fuel with
  | O => None
  | S fuel' =>
      let n := Z.of_nat (String.length expected_sequence) in
      if rightmost - n >? 0 then
        match reference_genome chromosome with
        | None => Some (RepeatError (RepeatKeyError chromosome))
        | Some sequence =>
            let ref := upper (Py.slice sequence (rightmost - n) rightmost) in
            if bool_decide (ref ≠ expected_sequence) then Some (RepeatCount repeat_count)
            else repeat_loop fuel' chromosome expected_sequence (rightmost - n)
                   (repeat_count + 1)
        end
      else Some (RepeatCount repeat_count)
  end.

(** The sequence that is looked for and the position it is looked for
    from (call.py, lines 293-303). *)
Definition repeat_target (event : EventCall) : repeat_exn + (string * Z) :=
  let b1 := break1 event in
  let b2 := break2 event in
  match event_type event with
  | DEL =>
      match reference_genome (chr b1) with
      | None => inl (RepeatKeyError (chr b1))
      | Some sequence => inr (Py.slice sequence (start b1) (end_ b2 - 1), start b1)
      end
  | DUP =>
      match reference_genome (chr b1) with
      | None => inl (RepeatKeyError (chr b1))
      | Some sequence => inr (Py.slice sequence (start b1 - 1) (end_ b2), start b1 - 1)
      end
  | _ => inr (default EmptyString (untemplated_seq event), start b1)
  end.

(** [EventCall.characterize_repeat_region(event, reference_genome)] *)
Definition characterize_repeat_region (fuel : nat) (event : EventCall)
    : option RepeatResult :=
  if Interval_len (break1 event) + Interval_len (break2 event) >? 2 then
    Some (RepeatError
            (RepeatValueError
               "Cannot characterize a repeat region for a non-specific call"))
  else if negb ((bool_decide (event_type event = INS) && truthy (untemplated_seq event))
                || (bool_decide (event_type event ∈ [DEL; DUP])
                    && negb (truthy (untemplated_seq event)))) then
    Some (RepeatError
            (RepeatValueError
               "Characterizing repeat regions does not make sense for the given event type"))
  else
    match repeat_target event with
    | inl e => Some (RepeatError e)
    | inr (expected_sequence, rightmost) =>
        repeat_loop fuel (chr (break1 event)) expected_sequence rightmost 0
    end.

End RepeatRegion.

(** *** What the specification says of the collaborators *)

(** Modelled from the spec: [BreakpointPair.classify], of breakpoint.py, by
    the table of orientations: LEFT/RIGHT on one chromosome is a deletion
    or an insertion, RIGHT/LEFT a duplication, LEFT/LEFT and RIGHT/RIGHT
    an inversion; two chromosomes give a translocation, inverted when the
    strands oppose. *)
Definition classify_by_orientation (p : BreakpointPair) : gset SVTYPE :=
  if interchromosomal p then
    if opposing_strands p then {[ITRANS]} else {[TRANS]}
  else
    match orient (break1 p), orient (break2 p) with
    | LEFT, RIGHT => {[DEL; INS]}
    | RIGHT, LEFT => {[DUP]}
    | LEFT, LEFT | RIGHT, RIGHT => {[INV]}
    | _, _ => ∅
    end.

(** Closed-interval readings of the operations of interval.py. *)
Definition closed_overlaps (a b : Interval) : bool :=
  (start a <=? end_ b) && (start b <=? end_ a).

Definition closed_union (a b : Interval) : Interval :=
  {| start := Z.min (start a) (start b); end_ := Z.max (end_ a) (end_ b) |}.

Definition closed_len (a : Interval) : Z := end_ a - start a + 1.

Definition gap_dist (a b : Interval) : Z :=
  if end_ a <? start b then start b - end_ a
  else if end_ b <? start a then start a - end_ b
  else 0.

(** *** Sample inputs *)

Definition point (x : Z) : Interval := {| start := x; end_ := x |}.

(** A pair constructor that keeps the breakpoints as given; the strands
    oppose when the orientations agree. *)
Definition sample_pair_init (b1 b2 : Breakpoint) (is_stranded : bool)
    (untemplated : option string) : Result BreakpointPair :=
  Return {| break1 := b1; break2 := b2;
            opposing_strands := bool_decide (orient b1 = orient b2);
            stranded := is_stranded; untemplated_seq := untemplated; data := ∅ |}.

Definition sample_read (name : string) (rid first last : Z) : Read :=
  {| query_name := name; query_sequence := ""; reference_id := rid;
     reference_start := first; reference_end := last |}.

(** Genomic evidence on chromosome 1 between [o1] at 1000 and [o2] at
    2000: reads of 100 bases, fragments of 300 to 500, distances and
    traversals along the reference, every fragment size read as
    [fragment]. *)
Definition sample_evidence (o1 o2 : ORIENT) (pairs : gset (Read * Read))
    (fragment : Interval) : Evidence.t :=
  {| Evidence.pair :=
       {| break1 := {| chr := "1"; position := point 1000; orient := o1; strand := STRAND_NS |};
          break2 := {| chr := "1"; position := point 2000; orient := o2; strand := STRAND_NS |};
          opposing_strands := bool_decide (o1 = o2);
          stranded := false; untemplated_seq := None; data := ∅ |};
     Evidence.bam_cache_stranded := false;
     Evidence.read_length := 100;
     Evidence.min_expected_fragment_size := 300;
     Evidence.max_expected_fragment_size := 500;
     Evidence.min_flanking_pairs_resolution := 1;
     Evidence.flanking_pairs := pairs;
     Evidence.compute_fragment_size := λ _ _, fragment;
     Evidence.distance := λ a b, point (Z.abs (b - a));
     Evidence.traverse := λ pos dist o,
       match o with LEFT => point (pos - dist) | _ => point (pos + dist) end;
     Evidence.decide_sequenced_strand := λ _, STRAND_NS;
     Evidence.putative_event_types := [] |}.

Definition sample_init :=
  EventCall_init classify_by_orientation sample_pair_init.

(** A read pair flanking the region from 1000 to 2000. *)
Definition left_read : Read := sample_read "r1" 0 999 1100.
Definition right_read : Read := sample_read "r1" 0 1999 2100.

Definition sample_break (x : Z) (o : ORIENT) : Breakpoint :=
  {| chr := "1"; position := point x; orient := o; strand := STRAND_NS |}.

(** A call of [event_type] by [call_method] at 1500 and 2000, as the
    constructor leaves it when it succeeds. *)
Definition sample_call (o1 o2 : ORIENT) (ev : Evidence.t) (event_type : SVTYPE)
    (compatible : option SVTYPE) (call_method : CALL_METHOD) : EventCall :=
  new_call
    (init_pair
       {| break1 := sample_break 1500 o1; break2 := sample_break 2000 o2;
          opposing_strands := bool_decide (o1 = o2); stranded := false;
          untemplated_seq := None; data := ∅ |}
       ev)
    ev event_type compatible call_method None None.

Definition dup_evidence : Evidence.t := sample_evidence RIGHT LEFT ∅ (point 400).

(** A deletion called between 1500 and 2000 from evidence whose pairs all
    have a fragment size somewhere from 700 to 1100. *)
Definition del_evidence : Evidence.t :=
  sample_evidence LEFT RIGHT ∅ {| start := 700; end_ := 1100 |}.

Definition del_call : EventCall := sample_call LEFT RIGHT del_evidence DEL None FLANK.

Definition inner_left : Read := sample_read "p1" 0 1399 1500.
Definition inner_right : Read := sample_read "p1" 0 1999 2100.

(** Reads whose orientation supports every type. *)
Definition any_orientation (_ : Read) (_ : option SVTYPE) : bool := true.

(** Names for the event types in messages. *)
Definition sample_SVTYPE_str (t : SVTYPE) : string :=
  match t with
  | DEL => "deletion" | TRANS => "translocation" | ITRANS => "inverted translocation"
  | INV => "inversion" | INS => "insertion" | DUP => "duplication"
  end.

(** Evidence for a duplication between 1000 and 2000 with one flanking
    pair: a read over 1000..1100 and its mate over 2000..2100. *)
Definition dup_flank_evidence : Evidence.t :=
  sample_evidence RIGHT LEFT {[(left_read, right_read)]} (point 400).

(** The same with the two reads exchanged, so that the first cover lies
    after the second. *)
Definition crossed_flank_evidence : Evidence.t :=
  sample_evidence RIGHT LEFT {[(right_read, left_read)]} (point 400).

(** Evidence that puts forward deletion and insertion; no contig and no
    spanning read gives a call, and the split/flank resolver fails for
    both types, each with its own message. *)
Definition two_type_evidence : Evidence.t :=
  let ev := sample_evidence LEFT RIGHT ∅ (point 400) in
  {| Evidence.pair := Evidence.pair ev;
     Evidence.bam_cache_stranded := Evidence.bam_cache_stranded ev;
     Evidence.read_length := Evidence.read_length ev;
     Evidence.min_expected_fragment_size := Evidence.min_expected_fragment_size ev;
     Evidence.max_expected_fragment_size := Evidence.max_expected_fragment_size ev;
     Evidence.min_flanking_pairs_resolution := Evidence.min_flanking_pairs_resolution ev;
     Evidence.flanking_pairs := Evidence.flanking_pairs ev;
     Evidence.compute_fragment_size := Evidence.compute_fragment_size ev;
     Evidence.distance := Evidence.distance ev;
     Evidence.traverse := Evidence.traverse ev;
     Evidence.decide_sequenced_strand := Evidence.decide_sequenced_strand ev;
     Evidence.putative_event_types := [DEL; INS] |}.

Definition no_contig_calls (_ : Evidence.t) : Result (list EventCall) := Return [].

Definition no_spanning_calls (_ : Evidence.t) (_ : gset Read) : Result (list EventCall) :=
  Return [].


(** A split/flank resolver that fails with an exception other than a
    [UserWarning]. *)
Definition crashing_resolver (_ : Evidence.t) (_ : SVTYPE) (_ : gset Read)
    : Result (list EventCall) :=
  Raise (ValueError "orientation must be specific").

(** Upper case of the letters a to z, as [str.upper] has it on them. *)
Definition upper_char (c : ascii) : ascii :=
  let n := nat_of_ascii c in
  if (97 <=? n)%nat && (n <=? 122)%nat then ascii_of_nat (n - 32) else c.

Fixpoint upper_letters (s : string) : string :=
  match s with
  | EmptyString => EmptyString
  | String c rest => String (upper_char c) (upper_letters rest)
  end.

(** A reference genome with the one chromosome "1". *)
Definition sample_genome (chromosome : string) : option string :=
  if bool_decide (chromosome = "1"%string) then Some "GTACACACGT"%string else None.

(** A call of [event_type] between the positions [first] and [last] of
    chromosome 1, with the untemplated sequence [untemplated]. *)
Definition repeat_call (event_type : SVTYPE) (first last : Z)
    (untemplated : option string) : EventCall :=
  new_call
    {| break1 := sample_break first LEFT; break2 := sample_break last RIGHT;
       opposing_strands := false; stranded := false;
       untemplated_seq := untemplated; data := ∅ |}
    del_evidence event_type None SPLIT None None.

(** [str(err)] for an exception that was built with its message alone. *)
Definition message_str (_ : Evidence.t) (_ : SVTYPE) (_ : gset Read) (e : exn) : string :=
  match e with
  | ValueError msg | AssertionError msg | UserWarning msg => msg
  end.



End Call.

(** * Properties *)

Module CallFacts.
Import Call.

Section FilterConsumed.
Context `{Countable R}.

Lemma filter_consumed_loop (consumed : gset R) (l : list (R * R)) (acc : gset (R * R)) x :
  x ∈ foldl (λ temp rm,
               if bool_decide ((rm.1 ∉ consumed) ∧ (rm.2 ∉ consumed))
               then temp ∪ {[(rm.1, rm.2)]} else temp) acc l
  ↔ x ∈ acc ∨ (x ∈ l ∧ (x.1 ∉ consumed) ∧ (x.2 ∉ consumed)).
Proof.
  revert acc. induction l as [|[r m] l IH]; intros acc; simpl.
  - rewrite elem_of_nil. tauto.
  - rewrite IH, elem_of_cons. destruct x as [a b]. simpl.
    case_bool_decide as Hc; simpl in Hc.
    + rewrite elem_of_union, elem_of_singleton. naive_solver.
    + naive_solver.
Qed.

Lemma elem_of_filter_consumed_pairs (pairs : gset (R * R)) (consumed : gset R) read mate :
  (read, mate) ∈ filter_consumed_pairs pairs consumed
  ↔ (read, mate) ∈ pairs ∧ (read ∉ consumed) ∧ (mate ∉ consumed).
Proof.
  unfold filter_consumed_pairs. rewrite filter_consumed_loop, elem_of_elements.
  simpl. set_solver.
Qed.

(** C10. [filter_consumed_pairs] returns exactly the pairs of which
    neither the read nor the mate is consumed; the result is a subset of
    the given pairs, and nothing is dropped when no read is consumed. *)
Theorem filter_consumed_pairs_spec (pairs : gset (R * R)) (consumed_reads : gset R) :
  (∀ read mate,
     (read, mate) ∈ filter_consumed_pairs pairs consumed_reads
     ↔ (read, mate) ∈ pairs ∧ (read ∉ consumed_reads) ∧ (mate ∉ consumed_reads))
  ∧ filter_consumed_pairs pairs consumed_reads ⊆ pairs
  ∧ filter_consumed_pairs pairs ∅ = pairs.
Proof.
  split; [|split].
  - intros. apply elem_of_filter_consumed_pairs.
  - intros [r m] Hin. by apply elem_of_filter_consumed_pairs in Hin as [? _].
  - apply set_eq. intros [r m]. rewrite elem_of_filter_consumed_pairs. set_solver.
Qed.
End FilterConsumed.

Section EventCallFacts.
Variable classify : BreakpointPair → gset SVTYPE.
Variable BreakpointPair_init :
  Breakpoint → Breakpoint → bool → option string → Result BreakpointPair.


(** The constructor, read backwards: what a successful construction went
    through. *)
Lemma EventCall_init_Return b1 b2 ev t cm contig aln u call :
  EventCall_init classify BreakpointPair_init b1 b2 ev t cm contig aln u = Return call →
  ∃ p, BreakpointPair_init b1 b2 (stranded ev && Evidence.bam_cache_stranded ev) u = Return p
       ∧ call_pair call = init_pair p ev
       ∧ (event_type call, compatible_type call) = swap_types classify (init_pair p ev) t
       ∧ (event_type call ∈ classify (init_pair p ev)
          ∨ Some (event_type call) = compatible_type call)
       ∧ (is_Some contig → cm = CONTIG).
Proof.
  unfold EventCall_init.
  destruct (BreakpointPair_init _ _ _ _) as [p|e]; simpl; [|discriminate].
  destruct (swap_types _ _ _) as [t' c'] eqn:Hswap.
  destruct (bool_decide (t' ∈ _)) eqn:Hin; destruct (bool_decide (Some t' = c')) eqn:Hc;
    simpl; try discriminate.
  all: destruct (bool_decide (is_Some contig)) eqn:Hcontig;
    destruct (bool_decide (cm = CONTIG)) eqn:Hcm; simpl; try discriminate.
  all: intros [= <-]; exists p; simpl; repeat split; auto.
  all: try (left; by apply bool_decide_eq_true in Hin).
  all: try (right; by apply bool_decide_eq_true in Hc).
  all: try (intros _; by apply bool_decide_eq_true in Hcm).
  all: intros Hs; apply bool_decide_eq_false in Hcontig; contradiction.
Qed.

Lemma swap_types_compatible self t :
  (swap_types classify self t).2 = initial_compatible_type (swap_types classify self t).1.
Proof.
  unfold swap_types. destruct t; simpl; try reflexivity.
  all: destruct (negb _ && _); reflexivity.
Qed.

Lemma swap_types_distinct self t :
  Some (swap_types classify self t).1 ≠ (swap_types classify self t).2.
Proof. rewrite swap_types_compatible. by destruct (swap_types classify self t).1. Qed.

(** C9. On every constructed call the compatible type is decided by the
    event type after the swap: INS for a DUP, DUP for an INS, none for any
    other type; [has_compatible] holds exactly when there is a compatible
    type, so a DUP call has the compatible type INS and an INV call has
    none. *)
Theorem EventCall_compatible_type b1 b2 ev t cm contig aln u call :
  EventCall_init classify BreakpointPair_init b1 b2 ev t cm contig aln u = Return call →
  compatible_type call
    = match event_type call with
      | DUP => Some INS
      | INS => Some DUP
      | _ => None
      end
  ∧ (has_compatible call = true ↔ compatible_type call ≠ None)
  ∧ (event_type call = DUP → has_compatible call = true ∧ compatible_type call = Some INS)
  ∧ (event_type call = INV → compatible_type call = None).
Proof.
  intros Hinit. apply EventCall_init_Return in Hinit as (p & _ & _ & Hswap & _).
  pose proof (swap_types_compatible (init_pair p ev) t) as Hc.
  rewrite <- Hswap in Hc. simpl in Hc.
  assert (Hhas : has_compatible call = true ↔ compatible_type call ≠ None).
  { unfold has_compatible. destruct (compatible_type call); split; intros; done. }
  split; [|split; [|split]].
  - rewrite Hc. by destruct (event_type call).
  - exact Hhas.
  - intros Ht. rewrite Ht in Hc. simpl in Hc. split; [apply Hhas; congruence | exact Hc].
  - intros Ht. by rewrite Ht in Hc.
Qed.

(** C1. On every constructed call the event type is among the
    classifications of the call or is its compatible type. Once the pair
    of the call is built, and a contig, if given, comes with the call
    method CONTIG: a requested type that is a classification is kept, with
    INS as the compatible type of a DUP, DUP as that of an INS and none
    for any other type; a requested INS or DUP that is not a
    classification, while the other of the two is one, is swapped with
    it, and the call is constructed with the other as its event type and
    the requested type as its compatible type; and the construction fails
    with the ValueError of the check exactly in the cases that are left,
    where after the swap the event type is neither a classification nor
    the compatible type. *)
Theorem EventCall_event_type_valid b1 b2 ev t cm contig aln u :
  let outcome := EventCall_init classify BreakpointPair_init b1 b2 ev t cm contig aln u in
  (∀ call, outcome = Return call →
     event_type call ∈ classify call ∨ Some (event_type call) = compatible_type call)
  ∧ (∀ p, BreakpointPair_init b1 b2 (stranded ev && Evidence.bam_cache_stranded ev) u
          = Return p →
       let self := init_pair p ev in
       (t ∈ classify self → (is_Some contig → cm = CONTIG) →
        outcome = Return (new_call self ev t
                            match t with DUP => Some INS | INS => Some DUP | _ => None end
                            cm contig aln))
       ∧ (∀ c, (t = INS ∧ c = DUP) ∨ (t = DUP ∧ c = INS) →
            t ∉ classify self → c ∈ classify self → (is_Some contig → cm = CONTIG) →
            outcome = Return (new_call self ev c (Some t) cm contig aln))
       ∧ ((outcome
           = Raise (ValueError "event_type is not compatible with the breakpoint call"))
          ↔ ((t ∉ classify self)
             ∧ (t = INS → DUP ∉ classify self) ∧ (t = DUP → INS ∉ classify self)))).
Proof.
  intros outcome. split.
  - intros call Hinit.
    apply EventCall_init_Return in Hinit as (p & _ & Hpair & _ & Hok & _).
    unfold call_pair in *. rewrite Hpair. exact Hok.
  - intros p Hp self. subst self. set (self := init_pair p ev) in *.
    assert (Hout : outcome
              = let '(t', c') := swap_types classify self t in
                if negb (bool_decide (t' ∈ classify self) || bool_decide (Some t' = c'))
                then Raise (ValueError "event_type is not compatible with the breakpoint call")
                else if bool_decide (is_Some contig) && negb (bool_decide (cm = CONTIG))
                then Raise (ValueError "if a contig is given the call method must be by contig")
                else Return (new_call self ev t' c' cm contig aln)).
    { subst outcome. unfold EventCall_init. by rewrite Hp. }
    assert (Hcontig : (is_Some contig → cm = CONTIG) →
              bool_decide (is_Some contig) && negb (bool_decide (cm = CONTIG)) = false).
    { intros H. destruct (decide (is_Some contig)) as [Hs|Hn].
      - by rewrite (bool_decide_eq_true_2 _ (H Hs)), andb_false_r.
      - by rewrite (bool_decide_eq_false_2 _ Hn). }
    split_and!.
    + intros Hin Hc. rewrite Hout. unfold swap_types.
      destruct t; simpl; rewrite ?(bool_decide_eq_true_2 _ Hin); simpl;
        rewrite ?(bool_decide_eq_true_2 _ Hin); simpl; by rewrite (Hcontig Hc).
    + intros c Hcase Hnot Hin Hc. rewrite Hout. unfold swap_types.
      destruct Hcase as [[-> ->]|[-> ->]]; simpl;
        rewrite (bool_decide_eq_false_2 _ Hnot), (bool_decide_eq_true_2 _ Hin); simpl;
        rewrite (bool_decide_eq_true_2 _ Hin); simpl; by rewrite (Hcontig Hc).
    + rewrite Hout. unfold swap_types. split.
      * destruct (decide (t ∈ classify self)) as [Hin|Hnot].
        { intros Hraise. exfalso. revert Hraise.
          destruct t; simpl; rewrite ?(bool_decide_eq_true_2 _ Hin); simpl;
            rewrite ?(bool_decide_eq_true_2 _ Hin); simpl.
          all: destruct (bool_decide (is_Some contig) && _); discriminate. }
        intros Hraise. split; [exact Hnot|]. split; intros ->; intros Hin; simpl in Hraise;
          rewrite (bool_decide_eq_false_2 _ Hnot), (bool_decide_eq_true_2 _ Hin) in Hraise;
          simpl in Hraise; rewrite (bool_decide_eq_true_2 _ Hin) in Hraise;
          simpl in Hraise; destruct (bool_decide (is_Some contig) && _); discriminate.
      * intros (Hnot & Hins & Hdup).
        destruct t; simpl; rewrite ?(bool_decide_eq_false_2 _ Hnot); simpl; try reflexivity.
        -- rewrite (bool_decide_eq_false_2 _ (Hins eq_refl)). simpl.
           by rewrite (bool_decide_eq_false_2 _ Hnot).
        -- rewrite (bool_decide_eq_false_2 _ (Hdup eq_refl)). simpl.
           by rewrite (bool_decide_eq_false_2 _ Hnot).
Qed.

(** The primary type of a call is in fact always geometrically valid: it
    never equals the compatible type. *)
Lemma EventCall_event_type_classified b1 b2 ev t cm contig aln u call :
  EventCall_init classify BreakpointPair_init b1 b2 ev t cm contig aln u = Return call →
  event_type call ∈ classify call.
Proof.
  intros Hinit. apply EventCall_init_Return in Hinit as (p & _ & Hpair & Hswap & Hok & _).
  simpl. rewrite Hpair. destruct Hok as [?|Heq]; [done|].
  pose proof (swap_types_distinct (init_pair p ev) t) as Hd.
  rewrite <- Hswap in Hd. contradiction.
Qed.

End EventCallFacts.


(** Decidable facts about concrete inputs, by evaluation. *)
Ltac by_compute := apply (bool_decide_unpack _); vm_compute; exact I.

Lemma EventCall_compatible_type_witness :
  sample_init (sample_break 1500 RIGHT) (sample_break 2000 LEFT) dup_evidence
    DUP SPLIT None None None
  = Return (sample_call RIGHT LEFT dup_evidence DUP (Some INS) SPLIT)
  ∧ compatible_type (sample_call RIGHT LEFT dup_evidence DUP (Some INS) SPLIT) = Some INS
  ∧ has_compatible (sample_call RIGHT LEFT dup_evidence DUP (Some INS) SPLIT) = true.
Proof.
  assert (Hinit : sample_init (sample_break 1500 RIGHT) (sample_break 2000 LEFT) dup_evidence
                    DUP SPLIT None None None
                  = Return (sample_call RIGHT LEFT dup_evidence DUP (Some INS) SPLIT))
    by (vm_compute; reflexivity).
  split; [exact Hinit|]. unfold sample_init in Hinit.
  destruct (EventCall_compatible_type classify_by_orientation sample_pair_init
              _ _ _ _ _ _ _ _ _ Hinit) as (_ & _ & Hdup & _).
  destruct (Hdup eq_refl) as [Hhas Hc]. split; [exact Hc | exact Hhas].
Defined.

(** An insertion asked for between a RIGHT and a LEFT breakpoint is
    recorded as a duplication, with the insertion as its compatible type;
    a duplication asked for between a LEFT and a RIGHT breakpoint is
    recorded as an insertion, with the duplication as its compatible
    type; a deletion asked for there is kept, and one asked for between a
    RIGHT and a LEFT breakpoint is refused. *)
Lemma EventCall_event_type_valid_witness :
  sample_init (sample_break 1500 RIGHT) (sample_break 2000 LEFT) dup_evidence
    INS SPLIT None None None
  = Return (sample_call RIGHT LEFT dup_evidence DUP (Some INS) SPLIT)
  ∧ DUP ∈ classify_by_orientation (sample_call RIGHT LEFT dup_evidence DUP (Some INS) SPLIT)
  ∧ sample_init (sample_break 1500 LEFT) (sample_break 2000 RIGHT) del_evidence
      DUP SPLIT None None None
    = Return (sample_call LEFT RIGHT del_evidence INS (Some DUP) SPLIT)
  ∧ sample_init (sample_break 1500 LEFT) (sample_break 2000 RIGHT) del_evidence
      DEL SPLIT None None None
    = Return (sample_call LEFT RIGHT del_evidence DEL None SPLIT)
  ∧ sample_init (sample_break 1500 RIGHT) (sample_break 2000 LEFT) dup_evidence
      DEL SPLIT None None None
    = Raise (ValueError "event_type is not compatible with the breakpoint call").
Proof.
  destruct (EventCall_event_type_valid classify_by_orientation sample_pair_init
              (sample_break 1500 RIGHT) (sample_break 2000 LEFT) dup_evidence INS SPLIT
              None None None) as [Hvalid Hins].
  destruct (Hins _ eq_refl) as (_ & Hswap_ins & _).
  destruct (EventCall_event_type_valid classify_by_orientation sample_pair_init
              (sample_break 1500 LEFT) (sample_break 2000 RIGHT) del_evidence DUP SPLIT
              None None None) as [_ Hdup].
  destruct (Hdup _ eq_refl) as (_ & Hswap_dup & _).
  destruct (EventCall_event_type_valid classify_by_orientation sample_pair_init
              (sample_break 1500 LEFT) (sample_break 2000 RIGHT) del_evidence DEL SPLIT
              None None None) as [_ Hdel].
  destruct (Hdel _ eq_refl) as (Hkept & _ & _).
  destruct (EventCall_event_type_valid classify_by_orientation sample_pair_init
              (sample_break 1500 RIGHT) (sample_break 2000 LEFT) dup_evidence DEL SPLIT
              None None None) as [_ Hbad].
  destruct (Hbad _ eq_refl) as (_ & _ & Hfail).
  assert (Hinit : sample_init (sample_break 1500 RIGHT) (sample_break 2000 LEFT) dup_evidence
                    INS SPLIT None None None
                  = Return (sample_call RIGHT LEFT dup_evidence DUP (Some INS) SPLIT)).
  { apply (Hswap_ins DUP); [by left | by_compute | by_compute | by intros [c Hc]]. }
  split_and!.
  - exact Hinit.
  - destruct (Hvalid _ Hinit) as [Hin|Heq]; [exact Hin | discriminate Heq].
  - apply (Hswap_dup INS); [by right | by_compute | by_compute | by intros [c Hc]].
  - apply Hkept; [by_compute | by intros [c Hc]].
  - apply Hfail. split_and!; [by_compute | discriminate | discriminate].
Defined.

Section FlankingSupportFacts.
Variable Interval_dist : Interval → Interval → Z.
Variable Interval_union : Interval → Interval → Interval.
Variable Interval_len : Interval → Z.
Variable orientation_supports_type : Read → option SVTYPE → bool.

Lemma supports_same a b is_compatible read mate :
  same_call a b →
  supports Interval_dist Interval_union Interval_len orientation_supports_type
    a is_compatible read mate
  = supports Interval_dist Interval_union Interval_len orientation_supports_type
      b is_compatible read mate.
Proof.
  intros (Hp & He & Ht & Hc).
  unfold supports, fragment_size_ok, chromosomes_ok, orientation_ok, positions_ok,
    min_frag, max_frag.
  simpl. by rewrite Hp, He, Ht, Hc.
Qed.

Lemma add_flanking_pair_same is_compatible self rm :
  same_call
    (add_flanking_pair Interval_dist Interval_union Interval_len orientation_supports_type
       is_compatible self rm)
    self.
Proof. unfold add_flanking_pair. by destruct (supports _ _ _ _ _ _ _ _). Qed.

Lemma add_flanking_support_loop self0 l : ∀ self,
  same_call self self0 →
  same_call
    (foldl (add_flanking_pair Interval_dist Interval_union Interval_len
              orientation_supports_type false) self l) self0
  ∧ ∀ rm,
      rm ∈ flanking_pairs
             (foldl (add_flanking_pair Interval_dist Interval_union Interval_len
                       orientation_supports_type false) self l)
      ↔ rm ∈ flanking_pairs self
        ∨ (rm ∈ l
           ∧ supports Interval_dist Interval_union Interval_len orientation_supports_type
               self0 false rm.1 rm.2 = true).
Proof.
  induction l as [|x l IH]; intros self Hsame; simpl.
  - split; [done|]. intros rm. rewrite elem_of_nil. tauto.
  - pose proof (add_flanking_pair_same false self x) as Hstep.
    assert (Hsame' : same_call
              (add_flanking_pair Interval_dist Interval_union Interval_len
                 orientation_supports_type false self x) self0).
    { destruct Hstep as (?&?&?&?), Hsame as (?&?&?&?). repeat split; congruence. }
    destruct (IH _ Hsame') as [Hs Hin]. split; [exact Hs|].
    intros rm. rewrite Hin, elem_of_cons. unfold add_flanking_pair.
    rewrite (supports_same self self0 false _ _ Hsame).
    destruct (supports _ _ _ _ self0 false x.1 x.2) eqn:Hx; simpl.
    + rewrite elem_of_union, elem_of_singleton. destruct x, rm; simpl in *.
      split; [intros [[?|?]|?]|intros [?|[[?|?] ?]]]; simplify_eq; tauto.
    + split; [tauto|]. intros [?|[[->|?] ?]]; [tauto| |tauto]. congruence.
Qed.

(** The pairs [add_flanking_support] adds are the candidates that pass
    every check of the loop body. *)
Lemma elem_of_add_flanking_support self pairs read mate :
  (read, mate) ∈ flanking_pairs
                   (add_flanking_support Interval_dist Interval_union Interval_len
                      orientation_supports_type self pairs false)
  ↔ (read, mate) ∈ flanking_pairs self
    ∨ ((read, mate) ∈ pairs
       ∧ supports Interval_dist Interval_union Interval_len orientation_supports_type
           self false read mate = true).
Proof.
  unfold add_flanking_support.
  destruct (add_flanking_support_loop self (elements pairs) self) as [_ Hin];
    [by repeat split|].
  rewrite Hin, elem_of_elements. reflexivity.
Qed.

End FlankingSupportFacts.

Section FlankingSupportClaims.
Variable Interval_dist : Interval → Interval → Z.
Variable Interval_union : Interval → Interval → Interval.
Variable Interval_len : Interval → Z.
Variable orientation_supports_type : Read → option SVTYPE → bool.

(** C4, as the code has it. Every pair that [add_flanking_support] (with
    [is_compatible] false) adds to [flanking_pairs] is one of the
    candidates, and: for a DEL call its fragment-size interval reaches
    [min_frag] and starts no later than [max_frag] (the interval meets
    [[min_frag, max_frag]]; it need not lie inside it); for an INS call the
    fragment size starts below [min_expected_fragment_size];
    [interchromosomal] equals [read.chr ≠ mate.chr]; the orientation of
    the read supports the event type; and the inequalities of the quadrant
    of the two breakpoint orientations hold. *)
Theorem add_flanking_support_accepts (self : EventCall) (pairs : gset (Read * Read))
    (read mate : Read) :
  (read, mate) ∈ flanking_pairs
                   (add_flanking_support Interval_dist Interval_union Interval_len
                      orientation_supports_type self pairs false) →
  (read, mate) ∉ flanking_pairs self →
  let fragment := Evidence.compute_fragment_size (source_evidence self) read mate in
  let min_expected := Evidence.min_expected_fragment_size (source_evidence self) in
  let max_expected := Evidence.max_expected_fragment_size (source_evidence self) in
  let min_frag := Z.max (min_expected + Interval_dist (break1 self) (break2 self))
                        max_expected in
  let max_frag := Interval_len (Interval_union (break1 self) (break2 self))
                  + max_expected in
  let b1 := break1 self in
  let b2 := break2 self in
  (read, mate) ∈ pairs
  ∧ (event_type self = DEL → min_frag ≤ end_ fragment ∧ start fragment ≤ max_frag)
  ∧ (event_type self = INS → start fragment < min_expected)
  ∧ interchromosomal self = bool_decide (reference_id read ≠ reference_id mate)
  ∧ orientation_supports_type read (Some (event_type self)) = true
  ∧ (orient b1 = LEFT → orient b2 = LEFT →
       reference_start read + 1 ≤ end_ b1 ∧ reference_start mate + 1 ≤ end_ b2
       ∧ (start b1 < reference_end mate ∨ interchromosomal self = true))
  ∧ (orient b1 = LEFT → orient b2 = RIGHT →
       reference_start read + 1 ≤ end_ b1 ∧ start b2 ≤ reference_end mate)
  ∧ (orient b1 = RIGHT → orient b2 = LEFT →
       start b1 ≤ reference_end read ∧ reference_start mate + 1 ≤ end_ b2)
  ∧ (orient b1 = RIGHT → orient b2 = RIGHT →
       start b1 ≤ reference_end read ∧ start b2 ≤ reference_end mate
       ∧ (reference_end read < end_ b2 ∨ interchromosomal self = true)).
Proof.
  intros Hin Hnew. apply elem_of_add_flanking_support in Hin as [?|[Hpairs Hs]]; [done|].
  unfold supports in Hs.
  apply andb_prop in Hs as [Hs Hpos]. apply andb_prop in Hs as [Hs Hor].
  apply andb_prop in Hs as [Hfrag Hchr].
  unfold fragment_size_ok, Call.min_frag, Call.max_frag in Hfrag.
  unfold chromosomes_ok in Hchr. unfold orientation_ok in Hor. simpl in Hor.
  unfold positions_ok in Hpos. simpl in Hpos.
  apply negb_true_iff, bool_decide_eq_false in Hchr.
  assert (Hb : ∀ x y : bool, (x || y = true) → x = true ∨ y = true)
    by (intros [] []; auto).
  split_and!; try done.
  - intros Ht. rewrite Ht in Hfrag.
    apply negb_true_iff, orb_false_iff in Hfrag as [? ?]. lia.
  - intros Ht. rewrite Ht in Hfrag. apply negb_true_iff in Hfrag. lia.
  - destruct (interchromosomal self), (bool_decide (reference_id read ≠ reference_id mate));
      try done; exfalso; apply Hchr; auto.
  - intros H1 H2. rewrite H1, H2 in Hpos. simpl in Hpos.
    apply andb_prop in Hpos as [Hp Hq]. apply andb_prop in Hp as [? ?].
    apply Hb in Hq as [?|?]; (split_and!; [lia | lia | first [left; lia | by right]]).
  - intros H1 H2. rewrite H1, H2 in Hpos. simpl in Hpos.
    apply andb_prop in Hpos as [? ?]. lia.
  - intros H1 H2. rewrite H1, H2 in Hpos. simpl in Hpos.
    apply andb_prop in Hpos as [? ?]. lia.
  - intros H1 H2. rewrite H1, H2 in Hpos. simpl in Hpos.
    apply andb_prop in Hpos as [Hp Hq]. apply andb_prop in Hp as [? ?].
    apply Hb in Hq as [?|?]; (split_and!; [lia | lia | first [left; lia | by right]]).
Qed.

End FlankingSupportClaims.

Lemma add_flanking_support_accepts_witness :
  (inner_left, inner_right)
    ∈ flanking_pairs (add_flanking_support gap_dist closed_union closed_len any_orientation
                        del_call {[(inner_left, inner_right)]} false)
  ∧ ((inner_left, inner_right) ∉ flanking_pairs del_call)
  ∧ 800 ≤ end_ (Evidence.compute_fragment_size del_evidence inner_left inner_right)
  ∧ start (Evidence.compute_fragment_size del_evidence inner_left inner_right) ≤ 1001.
Proof.
  assert (Hin : (inner_left, inner_right)
                  ∈ flanking_pairs
                      (add_flanking_support gap_dist closed_union closed_len any_orientation
                         del_call {[(inner_left, inner_right)]} false)) by by_compute.
  assert (Hnew : (inner_left, inner_right) ∉ flanking_pairs del_call) by by_compute.
  split; [exact Hin|]. split; [exact Hnew|].
  destruct (add_flanking_support_accepts gap_dist closed_union closed_len any_orientation
              del_call _ _ _ Hin Hnew) as (_ & Hdel & _).
  exact (Hdel eq_refl).
Defined.

(** C4 as the specification words it fails: a pair is accepted for a
    deletion although its fragment-size interval, from 700 to 1100, lies
    neither above [min_frag] = 800 nor below [max_frag] = 1001. *)
Lemma add_flanking_support_fragment_not_within :
  (inner_left, inner_right)
    ∈ flanking_pairs (add_flanking_support gap_dist closed_union closed_len any_orientation
                        del_call {[(inner_left, inner_right)]} false)
  ∧ ((inner_left, inner_right) ∉ flanking_pairs del_call)
  ∧ event_type del_call = DEL
  ∧ ¬ (min_frag gap_dist del_call
         ≤ start (Evidence.compute_fragment_size (source_evidence del_call)
                    inner_left inner_right)
       ∧ end_ (Evidence.compute_fragment_size (source_evidence del_call)
                 inner_left inner_right)
         ≤ max_frag closed_union closed_len del_call).
Proof.
  split_and!; [by_compute | by_compute | reflexivity |].
  vm_compute. intros [H _]. apply H. reflexivity.
Qed.

Section FlankingPairsFacts.
Variable Interval_overlaps : Interval → Interval → bool.
Variable SVTYPE_str : SVTYPE → string.

Lemma py_min_spec l lo :
  py_min l = Return lo → lo ∈ l ∧ ∀ x, x ∈ l → lo ≤ x.
Proof.
  destruct l as [|x0 l]; simpl; [discriminate|]. intros [= <-].
  revert x0. induction l as [|y l IH]; intros x0; simpl.
  - split; [by left|]. intros x ->%list_elem_of_singleton. lia.
  - destruct (IH (Z.min x0 y)) as [Hin Hle]. split.
    + apply elem_of_cons in Hin as [Heq|Hin]; [|set_solver].
      rewrite Heq. destruct (Z.min_spec x0 y) as [[_ ->]|[_ ->]]; set_solver.
    + intros x Hx. assert (Hm : foldl Z.min (Z.min x0 y) l ≤ Z.min x0 y)
        by (apply Hle; by left).
      apply elem_of_cons in Hx as [->|Hx]; [lia|].
      apply elem_of_cons in Hx as [->|Hx]; [lia|]. apply Hle. by right.
Qed.

Lemma py_max_spec l hi :
  py_max l = Return hi → hi ∈ l ∧ ∀ x, x ∈ l → x ≤ hi.
Proof.
  destruct l as [|x0 l]; simpl; [discriminate|]. intros [= <-].
  revert x0. induction l as [|y l IH]; intros x0; simpl.
  - split; [by left|]. intros x ->%list_elem_of_singleton. lia.
  - destruct (IH (Z.max x0 y)) as [Hin Hle]. split.
    + apply elem_of_cons in Hin as [Heq|Hin]; [|set_solver].
      rewrite Heq. destruct (Z.max_spec x0 y) as [[_ ->]|[_ ->]]; set_solver.
    + intros x Hx. assert (Hm : Z.max x0 y ≤ foldl Z.max (Z.max x0 y) l)
        by (apply Hle; by left).
      apply elem_of_cons in Hx as [->|Hx]; [lia|].
      apply elem_of_cons in Hx as [->|Hx]; [lia|]. apply Hle. by right.
Qed.

(** A cover is the least and the greatest of the positions. *)
Lemma cover_of_spec l c :
  cover_of l = Return c →
  start c ∈ l ∧ end_ c ∈ l ∧ ∀ x, x ∈ l → start c ≤ x ≤ end_ c.
Proof.
  unfold cover_of.
  destruct (py_min l) as [lo|] eqn:Hlo; simpl; [|discriminate].
  destruct (py_max l) as [hi|] eqn:Hhi; simpl; [|discriminate].
  intros [= <-]. simpl.
  destruct (py_min_spec _ _ Hlo) as [? Hl], (py_max_spec _ _ Hhi) as [? Hh].
  split_and!; [done|done|]. intros x Hx. split; [by apply Hl | by apply Hh].
Qed.

(** The loop counts the surviving pairs and lists their positions. *)
Lemma flanking_loop evidence event_type l : ∀ st,
  let st' := foldl (flanking_step evidence event_type) st l in
  let kept := filter (λ rm, fragment_size_rejected evidence event_type rm.1 rm.2 = false) l in
  flanking_count st' = flanking_count st + Z.of_nat (length kept)
  ∧ cover1_reads st' = cover1_reads st ++ kept.*1
  ∧ cover2_reads st' = cover2_reads st ++ kept.*2
  ∧ first_positions st'
    = first_positions st
      ++ (kept ≫= λ rm, [reference_start rm.1 + 1; reference_end rm.1])
  ∧ second_positions st'
    = second_positions st
      ++ (kept ≫= λ rm, [reference_start rm.2 + 1; reference_end rm.2]).
Proof.
  induction l as [|rm l IH]; intros st; simpl.
  - rewrite !app_nil_r. split_and!; [lia|done..].
  - destruct (IH (flanking_step evidence event_type st rm)) as (Hc & H1 & H2 & Hf & Hs).
    unfold flanking_step in *.
    rewrite filter_cons.
    destruct (fragment_size_rejected evidence event_type rm.1 rm.2) eqn:Hrej.
    + rewrite decide_False by done. done.
    + rewrite decide_True by done. simpl in *.
      rewrite Hc, H1, H2, Hf, Hs, <- !app_assoc. simpl. split_and!; [lia|done..].
Qed.

Lemma surviving_flanking_spec evidence event_type consumed :
  let st := surviving_flanking evidence event_type consumed in
  let kept := surviving_pairs evidence event_type consumed in
  flanking_count st = Z.of_nat (length kept)
  ∧ first_positions st = (kept ≫= λ rm, [reference_start rm.1 + 1; reference_end rm.1])
  ∧ second_positions st = (kept ≫= λ rm, [reference_start rm.2 + 1; reference_end rm.2]).
Proof.
  unfold surviving_flanking, surviving_pairs.
  destruct (flanking_loop evidence event_type
              (elements (filter_consumed_pairs (Evidence.flanking_pairs evidence) consumed))
              no_flanking) as (Hc & _ & _ & Hf & Hs).
  simpl in *. by rewrite Hc, Hf, Hs.
Qed.

End FlankingPairsFacts.

Section FlankingPairsClaims.
Variable Interval_overlaps : Interval → Interval → bool.
Variable SVTYPE_str : SVTYPE → string.

(** C3, as the code has it. [_call_by_flanking_pairs] fails when fewer
    than [min_flanking_pairs_resolution] pairs survive the consumed set
    and the fragment-size filter. For an intra-chromosomal call with the
    covers [cover1] and [cover2] of the surviving pairs, it fails for
    every type but DUP when the covers overlap; and for DUP it fails when
    [cover1.start > cover2.start] or [cover2.end < cover1.end]: a
    duplication goes on only when neither holds. *)
Theorem call_by_flanking_pairs_rejects (evidence : Evidence.t) (event_type : SVTYPE)
    (first_breakpoint_called second_breakpoint_called : option Breakpoint)
    (consumed_evidence : option (gset Read)) :
  let kept := surviving_pairs evidence event_type (default ∅ consumed_evidence) in
  let st := surviving_flanking evidence event_type (default ∅ consumed_evidence) in
  let result :=
    _call_by_flanking_pairs Interval_overlaps SVTYPE_str evidence event_type
      first_breakpoint_called second_breakpoint_called consumed_evidence in
  (Z.of_nat (length kept) < Evidence.min_flanking_pairs_resolution evidence →
   ∃ msg, result = Raise (AssertionError msg))
  ∧ (∀ cover1 cover2,
       interchromosomal evidence = false →
       cover_of (first_positions st) = Return cover1 →
       cover_of (second_positions st) = Return cover2 →
       (event_type ≠ DUP → Interval_overlaps cover1 cover2 = true →
        ∃ msg, result = Raise (AssertionError msg))
       ∧ (event_type = DUP →
          start cover2 < start cover1 ∨ end_ cover2 < end_ cover1 →
          ∃ msg, result = Raise (AssertionError msg))).
Proof.
  intros kept st result.
  destruct (surviving_flanking_spec evidence event_type (default ∅ consumed_evidence))
    as (Hcount & _ & _).
  fold st kept in Hcount.
  split.
  - intros Hfew. subst result. unfold _call_by_flanking_pairs. fold st.
    rewrite Hcount. rewrite (proj2 (Z.ltb_lt _ _) Hfew). eauto.
  - intros cover1 cover2 Hintra Hc1 Hc2.
    subst result. unfold _call_by_flanking_pairs. fold st.
    destruct (flanking_count st <? _); [split; eauto|].
    rewrite Hc1. simpl. rewrite Hc2. simpl.
    unfold check_covers. rewrite Hintra. simpl. split.
    + intros Hne Hov. rewrite Hov, (bool_decide_eq_false_2 _ Hne). simpl. eauto.
    + intros -> Hcond. rewrite andb_false_r. simpl.
      assert (Hc : (start cover1 >? start cover2) || (end_ cover2 <? end_ cover1) = true).
      { apply orb_true_iff. destruct Hcond; [left|right]; lia. }
      rewrite Hc. simpl. eauto.
Qed.

End FlankingPairsClaims.

(** With the two reads of the pair exchanged the first cover starts after
    the second, and the duplication is refused. *)
Lemma call_by_flanking_pairs_rejects_witness :
  interchromosomal crossed_flank_evidence = false
  ∧ cover_of (first_positions (surviving_flanking crossed_flank_evidence DUP ∅))
    = Return {| start := 2000; end_ := 2100 |}
  ∧ cover_of (second_positions (surviving_flanking crossed_flank_evidence DUP ∅))
    = Return {| start := 1000; end_ := 1100 |}
  ∧ ∃ msg, _call_by_flanking_pairs closed_overlaps sample_SVTYPE_str
             crossed_flank_evidence DUP None None None
           = Raise (AssertionError msg).
Proof.
  assert (H1 : interchromosomal crossed_flank_evidence = false) by reflexivity.
  assert (H2 : cover_of (first_positions (surviving_flanking crossed_flank_evidence DUP ∅))
               = Return {| start := 2000; end_ := 2100 |}) by (vm_compute; reflexivity).
  assert (H3 : cover_of (second_positions (surviving_flanking crossed_flank_evidence DUP ∅))
               = Return {| start := 1000; end_ := 1100 |}) by (vm_compute; reflexivity).
  split_and!; [exact H1 | exact H2 | exact H3 |].
  destruct (call_by_flanking_pairs_rejects closed_overlaps sample_SVTYPE_str
              crossed_flank_evidence DUP None None None) as [_ Hcov].
  destruct (Hcov _ _ H1 H2 H3) as [_ Hdup].
  apply Hdup; [reflexivity|]. left. simpl. lia.
Defined.

(** C3 as the specification words it fails for DUP: the call goes on, and
    returns the two breakpoints, although neither
    [cover1.start > cover2.start] nor [cover2.end < cover1.end] holds. *)
Lemma call_by_flanking_pairs_dup_proceeds :
  interchromosomal dup_flank_evidence = false
  ∧ cover_of (first_positions (surviving_flanking dup_flank_evidence DUP ∅))
    = Return {| start := 1000; end_ := 1100 |}
  ∧ cover_of (second_positions (surviving_flanking dup_flank_evidence DUP ∅))
    = Return {| start := 2000; end_ := 2100 |}
  ∧ ¬ (2000 < 1000 ∨ 2100 < 1100)
  ∧ _call_by_flanking_pairs closed_overlaps sample_SVTYPE_str
      dup_flank_evidence DUP None None None
    = Return (new_breakpoint "1" {| start := 701; end_ := 1000 |} RIGHT STRAND_NS,
              new_breakpoint "1" {| start := 2100; end_ := 2399 |} LEFT STRAND_NS).
Proof.
  split_and!; [reflexivity | vm_compute; reflexivity | vm_compute; reflexivity
              | lia | vm_compute; reflexivity].
Qed.

Global Instance str_le_total : Total str_le.
Proof. intros a b. unfold str_le. apply String.leb_total. Qed.

Section CallEventsFacts.
Variable _call_by_contigs : Evidence.t → Result (list EventCall).
Variable _call_by_spanning_reads : Evidence.t → gset Read → Result (list EventCall).
Variable _call_by_supporting_reads :
  Evidence.t → SVTYPE → gset Read → Result (list EventCall).
Variable sorted_types : list SVTYPE → list SVTYPE.

(** The loop over the event types gathers the calls and the warnings. *)
Lemma try_event_types_loop ev consumed types : ∀ calls errors,
  let results := (λ t, _call_by_supporting_reads ev t consumed) <$> types in
  Forall handled results →
  foldl (try_event_type _call_by_supporting_reads ev consumed) (Return (calls, errors)) types
  = Return (calls ++ supporting_calls results, errors ∪ supporting_errors results).
Proof.
  induction types as [|t types IH]; intros calls errors results Hall; subst results.
  - unfold supporting_calls, supporting_errors. simpl.
    rewrite app_nil_r. f_equal. f_equal. set_solver.
  - rewrite fmap_cons in Hall |- *. apply Forall_cons in Hall as [Ht Hall].
    cbn [foldl].
    assert (Hstep :
      try_event_type _call_by_supporting_reads ev consumed (Return (calls, errors)) t
      = match _call_by_supporting_reads ev t consumed with
        | Return found => Return (calls ++ found, errors)
        | Raise (UserWarning err) => Return (calls, errors ∪ {[err]})
        | Raise e => Raise e
        end) by reflexivity.
    rewrite Hstep.
    destruct (_call_by_supporting_reads ev t consumed) as [found|[msg|msg|msg]] eqn:Hr;
      simpl in Ht; try done.
    + rewrite (IH _ _ Hall). unfold supporting_calls, supporting_errors. simpl.
      by rewrite app_assoc.
    + rewrite (IH _ _ Hall). unfold supporting_calls, supporting_errors. simpl.
      f_equal. f_equal. set_solver.
Qed.


End CallEventsFacts.



(** *** The reads that support a call *)

Lemma support_pairs_loop (l : list (Read * Read)) : ∀ (acc : gset Read) r,
  r ∈ foldl (λ acc rm, acc ∪ {[rm.1]} ∪ {[rm.2]}) acc l
  ↔ r ∈ acc ∨ ∃ rm, rm ∈ l ∧ (r = rm.1 ∨ r = rm.2).
Proof.
  induction l as [|rm l IH]; intros acc r; simpl.
  - split; [by left|]. intros [?|(? & ?%elem_of_nil & _)]; done.
  - rewrite IH. setoid_rewrite elem_of_cons. set_solver.
Qed.

(** X12. [EventCall.support()] is the set of the spanning reads, of the
    reads and the mates of the flanking pairs and of the compatible
    flanking pairs, of the split reads of both breakpoints and, when the
    call has a contig, of the input reads of the contig; so both reads of
    every flanking pair support the call. *)
Theorem support_spec (self : EventCall) (r : Read) :
  (r ∈ support self
   ↔ r ∈ spanning_reads self
     ∨ (∃ rm, rm ∈ flanking_pairs self ∪ compatible_flanking_pairs self
              ∧ (r = rm.1 ∨ r = rm.2))
     ∨ r ∈ break1_split_reads self
     ∨ r ∈ break2_split_reads self
     ∨ ∃ c, contig self = Some c ∧ r ∈ input_reads c)
  ∧ (∀ read mate, (read, mate) ∈ flanking_pairs self →
       read ∈ support self ∧ mate ∈ support self).
Proof.
  assert (Hspec : ∀ r, r ∈ support self
            ↔ r ∈ spanning_reads self
              ∨ (∃ rm, rm ∈ flanking_pairs self ∪ compatible_flanking_pairs self
                       ∧ (r = rm.1 ∨ r = rm.2))
              ∨ r ∈ break1_split_reads self
              ∨ r ∈ break2_split_reads self
              ∨ ∃ c, contig self = Some c ∧ r ∈ input_reads c).
  { intros r0. unfold support. destruct (contig self) as [c|].
    - rewrite !elem_of_union, support_pairs_loop. setoid_rewrite elem_of_elements.
      naive_solver.
    - rewrite !elem_of_union, support_pairs_loop. setoid_rewrite elem_of_elements.
      naive_solver. }
  split; [apply Hspec|].
  intros read mate Hin. split; apply Hspec; right; left; exists (read, mate);
    (split; [apply elem_of_union; by left | simpl; auto]).
Qed.

(** A flanking pair of a call by flanking reads. *)
Lemma support_spec_witness :
  left_read ∈ support
                (set_flanking_pairs (sample_call RIGHT LEFT dup_flank_evidence DUP
                                       (Some INS) FLANK)
                   false {[(left_read, right_read)]}).
Proof.
  destruct (support_spec
              (set_flanking_pairs (sample_call RIGHT LEFT dup_flank_evidence DUP
                                     (Some INS) FLANK)
                 false {[(left_read, right_read)]}) left_read) as [_ Hpairs].
  apply (Hpairs left_read right_read). simpl. apply elem_of_singleton. reflexivity.
Defined.

Section ConsumedFacts.
Variable _call_by_contigs : Evidence.t → Result (list EventCall).
Variable _call_by_spanning_reads : Evidence.t → gset Read → Result (list EventCall).
Variable _call_by_supporting_reads :
  Evidence.t → SVTYPE → gset Read → Result (list EventCall).
Variable sorted_types : list SVTYPE → list SVTYPE.

Lemma elem_of_consume (calls : list EventCall) : ∀ (consumed : gset Read) r,
  r ∈ consume consumed calls ↔ r ∈ consumed ∨ ∃ call, call ∈ calls ∧ r ∈ support call.
Proof.
  unfold consume. induction calls as [|call calls IH]; intros consumed r; simpl.
  - split; [by left|]. intros [?|(? & ?%elem_of_nil & _)]; done.
  - rewrite IH, elem_of_union. setoid_rewrite elem_of_cons. naive_solver.
Qed.

Lemma try_event_type_raised ev consumed e types :
  foldl (try_event_type _call_by_supporting_reads ev consumed) (Raise e) types = Raise e.
Proof. induction types as [|t types IH]; simpl; [done|]. exact IH. Qed.

(** X13. [call_events] catches the [UserWarning] of the split/flank
    resolver only. An exception of the contig resolver or of the spanning
    resolver, whatever its kind, and any other exception of the
    split/flank resolver (a ValueError or an AssertionError) for an event
    type, once the earlier types have returned or raised a [UserWarning],
    ends [call_events] with that exception; and the split/flank resolver
    is given the reads that support a contig call or a spanning call as
    the consumed reads. *)
Theorem call_events_propagates (source_evidence : Evidence.t) (e : exn) :
  let outcome :=
    call_events _call_by_contigs _call_by_spanning_reads _call_by_supporting_reads
      sorted_types source_evidence in
  (_call_by_contigs source_evidence = Raise e → outcome = Raise e)
  ∧ (∀ contig_calls,
       _call_by_contigs source_evidence = Return contig_calls →
       _call_by_spanning_reads source_evidence (consume ∅ contig_calls) = Raise e →
       outcome = Raise e)
  ∧ (∀ contig_calls spanning_calls earlier t later,
       _call_by_contigs source_evidence = Return contig_calls →
       _call_by_spanning_reads source_evidence (consume ∅ contig_calls)
       = Return spanning_calls →
       let consumed := consume (consume ∅ contig_calls) spanning_calls in
       sorted_types (Evidence.putative_event_types source_evidence)
       = earlier ++ t :: later →
       Forall (λ t', handled (_call_by_supporting_reads source_evidence t' consumed))
              earlier →
       _call_by_supporting_reads source_evidence t consumed = Raise e →
       (∀ msg, e ≠ UserWarning msg) →
       (∀ r, r ∈ consumed
             ↔ ∃ call, call ∈ contig_calls ++ spanning_calls ∧ r ∈ support call)
       ∧ outcome = Raise e).
Proof.
  intros outcome. subst outcome. unfold call_events. split_and!.
  - intros ->. reflexivity.
  - intros contig_calls -> Hspan. simpl. by rewrite Hspan.
  - intros contig_calls spanning_calls earlier t later Hcontig Hspan. cbv zeta.
    intros Htypes Hearlier Ht Hkind. rewrite Hcontig.
    set (consumed := consume (consume ∅ contig_calls) spanning_calls) in *.
    split.
    + intros r. subst consumed. rewrite !elem_of_consume, elem_of_empty.
      setoid_rewrite elem_of_app. naive_solver.
    + simpl. rewrite Hspan. simpl. fold consumed. rewrite Htypes, foldl_app.
      rewrite (try_event_types_loop _call_by_contigs _call_by_spanning_reads
                 _call_by_supporting_reads sorted_types source_evidence consumed earlier)
        by (by apply Forall_fmap).
      cbn [foldl]. unfold try_event_type at 2. simpl. rewrite Ht.
      destruct e as [msg|msg|msg]; [| |by destruct (Hkind msg)];
        by rewrite try_event_type_raised.
Qed.

End ConsumedFacts.

(** A ValueError of the split/flank resolver for the first event type
    ends [call_events]. *)
Lemma call_events_propagates_witness :
  call_events no_contig_calls no_spanning_calls crashing_resolver id two_type_evidence
  = Raise (ValueError "orientation must be specific").
Proof.
  destruct (call_events_propagates no_contig_calls no_spanning_calls crashing_resolver id
              two_type_evidence (ValueError "orientation must be specific"))
    as (_ & _ & Hthird).
  destruct (Hthird [] [] [] DEL [INS]) as [_ Hraise];
    [reflexivity | reflexivity | reflexivity | constructor | reflexivity | discriminate |].
  exact Hraise.
Defined.

(** *** Flanking support, primary and compatible *)

Section FlankingSupportBoth.
Variable Interval_dist : Interval → Interval → Z.
Variable Interval_union : Interval → Interval → Interval.
Variable Interval_len : Interval → Z.
Variable orientation_supports_type : Read → option SVTYPE → bool.

(** One turn of the loop: the set it may add to, and what it leaves. *)
Lemma add_flanking_pair_fields (is_compatible : bool) self rm :
  let result :=
    add_flanking_pair Interval_dist Interval_union Interval_len
      orientation_supports_type is_compatible self rm in
  let added (pairs : gset (Read * Read)) :=
    if supports Interval_dist Interval_union Interval_len orientation_supports_type
         self is_compatible rm.1 rm.2
    then pairs ∪ {[(rm.1, rm.2)]} else pairs in
  spanning_reads result = spanning_reads self
  ∧ break1_split_reads result = break1_split_reads self
  ∧ break2_split_reads result = break2_split_reads self
  ∧ contig result = contig self
  ∧ flanking_pairs result
    = (if is_compatible then flanking_pairs self else added (flanking_pairs self))
  ∧ compatible_flanking_pairs result
    = (if is_compatible then added (compatible_flanking_pairs self)
       else compatible_flanking_pairs self).
Proof.
  unfold add_flanking_pair, set_flanking_pairs.
  destruct (supports _ _ _ _ _ _ _ _), is_compatible; simpl; done.
Qed.

(** The set a pass adds to, and the set it leaves alone. *)
Lemma add_flanking_loop_any (is_compatible : bool) self0 l : ∀ self,
  same_call self self0 →
  let result :=
    foldl (add_flanking_pair Interval_dist Interval_union Interval_len
             orientation_supports_type is_compatible) self l in
  same_call result self0
  ∧ spanning_reads result = spanning_reads self
  ∧ break1_split_reads result = break1_split_reads self
  ∧ break2_split_reads result = break2_split_reads self
  ∧ contig result = contig self
  ∧ (if is_compatible then flanking_pairs result = flanking_pairs self
     else compatible_flanking_pairs result = compatible_flanking_pairs self)
  ∧ ∀ rm,
      rm ∈ (if is_compatible then compatible_flanking_pairs result
            else flanking_pairs result)
      ↔ rm ∈ (if is_compatible then compatible_flanking_pairs self
              else flanking_pairs self)
        ∨ (rm ∈ l
           ∧ supports Interval_dist Interval_union Interval_len orientation_supports_type
               self0 is_compatible rm.1 rm.2 = true).
Proof.
  induction l as [|[read mate] l IH]; intros self Hsame; cbn [foldl]; cbv zeta.
  { split_and!; try done; [by destruct is_compatible|].
    intros rm. rewrite elem_of_nil. tauto. }
  pose proof (add_flanking_pair_same Interval_dist Interval_union Interval_len
                orientation_supports_type is_compatible self (read, mate)) as Hstep.
  assert (Hsame' : same_call
            (add_flanking_pair Interval_dist Interval_union Interval_len
               orientation_supports_type is_compatible self (read, mate)) self0).
  { destruct Hstep as (? & ? & ? & ?), Hsame as (? & ? & ? & ?).
    unfold same_call. split_and!; congruence. }
  destruct (IH _ Hsame') as (IH1 & IH2 & IH3 & IH4 & IH5 & IH6 & IH7). clear IH.
  destruct (add_flanking_pair_fields is_compatible self (read, mate))
    as (F1 & F2 & F3 & F4 & F5 & F6).
  cbn [fst snd] in F5, F6.
  rewrite (supports_same Interval_dist Interval_union Interval_len
             orientation_supports_type self self0 is_compatible read mate Hsame)
    in F5, F6.
  split_and!; [done | congruence | congruence | congruence | congruence | |].
  - destruct is_compatible; congruence.
  - intros rm. rewrite IH7. clear IH7 IH6. rewrite elem_of_cons.
    destruct is_compatible.
    + rewrite F6.
      destruct (supports _ _ _ _ self0 true read mate) eqn:Hs.
      * rewrite elem_of_union, elem_of_singleton. destruct rm. naive_solver.
      * destruct rm as [r m]. split; [naive_solver|].
        intros [?|[[[= -> ->]|?] Hrm]]; [by left| |by right; split].
        simpl in Hrm. congruence.
    + rewrite F5.
      destruct (supports _ _ _ _ self0 false read mate) eqn:Hs.
      * rewrite elem_of_union, elem_of_singleton. destruct rm. naive_solver.
      * destruct rm as [r m]. split; [naive_solver|].
        intros [?|[[[= -> ->]|?] Hrm]]; [by left| |by right; split].
        simpl in Hrm. congruence.
Qed.

Lemma add_flanking_support_any (is_compatible : bool) self pairs :
  let result :=
    add_flanking_support Interval_dist Interval_union Interval_len
      orientation_supports_type self pairs is_compatible in
  same_call result self
  ∧ spanning_reads result = spanning_reads self
  ∧ break1_split_reads result = break1_split_reads self
  ∧ break2_split_reads result = break2_split_reads self
  ∧ contig result = contig self
  ∧ (if is_compatible then flanking_pairs result = flanking_pairs self
     else compatible_flanking_pairs result = compatible_flanking_pairs self)
  ∧ ∀ rm,
      rm ∈ (if is_compatible then compatible_flanking_pairs result
            else flanking_pairs result)
      ↔ rm ∈ (if is_compatible then compatible_flanking_pairs self
              else flanking_pairs self)
        ∨ (rm ∈ pairs
           ∧ supports Interval_dist Interval_union Interval_len orientation_supports_type
               self is_compatible rm.1 rm.2 = true).
Proof.
  intros result. subst result. unfold add_flanking_support.
  destruct (add_flanking_loop_any is_compatible self (elements pairs) self)
    as (? & ? & ? & ? & ? & ? & Hin); [done|].
  split_and!; try done. intros rm. rewrite Hin, elem_of_elements. done.
Qed.

(** X14. A pair that [add_flanking_support] with [is_compatible] true
    adds goes to [compatible_flanking_pairs], and [flanking_pairs] and
    the other read sets stay as they were. The pair is one of the
    candidates; its fragment size is tested by the event type of the call
    (not by the compatible type), its chromosomes as for a primary pair,
    the orientation of its read by the compatible type, and its positions
    with the two orientations exchanged: a RIGHT breakpoint is tested as a
    LEFT one is for a primary pair, and any other as a RIGHT one. *)
Theorem add_flanking_support_compatible (self : EventCall) (pairs : gset (Read * Read))
    (read mate : Read) :
  let result :=
    add_flanking_support Interval_dist Interval_union Interval_len
      orientation_supports_type self pairs true in
  (read, mate) ∈ compatible_flanking_pairs result →
  (read, mate) ∉ compatible_flanking_pairs self →
  let fragment := Evidence.compute_fragment_size (source_evidence self) read mate in
  let b1 := break1 self in
  let b2 := break2 self in
  (read, mate) ∈ pairs
  ∧ flanking_pairs result = flanking_pairs self
  ∧ spanning_reads result = spanning_reads self
  ∧ break1_split_reads result = break1_split_reads self
  ∧ break2_split_reads result = break2_split_reads self
  ∧ (event_type self = DEL →
     min_frag Interval_dist self ≤ end_ fragment
     ∧ start fragment ≤ max_frag Interval_union Interval_len self)
  ∧ (event_type self = INS →
     start fragment < Evidence.min_expected_fragment_size (source_evidence self))
  ∧ interchromosomal self = bool_decide (reference_id read ≠ reference_id mate)
  ∧ orientation_supports_type read (compatible_type self) = true
  ∧ (orient b1 = RIGHT → orient b2 = RIGHT →
       reference_start read + 1 ≤ end_ b1 ∧ reference_start mate + 1 ≤ end_ b2
       ∧ (start b1 < reference_end mate ∨ interchromosomal self = true))
  ∧ (orient b1 = RIGHT → orient b2 ≠ RIGHT →
       reference_start read + 1 ≤ end_ b1 ∧ start b2 ≤ reference_end mate)
  ∧ (orient b1 ≠ RIGHT → orient b2 = RIGHT →
       start b1 ≤ reference_end read ∧ reference_start mate + 1 ≤ end_ b2)
  ∧ (orient b1 ≠ RIGHT → orient b2 ≠ RIGHT →
       start b1 ≤ reference_end read ∧ start b2 ≤ reference_end mate
       ∧ (reference_end read < end_ b2 ∨ interchromosomal self = true)).
Proof.
  intros result Hin Hnew fragment b1 b2. subst result fragment b1 b2.
  destruct (add_flanking_support_any true self pairs)
    as (_ & Hspan & Hs1 & Hs2 & _ & Hflank & Hmem).
  apply Hmem in Hin as [?|[Hpairs Hs]]; [done|]. cbn [fst snd] in Hs.
  unfold supports in Hs.
  apply andb_prop in Hs as [Hs Hpos]. apply andb_prop in Hs as [Hs Hor].
  apply andb_prop in Hs as [Hfrag Hchr].
  unfold fragment_size_ok in Hfrag.
  unfold chromosomes_ok in Hchr. unfold orientation_ok in Hor. simpl in Hor.
  unfold positions_ok in Hpos. simpl in Hpos.
  apply negb_true_iff, bool_decide_eq_false in Hchr.
  assert (Hb : ∀ x y : bool, (x || y = true) → x = true ∨ y = true)
    by (intros [] []; auto).
  split_and!; try done.
  - intros Ht. rewrite Ht in Hfrag.
    apply negb_true_iff, orb_false_iff in Hfrag as [? ?]. lia.
  - intros Ht. rewrite Ht in Hfrag. apply negb_true_iff in Hfrag. lia.
  - destruct (interchromosomal self), (bool_decide (reference_id read ≠ reference_id mate));
      try done; exfalso; apply Hchr; auto.
  - intros H1 H2. rewrite !bool_decide_eq_true_2 in Hpos by done.
    apply andb_prop in Hpos as [Hp Hq]. apply andb_prop in Hp as [? ?].
    apply Hb in Hq as [?|?]; (split_and!; [lia | lia | first [left; lia | by right]]).
  - intros H1 H2. rewrite bool_decide_eq_true_2, bool_decide_eq_false_2 in Hpos by done.
    apply andb_prop in Hpos as [? ?]. lia.
  - intros H1 H2. rewrite bool_decide_eq_false_2, bool_decide_eq_true_2 in Hpos by done.
    apply andb_prop in Hpos as [? ?]. lia.
  - intros H1 H2. rewrite !bool_decide_eq_false_2 in Hpos by done.
    apply andb_prop in Hpos as [Hp Hq]. apply andb_prop in Hp as [? ?].
    apply Hb in Hq as [?|?]; (split_and!; [lia | lia | first [left; lia | by right]]).
Qed.

(** X15. The passes of [add_flanking_support] compose: a pass over one
    set and then over another gives the pairs of one pass over their
    union, a repeated pass adds nothing, a pass gives what there was and
    nothing but candidates; and the primary pass and the compatible pass
    do not touch each other's set, whatever their order. *)
Theorem add_flanking_support_compose (self : EventCall)
    (pairs1 pairs2 : gset (Read * Read)) (is_compatible : bool) :
  let target (c : EventCall) :=
    if is_compatible then compatible_flanking_pairs c else flanking_pairs c in
  let other (c : EventCall) :=
    if is_compatible then flanking_pairs c else compatible_flanking_pairs c in
  let pass c pairs c' :=
    add_flanking_support Interval_dist Interval_union Interval_len
      orientation_supports_type c pairs c' in
  target (pass (pass self pairs1 is_compatible) pairs2 is_compatible)
  = target (pass self (pairs1 ∪ pairs2) is_compatible)
  ∧ target (pass (pass self pairs1 is_compatible) pairs1 is_compatible)
    = target (pass self pairs1 is_compatible)
  ∧ target self ⊆ target (pass self pairs1 is_compatible)
  ∧ target (pass self pairs1 is_compatible) ⊆ target self ∪ pairs1
  ∧ other (pass self pairs1 is_compatible) = other self
  ∧ target (pass (pass self pairs2 (negb is_compatible)) pairs1 is_compatible)
    = target (pass self pairs1 is_compatible).
Proof.
  intros target other pass. subst target other pass. cbv beta.
  assert (Hsup : ∀ c p b rm,
            supports Interval_dist Interval_union Interval_len orientation_supports_type
              (add_flanking_support Interval_dist Interval_union Interval_len
                 orientation_supports_type c p b) is_compatible rm.1 rm.2
            = supports Interval_dist Interval_union Interval_len
                orientation_supports_type c is_compatible rm.1 rm.2).
  { intros c p b rm. apply supports_same. apply (add_flanking_support_any b c p). }
  destruct is_compatible; simpl.
  - pose proof (λ c p, proj2 (proj2 (proj2 (proj2 (proj2 (proj2
        (add_flanking_support_any true c p))))))) as Hmem. simpl in Hmem.
    pose proof (λ c p, proj1 (proj2 (proj2 (proj2 (proj2 (proj2
        (add_flanking_support_any true c p))))))) as Hkeep. simpl in Hkeep.
    pose proof (λ c p, proj1 (proj2 (proj2 (proj2 (proj2 (proj2
        (add_flanking_support_any false c p))))))) as Hkeep'. simpl in Hkeep'.
    split_and!.
    + apply set_eq. intros rm. rewrite !Hmem, Hsup, elem_of_union. naive_solver.
    + apply set_eq. intros rm. rewrite !Hmem, Hsup. naive_solver.
    + intros rm Hrm. apply Hmem. by left.
    + intros rm [?|[? _]]%Hmem; set_solver.
    + apply Hkeep.
    + apply set_eq. intros rm. rewrite !Hmem, Hsup, Hkeep'. done.
  - pose proof (λ c p, proj2 (proj2 (proj2 (proj2 (proj2 (proj2
        (add_flanking_support_any false c p))))))) as Hmem. simpl in Hmem.
    pose proof (λ c p, proj1 (proj2 (proj2 (proj2 (proj2 (proj2
        (add_flanking_support_any false c p))))))) as Hkeep. simpl in Hkeep.
    pose proof (λ c p, proj1 (proj2 (proj2 (proj2 (proj2 (proj2
        (add_flanking_support_any true c p))))))) as Hkeep'. simpl in Hkeep'.
    split_and!.
    + apply set_eq. intros rm. rewrite !Hmem, Hsup, elem_of_union. naive_solver.
    + apply set_eq. intros rm. rewrite !Hmem, Hsup. naive_solver.
    + intros rm Hrm. apply Hmem. by left.
    + intros rm [?|[? _]]%Hmem; set_solver.
    + apply Hkeep.
    + apply set_eq. intros rm. rewrite !Hmem, Hsup, Hkeep'. done.
Qed.

End FlankingSupportBoth.

(** A pair flanking a duplication, counted for the compatible insertion. *)
Lemma add_flanking_support_compatible_witness :
  (left_read, right_read)
    ∈ compatible_flanking_pairs
        (add_flanking_support gap_dist closed_union closed_len any_orientation
           (sample_call RIGHT LEFT dup_flank_evidence DUP (Some INS) FLANK)
           {[(left_read, right_read)]} true)
  ∧ reference_start left_read + 1 ≤ 1500
  ∧ 2000 ≤ reference_end right_read.
Proof.
  assert (Hin : (left_read, right_read)
                  ∈ compatible_flanking_pairs
                      (add_flanking_support gap_dist closed_union closed_len any_orientation
                         (sample_call RIGHT LEFT dup_flank_evidence DUP (Some INS) FLANK)
                         {[(left_read, right_read)]} true)) by by_compute.
  assert (Hnew : (left_read, right_read)
                   ∉ compatible_flanking_pairs
                       (sample_call RIGHT LEFT dup_flank_evidence DUP (Some INS) FLANK))
    by by_compute.
  split; [exact Hin|].
  destruct (add_flanking_support_compatible gap_dist closed_union closed_len
              any_orientation _ _ _ _ Hin Hnew)
    as (_ & _ & _ & _ & _ & _ & _ & _ & _ & _ & Hquadrant & _).
  apply Hquadrant; [reflexivity | discriminate].
Defined.

(** *** The window of a breakpoint *)

(** X16. [_call_interval_by_flanking_coverage] fails with a ValueError
    when the maximum fragment size or the read length is not positive
    (whatever the orientation), with an AssertionError when the coverage
    is longer than the fragments allow, and with a ValueError when the
    orientation is not specific. When it returns, the window of a LEFT
    breakpoint starts at the end of the coverage, the window of a RIGHT
    breakpoint ends at the start of the coverage and starts at 1 or
    after; and when [traverse] moves away from its start in the direction
    asked (and the coverage starts at 1 or after), the window is not
    empty. *)
Theorem call_interval_by_flanking_coverage_spec (coverage : Interval)
    (orientation : ORIENT) (max_expected_fragment_size read_length : Z)
    (distance : Z → Z → Interval) (traverse : Z → Z → ORIENT → Interval) :
  let result :=
    _call_interval_by_flanking_coverage coverage orientation
      max_expected_fragment_size read_length distance traverse in
  let coverage_d := start (distance (start coverage) (end_ coverage)) + 1 in
  let max_interval := max_expected_fragment_size - read_length in
  (max_expected_fragment_size ≤ 0 ∨ read_length ≤ 0 →
   ∃ msg, result = Raise (ValueError msg))
  ∧ (0 < max_expected_fragment_size → 0 < read_length → max_interval < coverage_d →
     ∃ msg, result = Raise (AssertionError msg))
  ∧ (0 < max_expected_fragment_size → 0 < read_length → coverage_d ≤ max_interval →
     orientation = ORIENT_NS → ∃ msg, result = Raise (ValueError msg))
  ∧ (∀ window, result = Return window →
       0 < max_expected_fragment_size ∧ 0 < read_length ∧ coverage_d ≤ max_interval
       ∧ (orientation = LEFT →
          start window = end_ coverage
          ∧ end_ window = end_ (traverse (end_ coverage) (max_interval - coverage_d) RIGHT)
          ∧ ((∀ p d, 0 ≤ d → p ≤ end_ (traverse p d RIGHT)) →
             start window ≤ end_ window))
       ∧ (orientation = RIGHT →
          end_ window = start coverage
          ∧ start window
            = Z.max 1 (start (traverse (start coverage) (max_interval - coverage_d) LEFT))
          ∧ 1 ≤ start window
          ∧ ((∀ p d, 0 ≤ d → start (traverse p d LEFT) ≤ p) → 1 ≤ start coverage →
             start window ≤ end_ window))
       ∧ orientation ≠ ORIENT_NS).
Proof.
  intros result coverage_d max_interval. subst result.
  unfold _call_interval_by_flanking_coverage. fold coverage_d max_interval.
  destruct (Z.leb_spec max_expected_fragment_size 0) as [Hm|Hm];
    [simpl; split_and!; eauto; intros; try lia; done|].
  destruct (Z.leb_spec read_length 0) as [Hr|Hr];
    [simpl; split_and!; eauto; intros; try lia; done|].
  simpl.
  destruct (Z.gtb_spec coverage_d max_interval) as [Hc|Hc];
    [split_and!; eauto; intros; try lia; done|].
  destruct orientation; (split_and!; [intros [?|?]; lia | intros; lia | | ]).
  - done.
  - intros window [= <-]. simpl. split_and!; try done; try lia.
    intros _. split_and!; [done|done|]. intros Htraverse. apply Htraverse. lia.
  - done.
  - intros window [= <-]. simpl. split_and!; try done; try lia.
    intros _. split_and!; [done|done|lia|]. intros Htraverse Hcov.
    specialize (Htraverse (start coverage) (max_interval - coverage_d)). lia.
  - eauto.
  - done.
Qed.

(** The window to the right of a coverage from 1000 to 1100. *)
Lemma call_interval_by_flanking_coverage_spec_witness :
  _call_interval_by_flanking_coverage {| start := 1000; end_ := 1100 |} LEFT 500 100
    (λ a b, point (Z.abs (b - a)))
    (λ pos dist o, match o with LEFT => point (pos - dist) | _ => point (pos + dist) end)
  = Return {| start := 1100; end_ := 1399 |}
  ∧ (∃ msg, _call_interval_by_flanking_coverage {| start := 1000; end_ := 1100 |} LEFT 0 100
              (λ a b, point (Z.abs (b - a)))
              (λ pos dist o,
                 match o with LEFT => point (pos - dist) | _ => point (pos + dist) end)
            = Raise (ValueError msg)).
Proof.
  split; [reflexivity|].
  destruct (call_interval_by_flanking_coverage_spec {| start := 1000; end_ := 1100 |} LEFT
              0 100 (λ a b, point (Z.abs (b - a)))
              (λ pos dist o,
                 match o with LEFT => point (pos - dist) | _ => point (pos + dist) end))
    as (Hsizes & _).
  apply Hsizes. left. lia.
Defined.

(** *** Calls by flanking pairs *)

Section FlankingPairsMore.
Variable Interval_overlaps : Interval → Interval → bool.
Variable SVTYPE_str : SVTYPE → string.

(** The strands given to the called breakpoints. *)
Lemma call_by_flanking_pairs_Return evidence event_type first second consumed r :
  _call_by_flanking_pairs Interval_overlaps SVTYPE_str evidence event_type
    first second consumed = Return r →
  let st := surviving_flanking evidence event_type (default ∅ consumed) in
  Evidence.min_flanking_pairs_resolution evidence ≤ flanking_count st
  ∧ ∃ cover1 cover2,
      cover_of (first_positions st) = Return cover1
      ∧ cover_of (second_positions st) = Return cover2
      ∧ check_covers Interval_overlaps evidence event_type cover1 cover2 = Return ()
      ∧ call_windows evidence event_type first second cover1 cover2
          (if stranded evidence
           then Evidence.decide_sequenced_strand evidence (cover1_reads st)
           else STRAND_NS)
          (if stranded evidence
           then Evidence.decide_sequenced_strand evidence (cover2_reads st)
           else STRAND_NS)
        = Return r.
Proof.
  intros Hr st. unfold _call_by_flanking_pairs in Hr. cbv zeta in Hr. fold st in Hr.
  destruct (Z.ltb_spec (flanking_count st) (Evidence.min_flanking_pairs_resolution evidence))
    as [?|Hcount]; [done|].
  split; [done|].
  destruct (cover_of (first_positions st)) as [cover1|] eqn:H1; [|done].
  destruct (cover_of (second_positions st)) as [cover2|] eqn:H2; [|done].
  simpl in Hr.
  destruct (check_covers _ _ _ cover1 cover2) as [[]|] eqn:Hc; [|done].
  simpl in Hr. by exists cover1, cover2.
Qed.

Lemma window_Return coverage o m r d tr w :
  _call_interval_by_flanking_coverage coverage o m r d tr = Return w → o ≠ ORIENT_NS.
Proof.
  unfold _call_interval_by_flanking_coverage.
  destruct (_ || _); [done|]. destruct (_ >? _); [done|]. by destruct o.
Qed.

(** X17. [_call_by_flanking_pairs] never returns when both breakpoints
    are given. When it returns, a breakpoint that
    was given comes back as it was, and a breakpoint that was called has
    the chromosome and the orientation of the breakpoint of the evidence,
    an orientation that is specific, and no strand when the evidence is
    not stranded; and the pairs that passed the filters were at least
    [min_flanking_pairs_resolution], and one at least. *)
Theorem call_by_flanking_pairs_returns (evidence : Evidence.t) (event_type : SVTYPE)
    (first second : option Breakpoint) (consumed : option (gset Read))
    (b1 b2 : Breakpoint) :
  _call_by_flanking_pairs Interval_overlaps SVTYPE_str evidence event_type
    first second consumed = Return (b1, b2) →
  let kept := surviving_pairs evidence event_type (default ∅ consumed) in
  (first = None ∨ second = None)
  ∧ (∀ given, first = Some given → b1 = given)
  ∧ (∀ given, second = Some given → b2 = given)
  ∧ (first = None →
     chr b1 = chr (break1 evidence) ∧ orient b1 = orient (break1 evidence)
     ∧ orient b1 ≠ ORIENT_NS ∧ (stranded evidence = false → strand b1 = STRAND_NS))
  ∧ (second = None →
     chr b2 = chr (break2 evidence) ∧ orient b2 = orient (break2 evidence)
     ∧ orient b2 ≠ ORIENT_NS ∧ (stranded evidence = false → strand b2 = STRAND_NS))
  ∧ Evidence.min_flanking_pairs_resolution evidence ≤ Z.of_nat (length kept)
  ∧ kept ≠ [].
Proof.
  intros Hr kept.
  destruct (surviving_flanking_spec evidence event_type (default ∅ consumed))
    as (Hcount & Hfirst & _). fold kept in Hcount, Hfirst.
  apply call_by_flanking_pairs_Return in Hr
    as (Hmin & cover1 & cover2 & H1 & H2 & _ & Hw).
  assert (Hkept : kept ≠ []).
  { intros Hnil. rewrite Hfirst, Hnil in H1. done. }
  rewrite Hcount in Hmin.
  unfold call_windows in Hw.
  destruct first as [f|], second as [s|]; [done| | |].
  - destruct (_ || _); [done|].
    destruct (_call_interval_by_flanking_coverage cover2 _ _ _ _ _) as [w|] eqn:Hwin;
      [|done].
    apply window_Return in Hwin. simpl in Hw.
    destruct (negb (interchromosomal evidence)); simpl in Hw.
    + destruct (_ || _); [done|]. simpl in Hw. injection Hw as <- <-.
      split_and!; try done; [by right|by intros ? [= ->]|].
      intros _. simpl. split_and!; try done. by intros ->.
    + injection Hw as <- <-.
      split_and!; try done; [by right|by intros ? [= ->]|].
      intros _. simpl. split_and!; try done. by intros ->.
  - destruct (_ || _); [done|].
    destruct (_call_interval_by_flanking_coverage cover1 _ _ _ _ _) as [w|] eqn:Hwin;
      [|done].
    apply window_Return in Hwin. simpl in Hw.
    destruct (negb (interchromosomal evidence)); simpl in Hw.
    + destruct (_ || _); [done|]. simpl in Hw. injection Hw as <- <-.
      split_and!; try done; [by left|by intros ? [= ->]|].
      intros _. simpl. split_and!; try done. by intros ->.
    + injection Hw as <- <-.
      split_and!; try done; [by left|by intros ? [= ->]|].
      intros _. simpl. split_and!; try done. by intros ->.
  - destruct (_call_interval_by_flanking_coverage cover1 _ _ _ _ _) as [w1|] eqn:Hwin1;
      [|done].
    destruct (_call_interval_by_flanking_coverage cover2 _ _ _ _ _) as [w2|] eqn:Hwin2;
      [|done].
    apply window_Return in Hwin1. apply window_Return in Hwin2. simpl in Hw.
    destruct (negb (interchromosomal evidence)); simpl in Hw.
    + destruct (_ >? _); [done|]. simpl in Hw. injection Hw as <- <-.
      split_and!; try done; [by left| |].
      * intros _. simpl. split_and!; try done. by intros ->.
      * intros _. simpl. split_and!; try done. by intros ->.
    + injection Hw as <- <-.
      split_and!; try done; [by left| |].
      * intros _. simpl. split_and!; try done. by intros ->.
      * intros _. simpl. split_and!; try done. by intros ->.
Qed.

(** X18. When [_call_by_flanking_pairs] calls both breakpoints of an
    intra-chromosomal event, the first window ends before the second
    cover starts and the second window starts after the first cover ends
    (at it, at the earliest and the latest, for a duplication); the
    second window neither starts nor ends before the first, and the first
    does not start after the second ends. The covers it accepted do not
    overlap, or for a duplication the second neither starts nor ends
    before the first. *)
Theorem call_by_flanking_pairs_windows (evidence : Evidence.t) (event_type : SVTYPE)
    (consumed : option (gset Read)) (b1 b2 : Breakpoint) (cover1 cover2 : Interval) :
  let st := surviving_flanking evidence event_type (default ∅ consumed) in
  _call_by_flanking_pairs Interval_overlaps SVTYPE_str evidence event_type
    None None consumed = Return (b1, b2) →
  interchromosomal evidence = false →
  cover_of (first_positions st) = Return cover1 →
  cover_of (second_positions st) = Return cover2 →
  end_ b1 ≤ start cover2 - dup_offset event_type
  ∧ end_ cover1 + dup_offset event_type ≤ start b2
  ∧ start b1 ≤ start b2
  ∧ end_ b1 ≤ end_ b2
  ∧ start b1 ≤ end_ b2
  ∧ (event_type ≠ DUP → Interval_overlaps cover1 cover2 = false)
  ∧ (event_type = DUP →
     start cover1 ≤ start cover2 ∧ end_ cover1 ≤ end_ cover2).
Proof.
  intros st Hr Hintra H1 H2.
  apply call_by_flanking_pairs_Return in Hr
    as (_ & c1 & c2 & H1' & H2' & Hcheck & Hw).
  fold st in H1', H2'. rewrite H1 in H1'. rewrite H2 in H2'.
  injection H1' as <-. injection H2' as <-.
  unfold check_covers in Hcheck. rewrite Hintra in Hcheck. simpl in Hcheck.
  unfold call_windows in Hw. rewrite Hintra in Hw. simpl in Hw.
  destruct (_call_interval_by_flanking_coverage cover1 _ _ _ _ _) as [w1|]; [|done].
  destruct (_call_interval_by_flanking_coverage cover2 _ _ _ _ _) as [w2|]; [|done].
  simpl in Hw.
  destruct (Z.gtb_spec (start w1) (end_ w2)) as [?|Hle]; [done|].
  simpl in Hw. injection Hw as <- <-. simpl.
  split_and!; try lia.
  - intros Ht. rewrite (bool_decide_eq_false_2 _ Ht) in Hcheck. simpl in Hcheck.
    destruct (Interval_overlaps cover1 cover2); [simpl in Hcheck; done | done].
  - intros Ht. rewrite (bool_decide_eq_true_2 _ Ht) in Hcheck.
    rewrite andb_false_r in Hcheck. simpl in Hcheck.
    destruct (Z.gtb_spec (start cover1) (start cover2)); [done|].
    destruct (Z.ltb_spec (end_ cover2) (end_ cover1)); [done|]. lia.
Qed.

(** X19. When no flanking pair passes the filters,
    [_call_by_flanking_pairs] fails with the AssertionError of
    insufficient coverage if [min_flanking_pairs_resolution] is positive;
    if it is not, the call goes on to the minimum of an empty list and
    fails with a ValueError, which the caller's
    [except (AssertionError, UserWarning)] does not catch. *)
Theorem call_by_flanking_pairs_no_pairs (evidence : Evidence.t) (event_type : SVTYPE)
    (first second : option Breakpoint) (consumed : option (gset Read)) :
  surviving_pairs evidence event_type (default ∅ consumed) = [] →
  let result :=
    _call_by_flanking_pairs Interval_overlaps SVTYPE_str evidence event_type
      first second consumed in
  (0 < Evidence.min_flanking_pairs_resolution evidence →
   ∃ msg, result = Raise (AssertionError msg))
  ∧ (Evidence.min_flanking_pairs_resolution evidence ≤ 0 →
     ∃ msg, result = Raise (ValueError msg)).
Proof.
  intros Hnone result. subst result. unfold _call_by_flanking_pairs.
  destruct (surviving_flanking_spec evidence event_type (default ∅ consumed))
    as (Hcount & Hfirst & _).
  rewrite Hnone in Hcount, Hfirst. change (Z.of_nat (length [])) with 0 in Hcount.
  cbv zeta.
  rewrite Hcount, Hfirst. split.
  - intros Hpos. destruct (Z.ltb_spec 0 (Evidence.min_flanking_pairs_resolution evidence));
      [simpl; eauto | lia].
  - intros Hle. destruct (Z.ltb_spec 0 (Evidence.min_flanking_pairs_resolution evidence));
      [lia|]. simpl. eauto.
Qed.

End FlankingPairsMore.

(** The duplication called from one flanking pair. *)
Lemma call_by_flanking_pairs_returns_witness :
  _call_by_flanking_pairs closed_overlaps sample_SVTYPE_str dup_flank_evidence DUP
    None None None
  = Return (new_breakpoint "1" {| start := 701; end_ := 1000 |} RIGHT STRAND_NS,
            new_breakpoint "1" {| start := 2100; end_ := 2399 |} LEFT STRAND_NS)
  ∧ surviving_pairs dup_flank_evidence DUP ∅ ≠ [].
Proof.
  assert (Hr : _call_by_flanking_pairs closed_overlaps sample_SVTYPE_str
                 dup_flank_evidence DUP None None None
               = Return (new_breakpoint "1" {| start := 701; end_ := 1000 |} RIGHT STRAND_NS,
                         new_breakpoint "1" {| start := 2100; end_ := 2399 |} LEFT
                           STRAND_NS))
    by (vm_compute; reflexivity).
  split; [exact Hr|].
  destruct (call_by_flanking_pairs_returns closed_overlaps sample_SVTYPE_str
              dup_flank_evidence DUP None None None _ _ Hr)
    as (_ & _ & _ & _ & _ & _ & Hkept).
  exact Hkept.
Defined.

Lemma call_by_flanking_pairs_windows_witness :
  1000 ≤ 2000 - dup_offset DUP ∧ 1100 + dup_offset DUP ≤ 2100.
Proof.
  assert (Hr : _call_by_flanking_pairs closed_overlaps sample_SVTYPE_str
                 dup_flank_evidence DUP None None None
               = Return (new_breakpoint "1" {| start := 701; end_ := 1000 |} RIGHT STRAND_NS,
                         new_breakpoint "1" {| start := 2100; end_ := 2399 |} LEFT
                           STRAND_NS))
    by (vm_compute; reflexivity).
  destruct (call_by_flanking_pairs_windows closed_overlaps sample_SVTYPE_str
              dup_flank_evidence DUP None _ _
              {| start := 1000; end_ := 1100 |} {| start := 2000; end_ := 2100 |} Hr)
    as (Hend & Hstart & _);
    [reflexivity | vm_compute; reflexivity | vm_compute; reflexivity |].
  split; [exact Hend | exact Hstart].
Defined.

(** Evidence without flanking pairs that asks for one pair at least. *)
Lemma call_by_flanking_pairs_no_pairs_witness :
  ∃ msg, _call_by_flanking_pairs closed_overlaps sample_SVTYPE_str dup_evidence DUP
           None None None = Raise (AssertionError msg).
Proof.
  destruct (call_by_flanking_pairs_no_pairs closed_overlaps sample_SVTYPE_str
              dup_evidence DUP None None None) as [Hpos _];
    [vm_compute; reflexivity|].
  apply Hpos. vm_compute. reflexivity.
Defined.

(** *** Repeat regions *)

Lemma substring_none (s : string) : ∀ i, String.substring i 0 s = EmptyString.
Proof. induction s as [|c s IH]; intros [|i]; simpl; auto. Qed.

Lemma slice_empty (s : string) (a : Z) : Py.slice s a a = EmptyString.
Proof. unfold Py.slice. rewrite Nat.sub_diag. apply substring_none. Qed.

Lemma slice_backwards (s : string) (a b : Z) : 0 ≤ b ≤ a → Py.slice s a b = EmptyString.
Proof.
  intros Hab. unfold Py.slice, Py.slice_bound.
  destruct (Z.ltb_spec a 0); [lia|]. destruct (Z.ltb_spec b 0); [lia|].
  replace (Z.to_nat (b `min` Z.of_nat (String.length s))
           - Z.to_nat (a `min` Z.of_nat (String.length s)))%nat with 0%nat by lia.
  apply substring_none.
Qed.

Section RepeatFacts.
Variable Interval_len : Interval → Z.
Variable reference_genome : string → option string.
Variable upper : string → string.

(** The loop on a sequence that is not empty: it ends, and counts the
    copies that lie one before the other up to [rightmost]. *)
Lemma repeat_loop_spec chromosome sequence expected :
  reference_genome chromosome = Some sequence →
  let n := Z.of_nat (String.length expected) in
  0 < n →
  ∀ fuel rightmost count,
    (Z.to_nat rightmost < fuel)%nat →
    ∃ k, 0 ≤ k
         ∧ repeat_loop reference_genome upper fuel chromosome expected rightmost count
           = Some (RepeatCount (count + k))
         ∧ (0 < k → k * n < rightmost)
         ∧ (∀ i, 0 ≤ i < k →
              upper (Py.slice sequence (rightmost - (i + 1) * n) (rightmost - i * n))
              = expected)
         ∧ (rightmost - (k + 1) * n ≤ 0
            ∨ upper (Py.slice sequence (rightmost - (k + 1) * n) (rightmost - k * n))
              ≠ expected).
Proof.
  intros Hseq n Hn. induction fuel as [|fuel IH]; intros rightmost count Hfuel; [lia|].
  cbn [repeat_loop]. fold n.
  destruct (Z.gtb_spec (rightmost - n) 0) as [Hgt|Hle].
  - rewrite Hseq. case_bool_decide as Hblock.
    + exists 0. split_and!; [lia | f_equal; f_equal; lia | lia | intros; lia |].
      right. replace (rightmost - (0 + 1) * n) with (rightmost - n) by lia.
      replace (rightmost - 0 * n) with rightmost by lia. done.
    + destruct (IH (rightmost - n) (count + 1)) as (k & Hk & Hloop & Hbound & Hblocks & Hend);
        [lia|].
      exists (k + 1). split_and!; [lia | rewrite Hloop; f_equal; f_equal; lia | nia | |].
      * intros i Hi. destruct (decide (i = 0)) as [->|Hne].
        -- replace (rightmost - (0 + 1) * n) with (rightmost - n) by lia.
           replace (rightmost - 0 * n) with rightmost by lia. done.
        -- specialize (Hblocks (i - 1)).
           replace (rightmost - n - (i - 1 + 1) * n) with (rightmost - (i + 1) * n)
             in Hblocks by lia.
           replace (rightmost - n - (i - 1) * n) with (rightmost - i * n) in Hblocks by lia.
           apply Hblocks. lia.
      * replace (rightmost - n - (k + 1) * n) with (rightmost - (k + 1 + 1) * n)
          in Hend by lia.
        replace (rightmost - n - k * n) with (rightmost - (k + 1) * n) in Hend by lia.
        done.
  - exists 0. split_and!; [lia | f_equal; f_equal; lia | lia | intros; lia |].
    left. lia.
Qed.

(** On the empty sequence the loop does not end. *)
Lemma repeat_loop_empty chromosome sequence :
  reference_genome chromosome = Some sequence → upper EmptyString = EmptyString →
  ∀ fuel rightmost count,
    0 < rightmost →
    repeat_loop reference_genome upper fuel chromosome EmptyString rightmost count = None.
Proof.
  intros Hseq Hupper. induction fuel as [|fuel IH]; intros rightmost count Hpos; [done|].
  cbn [repeat_loop]. simpl String.length.
  destruct (Z.gtb_spec (rightmost - Z.of_nat 0) 0) as [_|?]; [|lia].
  rewrite Hseq. replace (rightmost - Z.of_nat 0) with rightmost by lia.
  rewrite slice_empty, Hupper, bool_decide_eq_false_2 by (by intros ?).
  by apply IH.
Qed.

(** The checks before the loop. *)
Lemma characterize_repeat_region_checked (fuel : nat) (event : EventCall) :
  Interval_len (break1 event) + Interval_len (break2 event) ≤ 2 →
  (event_type event = INS ∧ truthy (untemplated_seq event) = true
   ∨ event_type event ∈ [DEL; DUP] ∧ truthy (untemplated_seq event) = false) →
  characterize_repeat_region Interval_len reference_genome upper fuel event
  = match repeat_target reference_genome event with
    | inl e => Some (RepeatError e)
    | inr (expected, rightmost) =>
        repeat_loop reference_genome upper fuel (chr (break1 event)) expected rightmost 0
    end.
Proof.
  intros Hlen Hkind. unfold characterize_repeat_region.
  destruct (Z.gtb_spec (Interval_len (break1 event) + Interval_len (break2 event)) 2);
    [lia|].
  destruct Hkind as [[-> ->]|[Ht ->]]; [done|].
  rewrite (bool_decide_eq_true_2 _ Ht). simpl.
  by rewrite orb_true_r.
Qed.

(** X20. [characterize_repeat_region] on a specific call of a kind it
    accepts, whose sequence to look for is not empty, ends with a count
    [k]: the [k] stretches of the reference that lie one before the other
    and end at the starting position all read, in upper case, as the
    sequence looked for, and the stretch before them does not, or would
    start at the first base of the chromosome or before it (a copy at
    the very start of the chromosome is never counted). A sequence that
    is not its own upper case is never found: the count is 0. *)
Theorem characterize_repeat_region_counts (event : EventCall) (sequence expected : string)
    (rightmost : Z) (fuel : nat) :
  Interval_len (break1 event) + Interval_len (break2 event) ≤ 2 →
  (event_type event = INS ∧ truthy (untemplated_seq event) = true
   ∨ event_type event ∈ [DEL; DUP] ∧ truthy (untemplated_seq event) = false) →
  reference_genome (chr (break1 event)) = Some sequence →
  repeat_target reference_genome event = inr (expected, rightmost) →
  expected ≠ EmptyString →
  (Z.to_nat rightmost < fuel)%nat →
  let n := Z.of_nat (String.length expected) in
  ∃ k, characterize_repeat_region Interval_len reference_genome upper fuel event
       = Some (RepeatCount k)
       ∧ 0 ≤ k
       ∧ (0 < k → k * n < rightmost)
       ∧ (∀ i, 0 ≤ i < k →
            upper (Py.slice sequence (rightmost - (i + 1) * n) (rightmost - i * n))
            = expected)
       ∧ (rightmost - (k + 1) * n ≤ 0
          ∨ upper (Py.slice sequence (rightmost - (k + 1) * n) (rightmost - k * n))
            ≠ expected)
       ∧ ((∀ s, upper (upper s) = upper s) → upper expected ≠ expected → k = 0).
Proof.
  intros Hlen Hkind Hseq Htarget Hne Hfuel n.
  rewrite characterize_repeat_region_checked, Htarget by done.
  assert (Hn : 0 < n) by (subst n; destruct expected; [done | simpl; lia]).
  destruct (repeat_loop_spec (chr (break1 event)) sequence expected Hseq Hn
              fuel rightmost 0 Hfuel) as (k & Hk & Hloop & Hbound & Hblocks & Hend).
  exists k. rewrite Hloop. split_and!; try done.
  intros Hidem Hlower. destruct (decide (k = 0)) as [?|Hpos]; [done|].
  destruct Hlower. rewrite <- (Hblocks 0) by lia. apply Hidem.
Qed.

(** X21. [characterize_repeat_region] raises its ValueError exactly for
    a call that is not specific (the lengths of the two breakpoints add
    up to more than 2) or that is neither an insertion with an
    untemplated sequence nor a deletion or duplication without one; for
    a deletion or a duplication on a chromosome that the reference
    genome does not have it raises the KeyError of the dictionary. *)
Theorem characterize_repeat_region_errors (event : EventCall) (fuel : nat) :
  let result := characterize_repeat_region Interval_len reference_genome upper fuel event in
  let specific := Interval_len (break1 event) + Interval_len (break2 event) ≤ 2 in
  let sensible :=
    event_type event = INS ∧ truthy (untemplated_seq event) = true
    ∨ event_type event ∈ [DEL; DUP] ∧ truthy (untemplated_seq event) = false in
  ((∃ msg, result = Some (RepeatError (RepeatValueError msg))) ↔ ¬ (specific ∧ sensible))
  ∧ (specific → sensible → event_type event ∈ [DEL; DUP] →
     reference_genome (chr (break1 event)) = None →
     result = Some (RepeatError (RepeatKeyError (chr (break1 event)))))
  ∧ (specific → event_type event = INV →
     ∃ msg, result = Some (RepeatError (RepeatValueError msg))).
Proof.
  intros result specific sensible.
  assert (Hloop : ∀ fuel' c e r k msg,
            repeat_loop reference_genome upper fuel' c e r k
            ≠ Some (RepeatError (RepeatValueError msg))).
  { induction fuel' as [|fuel' IH]; intros c e r k msg; [done|]. cbn [repeat_loop].
    destruct (_ >? _); [|done]. destruct (reference_genome c); [|done].
    case_bool_decide; [done | apply IH]. }
  assert (Hbad : ¬ (specific ∧ sensible) →
            ∃ msg, result = Some (RepeatError (RepeatValueError msg))).
  { intros Hnot. subst result. unfold characterize_repeat_region.
    destruct (Z.gtb_spec (Interval_len (break1 event) + Interval_len (break2 event)) 2)
      as [?|Hlen]; [eauto|].
    destruct (negb _) eqn:Hcheck; [eauto|]. destruct Hnot. split; [done|].
    apply negb_false_iff, orb_true_iff in Hcheck as [Hc|Hc];
      apply andb_true_iff in Hc as [Ht Hu]; apply bool_decide_eq_true in Ht.
    - by left.
    - right. split; [done|]. by apply negb_true_iff in Hu. }
  split_and!.
  - split; [|exact Hbad]. intros [msg Hmsg] [Hs Hk]. subst result.
    rewrite characterize_repeat_region_checked in Hmsg by done.
    unfold repeat_target in Hmsg.
    destruct (event_type event), (reference_genome (chr (break1 event)));
      try done; by apply Hloop in Hmsg.
  - intros Hs Hk Ht Hnone. subst result.
    rewrite characterize_repeat_region_checked by done.
    unfold repeat_target. rewrite Hnone.
    destruct Hk as [[Hins _]|_].
    { rewrite Hins in Ht.
      apply elem_of_cons in Ht as [?|?%list_elem_of_singleton]; done. }
    apply elem_of_cons in Ht as [->| ->%list_elem_of_singleton]; done.
  - intros Hs Ht. apply Hbad. intros [_ [[Hins _]|[Hdel _]]]; rewrite Ht in *; [done|].
    apply elem_of_cons in Hdel as [?|?%list_elem_of_singleton]; done.
Qed.

(** X22. [characterize_repeat_region] does not end when the sequence to
    look for is empty and the starting position is positive: every turn
    of the loop finds the empty sequence again and moves by nothing. That
    is so for a deletion without untemplated sequence whose second
    breakpoint ends at the base after the start of the first, or before
    it. *)
Theorem characterize_repeat_region_diverges (event : EventCall) (sequence : string) :
  Interval_len (break1 event) + Interval_len (break2 event) ≤ 2 →
  reference_genome (chr (break1 event)) = Some sequence →
  upper EmptyString = EmptyString →
  (∀ rightmost,
     (event_type event = INS ∧ truthy (untemplated_seq event) = true
      ∨ event_type event ∈ [DEL; DUP] ∧ truthy (untemplated_seq event) = false) →
     repeat_target reference_genome event = inr (EmptyString, rightmost) →
     0 < rightmost →
     ∀ fuel, characterize_repeat_region Interval_len reference_genome upper fuel event
             = None)
  ∧ (event_type event = DEL → truthy (untemplated_seq event) = false →
     0 < start (break1 event) → 1 ≤ end_ (break2 event) ≤ start (break1 event) + 1 →
     ∀ fuel, characterize_repeat_region Interval_len reference_genome upper fuel event
             = None).
Proof.
  intros Hlen Hseq Hupper.
  assert (Hgeneral : ∀ rightmost,
    (event_type event = INS ∧ truthy (untemplated_seq event) = true
      ∨ event_type event ∈ [DEL; DUP] ∧ truthy (untemplated_seq event) = false) →
     repeat_target reference_genome event = inr (EmptyString, rightmost) →
     0 < rightmost →
     ∀ fuel, characterize_repeat_region Interval_len reference_genome upper fuel event
             = None).
  { intros rightmost Hkind Htarget Hpos fuel.
    rewrite characterize_repeat_region_checked, Htarget by done.
    by eapply repeat_loop_empty. }
  split; [exact Hgeneral|].
  intros Ht Hu Hstart Hend. apply (Hgeneral (start (break1 event))); [|  |done].
  - right. split; [rewrite Ht; left | done].
  - unfold repeat_target. rewrite Ht, Hseq. by rewrite slice_backwards by lia.
Qed.

End RepeatFacts.

(** An insertion of AC after three copies of AC. *)
Lemma characterize_repeat_region_counts_witness :
  ∃ k, characterize_repeat_region closed_len sample_genome upper_letters 9
         (repeat_call INS 8 9 (Some "AC"%string))
       = Some (RepeatCount k)
       ∧ (0 < k → k * 2 < 8).
Proof.
  destruct (characterize_repeat_region_counts closed_len sample_genome upper_letters
              (repeat_call INS 8 9 (Some "AC"%string)) "GTACACACGT" "AC" 8 9)
    as (k & Hk & _ & Hbound & _).
  - vm_compute. discriminate.
  - left. split; reflexivity.
  - reflexivity.
  - reflexivity.
  - discriminate.
  - vm_compute. lia.
  - exists k. split; [exact Hk | exact Hbound].
Defined.

(** An inversion is refused. *)
Lemma characterize_repeat_region_errors_witness :
  ∃ msg, characterize_repeat_region closed_len sample_genome upper_letters 9
           (repeat_call INV 8 9 None)
         = Some (RepeatError (RepeatValueError msg)).
Proof.
  destruct (characterize_repeat_region_errors closed_len sample_genome upper_letters
              (repeat_call INV 8 9 None) 9) as (_ & _ & Hinv).
  apply Hinv; [vm_compute; discriminate | reflexivity].
Defined.

(** A deletion between the neighbouring positions 8 and 9. *)
Lemma characterize_repeat_region_diverges_witness :
  characterize_repeat_region closed_len sample_genome upper_letters 1000
    (repeat_call DEL 8 9 None) = None.
Proof.
  destruct (characterize_repeat_region_diverges closed_len sample_genome upper_letters
              (repeat_call DEL 8 9 None) "GTACACACGT") as [_ Hdel].
  - vm_compute. discriminate.
  - reflexivity.
  - reflexivity.
  - apply Hdel; [reflexivity | reflexivity | reflexivity | vm_compute; split; discriminate].
Defined.

(** *** The call by flanking pairs after the calls by split reads *)

Section SupportingReadsFacts.
Variable classify : BreakpointPair → gset SVTYPE.
Variable BreakpointPair_init :
  Breakpoint → Breakpoint → bool → option string → Result BreakpointPair.
Variable Interval_dist : Interval → Interval → Z.
Variable Interval_union : Interval → Interval → Interval.
Variable Interval_len : Interval → Z.
Variable Interval_overlaps : Interval → Interval → bool.
Variable orientation_supports_type : Read → option SVTYPE → bool.
Variable SVTYPE_str : SVTYPE → string.
Variable str_err : Evidence.t → SVTYPE → gset Read → exn → string.

(** A new call has no read yet. *)
Lemma EventCall_init_fresh b1 b2 ev t cm contig aln u call :
  EventCall_init classify BreakpointPair_init b1 b2 ev t cm contig aln u = Return call →
  flanking_pairs call = ∅ ∧ compatible_flanking_pairs call = ∅
  ∧ call_method call = cm ∧ source_evidence call = ev.
Proof.
  unfold EventCall_init.
  destruct (BreakpointPair_init _ _ _ _) as [p|e]; simpl; [|discriminate].
  destruct (swap_types _ _ _) as [t' c'].
  destruct (negb _); [discriminate|]. destruct (_ && _); [discriminate|].
  by intros [= <-].
Qed.

(** The call by flanking pairs holds none but available pairs that no
    consumed read is part of. *)
Lemma flanking_call_pairs ev t consumed available call read mate :
  flanking_call classify BreakpointPair_init Interval_dist Interval_union Interval_len
    Interval_overlaps orientation_supports_type SVTYPE_str ev t consumed
    (filter_consumed_pairs available consumed) = Return call →
  (read, mate) ∈ flanking_pairs call ∪ compatible_flanking_pairs call →
  (read, mate) ∈ available ∧ (read ∉ consumed) ∧ (mate ∉ consumed).
Proof.
  unfold flanking_call. intros Hcall Hin.
  destruct (_call_by_flanking_pairs _ _ _ _ _ _ _) as [[b1 b2]|]; [|done].
  simpl in Hcall.
  destruct (EventCall_init _ _ _ _ _ _ _ _ _ _) as [call0|] eqn:Hinit; [|done].
  simpl in Hcall. apply EventCall_init_fresh in Hinit as (Hf0 & Hc0 & _).
  set (pairs := filter_consumed_pairs available consumed) in *.
  destruct (add_flanking_support_any Interval_dist Interval_union Interval_len
              orientation_supports_type false call0 pairs)
    as (_ & _ & _ & _ & _ & Hkeep1 & Hmem1).
  set (call1 := add_flanking_support _ _ _ _ call0 pairs false) in *.
  destruct (add_flanking_support_any Interval_dist Interval_union Interval_len
              orientation_supports_type true call1 pairs)
    as (_ & _ & _ & _ & _ & Hkeep2 & Hmem2).
  simpl in Hkeep1, Hmem1, Hkeep2, Hmem2.
  assert (Hpairs : (read, mate) ∈ pairs).
  { destruct (has_compatible call1); injection Hcall as <-.
    - apply elem_of_union in Hin as [Hin|Hin].
      + rewrite Hkeep2 in Hin. apply Hmem1 in Hin as [Hin|[? _]]; [|done].
        rewrite Hf0 in Hin. by apply elem_of_empty in Hin.
      + apply Hmem2 in Hin as [Hin|[? _]]; [|done].
        rewrite Hkeep1, Hc0 in Hin. by apply elem_of_empty in Hin.
    - apply elem_of_union in Hin as [Hin|Hin].
      + apply Hmem1 in Hin as [Hin|[? _]]; [|done].
        rewrite Hf0 in Hin. by apply elem_of_empty in Hin.
      + rewrite Hkeep1, Hc0 in Hin. by apply elem_of_empty in Hin. }
  by apply elem_of_filter_consumed_pairs in Hpairs.
Qed.

(** X26. The end of [_call_by_supporting_reads], after the calls by
    split reads: a ValueError of the call by flanking pairs or of the
    constructor of the call is not caught and ends the function; any
    other exception is caught, and then the calls by split reads are
    returned, or, when there is none, a UserWarning is raised whose
    message is [str] of the caught exception. When the call by flanking
    pairs succeeds it is appended to the calls by split reads; its
    flanking pairs and compatible flanking pairs are available pairs of
    which no read was consumed before or supports a call by split reads.
    The list that is returned is never empty. *)
Theorem call_by_supporting_reads_end_spec (evidence : Evidence.t) (event_type : SVTYPE)
    (linked_pairings : list EventCall) (consumed_evidence : gset Read)
    (available_flanking_pairs : gset (Read * Read)) :
  let outcome :=
    call_by_supporting_reads_end classify BreakpointPair_init Interval_dist
      Interval_union Interval_len Interval_overlaps orientation_supports_type SVTYPE_str
      str_err evidence event_type linked_pairings consumed_evidence
      available_flanking_pairs in
  let consumed := consume consumed_evidence linked_pairings in
  let attempt :=
    flanking_call classify BreakpointPair_init Interval_dist Interval_union Interval_len
      Interval_overlaps orientation_supports_type SVTYPE_str evidence event_type consumed
      (filter_consumed_pairs available_flanking_pairs consumed) in
  (∀ msg, attempt = Raise (ValueError msg) → outcome = Raise (ValueError msg))
  ∧ (∀ e, attempt = Raise e → (∀ msg, e ≠ ValueError msg) →
       (linked_pairings ≠ [] → outcome = Return linked_pairings)
       ∧ (linked_pairings = [] →
          outcome = Raise (UserWarning (str_err evidence event_type consumed e))))
  ∧ (∀ call, attempt = Return call →
       outcome = Return (linked_pairings ++ [call])
       ∧ ∀ read mate,
           (read, mate) ∈ flanking_pairs call ∪ compatible_flanking_pairs call →
           (read, mate) ∈ available_flanking_pairs
           ∧ (read ∉ consumed_evidence) ∧ (mate ∉ consumed_evidence)
           ∧ ∀ split_call, split_call ∈ linked_pairings →
                           (read ∉ support split_call) ∧ (mate ∉ support split_call))
  ∧ (∀ calls, outcome = Return calls → calls ≠ []).
Proof.
  intros outcome consumed attempt.
  set (str := str_err evidence event_type consumed).
  assert (Hout : outcome
                 = (st ← try_flanking_call str linked_pairings ∅ attempt;
                    if bool_decide (st.1 = [])
                    then Raise (UserWarning (Py.join ";" (elements st.2)))
                    else Return st.1)) by reflexivity.
  assert (Hcaught : ∀ e, (∀ msg, e ≠ ValueError msg) →
            try_flanking_call str linked_pairings ∅ (Raise e)
            = Return (linked_pairings, {[str e]})).
  { intros e He. destruct e as [msg|msg|msg]; [by destruct (He msg)| |];
      simpl; by rewrite (left_id_L ∅ (∪)). }
  split_and!.
  - intros msg Hattempt. by rewrite Hout, Hattempt.
  - intros e Hattempt He. rewrite Hout, Hattempt, (Hcaught e He). simpl. split.
    + intros Hne. by rewrite bool_decide_eq_false_2.
    + intros ->. simpl. by rewrite elements_singleton.
  - intros call Hattempt. split.
    + rewrite Hout, Hattempt. simpl. rewrite bool_decide_eq_false_2; [done|].
      by destruct linked_pairings.
    + intros read mate Hin.
      destruct (flanking_call_pairs evidence event_type consumed available_flanking_pairs
                  call read mate Hattempt Hin) as (Havailable & Hread & Hmate).
      subst consumed. rewrite elem_of_consume in Hread, Hmate.
      split_and!; [done|naive_solver|naive_solver|]. intros split_call Hsplit.
      split; intros Hsupport; [apply Hread | apply Hmate]; right; by exists split_call.
  - intros calls Hcalls. rewrite Hout in Hcalls.
    destruct (try_flanking_call str linked_pairings ∅ attempt) as [[l errors]|]; [|done].
    simpl in Hcalls. case_bool_decide; [done|]. by injection Hcalls as <-.
Qed.

End SupportingReadsFacts.

(** One flanking pair and no split read: the call by flanking pairs is
    the one call. No flanking pair and no split read: the AssertionError
    of the call by flanking pairs, built with its message alone, is
    caught, and its message is the message of the UserWarning. *)
Lemma call_by_supporting_reads_end_spec_witness :
  (∃ call,
     call_by_supporting_reads_end classify_by_orientation sample_pair_init gap_dist
       closed_union closed_len closed_overlaps any_orientation sample_SVTYPE_str
       message_str dup_flank_evidence DUP [] ∅ {[(left_read, right_read)]}
     = Return ([] ++ [call]))
  ∧ call_by_supporting_reads_end classify_by_orientation sample_pair_init gap_dist
      closed_union closed_len closed_overlaps any_orientation sample_SVTYPE_str
      message_str dup_evidence DUP [] ∅ ∅
    = Raise (UserWarning "insufficient coverage to call duplication by flanking reads").
Proof.
  destruct (call_by_supporting_reads_end_spec classify_by_orientation sample_pair_init
              gap_dist closed_union closed_len closed_overlaps any_orientation
              sample_SVTYPE_str message_str dup_flank_evidence DUP [] ∅
              {[(left_read, right_read)]})
    as (_ & _ & Hreturned & _).
  destruct (call_by_supporting_reads_end_spec classify_by_orientation sample_pair_init
              gap_dist closed_union closed_len closed_overlaps any_orientation
              sample_SVTYPE_str message_str dup_evidence DUP [] ∅ ∅)
    as (_ & Hcaught & _).
  split.
  - eexists. apply Hreturned. vm_compute. reflexivity.
  - destruct (Hcaught (AssertionError
                         "insufficient coverage to call duplication by flanking reads"))
      as [_ Hnone]; [vm_compute; reflexivity | discriminate |].
    exact (Hnone eq_refl).
Defined.

End CallFacts.

Module AssembleFacts.
Import Assemble.

Lemma foldl_min_spec (x : Z) (l : list Z) :
  foldl Z.min x l ∈ x :: l ∧ ∀ y, y ∈ x :: l → foldl Z.min x l ≤ y.
Proof.
  revert x. induction l as [|z l IH]; intros x; simpl.
  - split; [by left|]. intros y ->%list_elem_of_singleton. lia.
  - destruct (IH (Z.min x z)) as [Hin Hle]. split.
    + apply elem_of_cons in Hin as [Heq|Hin]; [|set_solver].
      rewrite Heq. destruct (Z.min_spec x z) as [[_ ->]|[_ ->]]; set_solver.
    + intros y Hy. assert (Hm : foldl Z.min (Z.min x z) l ≤ Z.min x z)
        by (apply Hle; by left).
      apply elem_of_cons in Hy as [->|Hy]; [lia|].
      apply elem_of_cons in Hy as [->|Hy]; [lia|]. apply Hle. by right.
Qed.

(** The least length is a length of the list and bounds them all. *)
Lemma min_seq_len_spec s0 rest :
  (∃ s, s ∈ s0 :: rest ∧ min_seq_len s0 rest = Z.of_nat (String.length s))
  ∧ ∀ s, s ∈ s0 :: rest → min_seq_len s0 rest ≤ Z.of_nat (String.length s).
Proof.
  unfold min_seq_len.
  destruct (foldl_min_spec (Z.of_nat (String.length s0))
              ((λ s, Z.of_nat (String.length s)) <$> rest)) as [Hin Hle].
  change (Z.of_nat (String.length s0) :: ((λ s, Z.of_nat (String.length s)) <$> rest))
    with ((λ s, Z.of_nat (String.length s)) <$> (s0 :: rest)) in Hin, Hle.
  split.
  - apply list_elem_of_fmap in Hin as (s & Heq & Hs). eauto.
  - intros s Hs. apply Hle. apply list_elem_of_fmap. eauto.
Qed.

Lemma min_seq_len_nonneg s0 rest : 0 ≤ min_seq_len s0 rest.
Proof. destruct (min_seq_len_spec s0 rest) as [(s & _ & ->) _]. lia. Qed.

(** The default size, as the code computes it, is the specified one. *)
Lemma choose_kmer_size_default (min_seq : Z) :
  0 ≤ min_seq →
  choose_kmer_size None min_seq = (Z.min (Z.max 10 (min_seq * 3 / 4)) min_seq, []).
Proof.
  intros Hm. unfold choose_kmer_size.
  assert (min_seq * 3 / 4 ≤ min_seq) by (apply Z.div_le_upper_bound; lia).
  destruct (Z.ltb_spec (min_seq * 3 / 4) 10); f_equal; lia.
Qed.

Section KmerSize.
Context {Aln : Type} `{Countable Aln}.
Variable nsb_align : string → string → Qc → list Aln.
Variable match_percent : Aln → Qc.
Variable reverse_complement : Aln → Aln.

(** C8. For a non-empty list of sequences of least length [m], [assemble]
    without a k-mer size works with [min (max 10 (floor (0.75 m))) m],
    which is at most [m] (8 for two sequences of length 8): it returns
    what it returns for that size given by the caller. A size given by
    the caller that exceeds [m] is replaced by [m], with the warning. *)
Theorem assemble_kmer_size (s0 : string) (rest : list string) (min_edge_weight : Z)
    (min_match_quality : Qc) (min_read_mapping_overlap min_contig_length : option Z) :
  let m := min_seq_len s0 rest in
  let k0 := Z.min (Z.max 10 (m * 3 / 4)) m in
  let run kmer_size :=
    assemble nsb_align match_percent reverse_complement (s0 :: rest) kmer_size
      min_edge_weight min_match_quality min_read_mapping_overlap min_contig_length in
  choose_kmer_size None m = (k0, [])
  ∧ k0 ≤ m
  ∧ run None = run (Some k0)
  ∧ (∀ k, m < k →
       choose_kmer_size (Some k) m = (m, [KmerSizeReset m])
       ∧ run (Some k) = (KmerSizeReset m :: (run (Some m)).1, (run (Some m)).2))
  ∧ (∀ s1, String.length s0 = 8%nat → String.length s1 = 8%nat → rest = [s1] → k0 = 8).
Proof.
  intros m k0 run. pose proof (min_seq_len_nonneg s0 rest) as Hm. fold m in Hm.
  assert (Hk0 : k0 ≤ m) by (subst k0; lia).
  assert (Hdef : choose_kmer_size None m = (k0, []))
    by (apply choose_kmer_size_default; exact Hm).
  assert (Hsome : ∀ k, k ≤ m → choose_kmer_size (Some k) m = (k, [])).
  { intros k Hk. unfold choose_kmer_size. destruct (Z.gtb_spec k m); [lia|done]. }
  split_and!; [exact Hdef | exact Hk0 | | |].
  - subst run. unfold assemble. fold m. by rewrite Hdef, (Hsome _ Hk0).
  - intros k Hk.
    assert (Hbig : choose_kmer_size (Some k) m = (m, [KmerSizeReset m])).
    { unfold choose_kmer_size. destruct (Z.gtb_spec k m); [done|lia]. }
    split; [exact Hbig|]. subst run. unfold assemble. fold m.
    rewrite Hbig, (Hsome m) by lia. reflexivity.
  - intros s1 H0 H1 ->. subst k0 m. unfold min_seq_len. simpl. rewrite H0, H1.
    reflexivity.
Qed.

End KmerSize.

Lemma assemble_kmer_size_witness :
  min_seq_len "ACGTACGT" ["CGTACGTA"] < 10
  ∧ choose_kmer_size (Some 10) (min_seq_len "ACGTACGT" ["CGTACGTA"]) = (8, [KmerSizeReset 8])
  ∧ choose_kmer_size None (min_seq_len "ACGTACGT" ["CGTACGTA"]) = (8, []).
Proof.
  assert (Hlt : min_seq_len "ACGTACGT" ["CGTACGTA"] < 10) by (vm_compute; reflexivity).
  destruct (assemble_kmer_size (Aln := nat) (λ _ _ _, []) (λ _, 1%Qc) id
              "ACGTACGT" ["CGTACGTA"] 3 (Qc_of_Z 1) None None)
    as (Hdef & _ & _ & Hbig & _).
  split_and!; [exact Hlt | exact (proj1 (Hbig 10 Hlt)) | exact Hdef].
Defined.

Section Contigs.
Context {Aln : Type} `{Countable Aln}.
Variable nsb_align : string → string → Qc → list Aln.
Variable match_percent : Aln → Qc.
Variable reverse_complement : Aln → Aln.

(** Remapping reads changes [remapped_reads] only: the contigs, their
    sequences and their scores stay. *)
Lemma remapped_contigs (P : string → Contig (Aln := Aln) → Prop) l :
  (∀ k c read n, P k c → P k (add_mapped_read reverse_complement c read n)) →
  ∀ contigs : gmap string Contig,
    map_Forall P contigs →
    ∀ n, map_Forall P
           (foldl (λ cs kr, alter (λ c, add_mapped_read reverse_complement c kr.2 n) kr.1 cs)
                  contigs l).
Proof.
  intros HP. induction l as [|kr l IH]; intros contigs Hall n; simpl; [done|].
  apply IH. intros k c. rewrite lookup_alter. case_decide as Hk.
  - subst k. destruct (contigs !! kr.1) as [c'|] eqn:Hc'; simpl; [|done].
    intros [= <-]. apply HP. by apply Hall.
  - apply Hall.
Qed.

Lemma remap_read_Forall (P : string → Contig (Aln := Aln) → Prop) mmq mrmo :
  (∀ k c read n, P k c → P k (add_mapped_read reverse_complement c read n)) →
  ∀ sequences (contigs : gmap string Contig),
    map_Forall P contigs →
    map_Forall P
      (foldl (remap_read nsb_align match_percent reverse_complement mmq mrmo)
             contigs sequences).
Proof.
  intros HP sequences. induction sequences as [|s sequences IH]; intros contigs Hall;
    simpl; [done|].
  apply IH. unfold remap_read. by apply remapped_contigs.
Qed.

(** What [assemble] returns: every contig is a recorded path string with
    its score, is none of the input sequences and is long enough. *)
Lemma assemble_contigs s0 rest kmer_size min_edge_weight mmq mrmo mcl contig :
  let sequences := s0 :: rest in
  let k := (choose_kmer_size kmer_size (min_seq_len s0 rest)).1 in
  let g := trim_low_weight_tails (build_graph sequences k) min_edge_weight in
  contig ∈ (assemble nsb_align match_percent reverse_complement sequences kmer_size
              min_edge_weight mmq mrmo mcl).2 →
  path_scores_of g !! seq contig = Some (score contig)
  ∧ (seq contig ∉ sequences)
  ∧ default (min_seq_len s0 rest + 1) mcl ≤ Z.of_nat (String.length (seq contig)).
Proof.
  intros sequences k g Hin. subst k g. unfold assemble in Hin.
  unfold sequences in Hin at 1. cbv beta iota zeta in Hin.
  destruct (choose_kmer_size kmer_size (min_seq_len s0 rest)) as [k' w1] eqn:Hk.
  cbn [fst snd] in *.
  apply list_elem_of_fmap in Hin as ([key c] & -> & Hin).
  apply elem_of_map_to_list in Hin. cbn [fst snd].
  set (g := trim_low_weight_tails (build_graph sequences k') min_edge_weight) in *.
  set (P := λ (key : string) (c : Contig (Aln := Aln)),
         path_scores_of g !! seq c = Some (score c)
         ∧ (seq c ∉ sequences)
         ∧ default (min_seq_len s0 rest + 1) mcl ≤ Z.of_nat (String.length (seq c))).
  eapply (remap_read_Forall P); [| |exact Hin].
  - intros ? ? ? ? HP. exact HP.
  - intros key' c'. unfold select_contigs. rewrite map_lookup_imap.
    destruct (path_scores_of g !! key') as [sc|] eqn:Hsc; simpl; [|done].
    case_bool_decide as Hcond; [|done]. intros [= <-]. unfold P. simpl.
    destruct Hcond. done.
Qed.

(** C6. [assemble] of no sequence is the empty list; otherwise no
    returned contig is one of the input sequences, and every returned
    contig is at least [min_contig_length] long, which is
    [min_seq_len + 1] when the caller gives none. *)
Theorem assemble_output (sequences : list string) (kmer_size : option Z)
    (min_edge_weight : Z) (min_match_quality : Qc)
    (min_read_mapping_overlap min_contig_length : option Z) :
  let result :=
    assemble nsb_align match_percent reverse_complement sequences kmer_size
      min_edge_weight min_match_quality min_read_mapping_overlap min_contig_length in
  (sequences = [] → result = ([], []))
  ∧ (∀ s0 rest contig,
       sequences = s0 :: rest → contig ∈ result.2 →
       (seq contig ∉ sequences)
       ∧ default (min_seq_len s0 rest + 1) min_contig_length
         ≤ Z.of_nat (String.length (seq contig))).
Proof.
  intros result. split.
  - intros ->. reflexivity.
  - intros s0 rest contig -> Hin. by apply assemble_contigs in Hin as (_ & ? & ?).
Qed.

End Contigs.

(** The two overlapping reads give their fourteen-base union. *)
Lemma assemble_output_witness :
  overlapping_reads = "ACGTTGCAAGCT" :: ["GTTGCAAGCTAA"]
  ∧ new_contig "ACGTTGCAAGCTAA" 6
      ∈ (sample_assemble overlapping_reads None 1 (Qc_of_Z 1) None None).2
  ∧ ("ACGTTGCAAGCTAA" ∉ overlapping_reads)
  ∧ 13 ≤ Z.of_nat (String.length "ACGTTGCAAGCTAA").
Proof.
  assert (Hin : new_contig "ACGTTGCAAGCTAA" 6
                  ∈ (sample_assemble overlapping_reads None 1 (Qc_of_Z 1) None None).2)
    by (vm_compute; left).
  destruct (assemble_output (Aln := nat) no_alignment (λ _, 1%Qc) id
              overlapping_reads None 1 (Qc_of_Z 1) None None) as [_ Hout].
  destruct (Hout _ _ _ eq_refl Hin) as [Hnot Hlen].
  split_and!; [reflexivity | exact Hin | exact Hnot | exact Hlen].
Defined.

(** *** The graphs of [assemble] *)

Lemma freq_nonneg g e : graph_ok g → 0 ≤ freq g e.
Proof.
  intros [Hok _]. unfold freq. destruct (edge_freq g !! e) as [v|] eqn:He; simpl; [|lia].
  specialize (Hok _ _ He). lia.
Qed.

(** No lookup of a frequency of an edge fails. *)
Lemma in_edge_freq g a b :
  graph_ok g → (a, b) ∈ edges g → edge_freq g !! (a, b) = Some (freq g (a, b)).
Proof.
  intros [_ Hok] Hin. destruct (Hok _ _ Hin) as [[v Hv] _]. unfold freq. by rewrite Hv.
Qed.

Lemma substring_length n m s :
  String.length (String.substring n m s) = Nat.min m (String.length s - n).
Proof.
  revert n m. induction s as [|c s IH]; intros n m; simpl.
  - destruct n, m; reflexivity.
  - destruct n as [|n]; [destruct m as [|m]; simpl; [done|] |].
    + rewrite IH. lia.
    + rewrite IH. reflexivity.
Qed.

Lemma kmer_nodes_length kmer :
  String.length (Py.slice_to kmer (-1)) = String.length (Py.slice_from kmer 1).
Proof.
  unfold Py.slice_to, Py.slice_from, Py.slice. rewrite !substring_length.
  unfold Py.slice_bound. simpl.
  destruct (String.length kmer) as [|n] eqn:Hn; simpl; [reflexivity|].
  rewrite !Z2Nat.inj_max, !Z2Nat.inj_min. lia.
Qed.

Lemma add_kmer_ok g kmer : graph_ok g → graph_ok (add_kmer g kmer).
Proof.
  intros Hg. pose proof (freq_nonneg g (Py.slice_to kmer (-1), Py.slice_from kmer 1) Hg).
  destruct Hg as [Hf He]. unfold add_kmer, add_edge. split; simpl.
  - intros e v. rewrite lookup_insert. case_decide; [intros [= <-]; lia | apply Hf].
  - intros a b Hin.
    destruct (decide ((Py.slice_to kmer (-1), Py.slice_from kmer 1) = (a, b))) as [Heq|Hne].
    + rewrite Heq, lookup_insert_eq. inversion Heq; subst.
      split; [eauto | apply kmer_nodes_length].
    + rewrite lookup_insert_ne by done. apply He. case_bool_decide; [done|].
      apply elem_of_app in Hin as [?|Hin]; [done|].
      apply list_elem_of_singleton in Hin. congruence.
Qed.

Lemma build_graph_ok sequences k : graph_ok (build_graph sequences k).
Proof.
  unfold build_graph.
  assert (H0 : graph_ok empty_graph).
  { split; simpl; [intros ? ?; by rewrite lookup_empty | intros ? ? ?%elem_of_nil; done]. }
  revert H0. generalize empty_graph. induction sequences as [|s sequences IH];
    intros g Hg; simpl; [done|].
  apply IH. unfold add_sequence. revert g Hg.
  induction (kmers s k) as [|kmer l IHl]; intros g Hg; simpl; [done|].
  apply IHl. by apply add_kmer_ok.
Qed.

Lemma remove_node_ok g n : graph_ok g → graph_ok (remove_node g n).
Proof.
  intros [Hf He]. split; simpl; [exact Hf|].
  intros a b Hin. apply list_elem_of_filter in Hin as [_ Hin]. by apply He.
Qed.

Lemma trim_walk_ok fuel w : ∀ g curr, graph_ok g → graph_ok (trim_walk fuel w g curr).
Proof.
  induction fuel as [|fuel IH]; intros g curr Hg; simpl; [done|].
  repeat case_bool_decide; try done.
  - destruct (out_edges g curr) as [|[c o] ?]; [done|].
    destruct (_ <? _); [|done]. apply IH. by apply remove_node_ok.
  - destruct (in_edges g curr) as [|[o c] ?]; [done|].
    destruct (_ <? _); [|done]. apply IH. by apply remove_node_ok.
Qed.

Lemma trim_low_weight_tails_ok g w : graph_ok g → graph_ok (trim_low_weight_tails g w).
Proof.
  intros Hg. unfold trim_low_weight_tails.
  assert (H1 : ∀ l g', graph_ok g' → graph_ok (foldl (trim_from w) g' l)).
  { induction l as [|n l IH]; intros g' Hg'; simpl; [done|]. apply IH.
    unfold trim_from. destruct (has_node g' n); [by apply trim_walk_ok|done]. }
  assert (H2 : ∀ l g', graph_ok g' → graph_ok (foldl drop_singleton g' l)).
  { induction l as [|n l IH]; intros g' Hg'; simpl; [done|]. apply IH.
    unfold drop_singleton. destruct (has_node g' n); [|done].
    case_bool_decide; [by apply remove_node_ok|done]. }
  apply H2, H1, Hg.
Qed.

(** *** Path strings and scores *)

Lemma substring_last n :
  n ≠ EmptyString →
  ∃ c, final_char n = Some c
       ∧ String.substring (String.length n - 1) 1 n = String c EmptyString.
Proof.
  unfold final_char. induction n as [|a n IH]; intros Hne; [done|].
  destruct n as [|b n].
  - exists a. split; reflexivity.
  - destruct IH as (c & Hc & Hs); [done|]. exists c. split; [exact Hc|].
    simpl in *. by rewrite Nat.sub_0_r in Hs.
Qed.

(** On a node that is not empty [p[-1]] is its last character. *)
Lemma last_char_final n :
  n ≠ EmptyString → ∃ c, final_char n = Some c ∧ last_char n = String c EmptyString.
Proof.
  intros Hne. destruct (substring_last n Hne) as (c & Hc & Hs). exists c. split; [done|].
  unfold last_char, Py.slice_from, Py.slice, Py.slice_bound.
  destruct n as [|a n]; [done|].
  assert (Hlen : (-1 <? 0) = true) by reflexivity. rewrite Hlen.
  destruct (Z.ltb_spec (Z.of_nat (String.length (String a n))) 0) as [?|_]; [lia|].
  rewrite <- Hs. f_equal; simpl String.length; lia.
Qed.

Lemma path_string_chars first rest :
  Forall (λ n, n ≠ EmptyString) rest →
  ∃ chars, Forall2 (λ n c, final_char n = Some c) rest chars
           ∧ path_string (first :: rest) = first +:+ string_of_list_ascii chars.
Proof.
  intros Hrest. unfold path_string. simpl hd. simpl tail.
  enough (∃ chars, Forall2 (λ n c, final_char n = Some c) rest chars
                   ∧ Py.join_empty (last_char <$> rest) = string_of_list_ascii chars)
    as (chars & ? & ->) by eauto.
  induction Hrest as [|n rest Hn _ (chars & Hall & Heq)].
  - exists []. split; [constructor | reflexivity].
  - destruct (last_char_final n Hn) as (c & Hc & Hl). exists (c :: chars).
    split; [by constructor|]. rewrite fmap_cons. simpl. by rewrite Hl, Heq.
Qed.

Lemma path_score_from g pre path acc :
  foldl (λ score i,
           score + freq g (default EmptyString ((pre ++ path) !! i),
                           default EmptyString ((pre ++ path) !! S i)))
        acc (List.seq (length pre) (length path - 1))
  = acc + edge_sum g path.
Proof.
  revert pre acc. induction path as [|a path IH]; intros pre acc.
  - simpl. unfold edge_sum. simpl. lia.
  - destruct path as [|b path].
    + simpl. unfold edge_sum. simpl. lia.
    + replace (length (a :: b :: path) - 1)%nat with (S (length (b :: path) - 1))
        by (simpl; lia).
      rewrite <- cons_seq. cbn [foldl].
      specialize (IH (pre ++ [a]) (acc + freq g (a, b))).
      rewrite <- !app_assoc, length_app in IH. simpl app in IH.
      replace (length pre + length [a])%nat with (S (length pre)) in IH by (simpl; lia).
      rewrite (list_lookup_middle pre (b :: path) a (length pre)) by done.
      replace (S (length pre)) with (length pre + 1)%nat at 1 by lia.
      rewrite lookup_app_r by lia.
      replace (length pre + 1 - length pre)%nat with 1%nat by lia.
      replace (length pre + 1)%nat with (S (length pre)) by lia.
      simpl default. rewrite IH. unfold edge_sum, path_edges. simpl. lia.
Qed.

(** The index loop adds up the frequencies of the edges along the path. *)
Lemma path_score_edge_sum g path : path_score g path = edge_sum g path.
Proof. unfold path_score. exact (path_score_from g [] path 0). Qed.

(** *** The enumerated paths *)

Lemma path_edges_cons a b l : path_edges (a :: b :: l) = (a, b) :: path_edges (b :: l).
Proof. reflexivity. Qed.

(** The depth-first search extends the path so far along edges, by one
    node at least. *)
Lemma simple_paths_from_chain g target fuel : ∀ cur vis p,
  p ∈ simple_paths_from fuel g (cur :: vis) target →
  ∃ suffix, p = reverse vis ++ cur :: suffix ∧ suffix ≠ []
            ∧ Forall (λ e, e ∈ edges g) (path_edges (cur :: suffix)).
Proof.
  induction fuel as [|fuel IH]; intros cur vis p Hp; simpl in Hp.
  - by apply elem_of_nil in Hp.
  - apply list_elem_of_bind in Hp as (child & Hp & Hchild).
    assert (Hedge : (cur, child) ∈ edges g).
    { unfold successors, out_edges in Hchild.
      apply list_elem_of_fmap in Hchild as ([a b] & -> & Hin).
      apply list_elem_of_filter in Hin as [Ha Hin]. simpl in Ha. by subst. }
    case_bool_decide as Ht.
    + apply list_elem_of_singleton in Hp as ->. subst child. exists [target].
      split_and!; [|done|].
      * rewrite !reverse_cons, <- app_assoc. reflexivity.
      * rewrite path_edges_cons. constructor; [done|constructor].
    + case_bool_decide; [by apply elem_of_nil in Hp|].
      apply IH in Hp as (suffix & -> & Hne & Hchain). exists (child :: suffix).
      split_and!; [|done|].
      * rewrite reverse_cons, <- app_assoc. reflexivity.
      * rewrite path_edges_cons. by constructor.
Qed.

(** An enumerated path starts at a source, has two nodes at least, and
    goes along edges of the graph. *)
Lemma enumerated_path_shape g p :
  p ∈ enumerated_paths g →
  ∃ source suffix, p = source :: suffix ∧ suffix ≠ [] ∧ is_source g source
                   ∧ Forall (λ e, e ∈ edges g) (path_edges p).
Proof.
  unfold enumerated_paths, component_paths, product, sources, all_simple_paths.
  intros Hp.
  apply list_elem_of_bind in Hp as (component & Hp & _).
  apply list_elem_of_bind in Hp as ([s t] & Hp & Hst).
  apply list_elem_of_bind in Hst as (source & Hst & Hsource).
  apply list_elem_of_bind in Hst as (sink & Hst & _).
  apply list_elem_of_singleton in Hst as [= -> ->].
  apply list_elem_of_filter in Hsource as [Hsource _].
  apply simple_paths_from_chain in Hp as (suffix & -> & Hne & Hchain).
  exists source, suffix. by split_and!.
Qed.

Lemma chain_lengths g : graph_ok g → ∀ l a,
  Forall (λ e, e ∈ edges g) (path_edges (a :: l)) →
  Forall (λ n, String.length n = String.length a) l.
Proof.
  intros [_ He]. induction l as [|b l IH]; intros a Hchain; [constructor|].
  rewrite path_edges_cons in Hchain. apply Forall_cons in Hchain as [Hab Hchain].
  destruct (He _ _ Hab) as [_ Hlen]. constructor; [done|].
  rewrite Hlen. by apply IH.
Qed.

(** Every node after the first of an enumerated path has a last
    character: [p[-1]] raises no IndexError. *)
Lemma path_nodes_nonempty g p :
  graph_ok g → p ∈ enumerated_paths g → Forall (λ n, n ≠ EmptyString) (tail p).
Proof.
  intros Hg Hp.
  apply enumerated_path_shape in Hp as (source & suffix & -> & Hne & Hsource & Hchain).
  simpl. pose proof (chain_lengths g Hg _ _ Hchain) as Hlen.
  destruct source as [|c source].
  - destruct suffix as [|b suffix]; [done|].
    rewrite path_edges_cons in Hchain. apply Forall_cons in Hchain as [Hab _].
    apply Forall_cons in Hlen as [Hb _]. destruct b; [|done].
    destruct Hsource as [_ Hin]. unfold in_degree, in_edges in Hin.
    apply length_zero_iff_nil in Hin.
    assert (Hmem : (EmptyString, EmptyString) ∈ filter (λ e, e.2 = EmptyString) (edges g))
      by by apply list_elem_of_filter.
    rewrite Hin in Hmem. by apply elem_of_nil in Hmem.
  - eapply Forall_impl; [exact Hlen|]. intros n Hn ->. done.
Qed.

(** *** The recorded scores *)

Lemma edge_sum_nonneg g path : graph_ok g → 0 ≤ edge_sum g path.
Proof.
  intros Hg. unfold edge_sum. induction (path_edges path) as [|e l IH]; simpl; [lia|].
  pose proof (freq_nonneg g e Hg). lia.
Qed.

(** The dictionary after the loop over [paths]: the string of every path
    is a key, its value is at least the path's score, and every value is
    the score of a path with that string. *)
Lemma record_paths_spec g paths :
  graph_ok g →
  (∀ p, p ∈ paths →
     ∃ v, foldl (record_path g) ∅ paths !! path_string p = Some v ∧ path_score g p ≤ v)
  ∧ (∀ s v, foldl (record_path g) ∅ paths !! s = Some v →
       ∃ p, p ∈ paths ∧ path_string p = s ∧ path_score g p = v).
Proof.
  intros Hg. induction paths as [|q paths [IH1 IH2]] using rev_ind.
  - split; [intros p Hp; by apply elem_of_nil in Hp|].
    intros s v Hs. simpl in Hs. by rewrite lookup_empty in Hs.
  - rewrite foldl_app. cbn [foldl]. unfold record_path at 1 3.
    set (m := foldl (record_path g) ∅ paths) in *.
    assert (Hq : 0 ≤ path_score g q)
      by (rewrite path_score_edge_sum; by apply edge_sum_nonneg).
    split.
    + intros p Hp. destruct (decide (path_string q = path_string p)) as [Heq|Hne].
      * rewrite Heq, lookup_insert_eq. eexists. split; [reflexivity|].
        apply elem_of_app in Hp as [Hp|Hp].
        -- destruct (IH1 p Hp) as (v & -> & Hv). simpl. lia.
        -- apply list_elem_of_singleton in Hp as ->. lia.
      * rewrite lookup_insert_ne by done.
        apply elem_of_app in Hp as [Hp|Hp]; [by apply IH1|].
        apply list_elem_of_singleton in Hp as ->. done.
    + intros s v. destruct (decide (path_string q = s)) as [Heq|Hne].
      * rewrite Heq, lookup_insert_eq. intros [= <-].
        destruct (m !! s) as [v0|] eqn:Hs; simpl.
        -- destruct (Z.max_spec v0 (path_score g q)) as [[_ ->]|[_ ->]].
           ++ exists q. split_and!; [apply elem_of_app; right; by left|done|done].
           ++ destruct (IH2 s v0 Hs) as (p & Hp & ? & ?). exists p.
              split_and!; [apply elem_of_app; by left|done|done].
        -- exists q. split_and!; [apply elem_of_app; right; by left|done|lia].
      * rewrite lookup_insert_ne by done. intros Hs.
        destruct (IH2 s v Hs) as (p & Hp & ? & ?). exists p.
        split_and!; [apply elem_of_app; by left|done|done].
Qed.

(** C7. On the trimmed graph whose paths [assemble] enumerates, whatever
    the input sequences, the k-mer size and the minimum edge weight, every
    enumerated source-to-sink path has as its string its first node
    followed by the last character of each subsequent node, and as its
    score the sum of the edge frequencies along it; the score recorded for
    its string is at least its own and is the score of an enumerated path
    with that string, that is, the maximum over the paths that produce the
    string; when two paths are the ones that produce a string, the
    recorded score is the maximum of their two scores. *)
Theorem assemble_path_scores sequences kmer_size min_edge_weight path :
  let g := trim_low_weight_tails (build_graph sequences kmer_size) min_edge_weight in
  path ∈ enumerated_paths g →
  (∃ first rest chars,
     path = first :: rest
     ∧ Forall2 (λ n c, final_char n = Some c) rest chars
     ∧ path_string path = first +:+ string_of_list_ascii chars)
  ∧ path_score g path = edge_sum g path
  ∧ (∃ v best,
       path_scores_of g !! path_string path = Some v
       ∧ path_score g path ≤ v
       ∧ best ∈ enumerated_paths g
       ∧ path_string best = path_string path
       ∧ path_score g best = v)
  ∧ (∀ other,
       other ∈ enumerated_paths g →
       path_string other = path_string path →
       (∀ p, p ∈ enumerated_paths g → path_string p = path_string path →
             p = path ∨ p = other) →
       path_scores_of g !! path_string path
       = Some (Z.max (path_score g path) (path_score g other))).
Proof.
  intros g Hpath.
  assert (Hg : graph_ok g) by apply trim_low_weight_tails_ok, build_graph_ok.
  destruct (record_paths_spec g (enumerated_paths g) Hg) as [Hge Hmax].
  fold (path_scores_of g) in Hge, Hmax.
  split_and!.
  - pose proof (path_nodes_nonempty g path Hg Hpath) as Hne.
    destruct (enumerated_path_shape g path Hpath) as (first & rest & -> & _).
    destruct (path_string_chars first rest Hne) as (chars & ? & ?).
    by exists first, rest, chars.
  - apply path_score_edge_sum.
  - destruct (Hge path Hpath) as (v & Hv & Hle).
    destruct (Hmax _ _ Hv) as (best & ? & ? & ?). by exists v, best.
  - intros other Hother Hsame Honly.
    destruct (Hge path Hpath) as (v & Hv & Hle).
    destruct (Hge other Hother) as (v' & Hv' & Hle').
    rewrite Hsame, Hv in Hv'. injection Hv' as <-.
    destruct (Hmax _ _ Hv) as (best & Hbest & Hstr & Hscore).
    rewrite Hv. f_equal.
    destruct (Honly best Hbest Hstr) as [-> | ->]; lia.
Qed.

(** The path through the six nodes of the two overlapping reads. *)
Lemma assemble_path_scores_witness :
  let g := trim_low_weight_tails (build_graph overlapping_reads 10) 1 in
  let path := ["ACGTTGCAA"; "CGTTGCAAG"; "GTTGCAAGC"; "TTGCAAGCT"; "TGCAAGCTA";
               "GCAAGCTAA"]%string in
  path ∈ enumerated_paths g
  ∧ path_score g path = edge_sum g path
  ∧ ∃ v, path_scores_of g !! path_string path = Some v ∧ path_score g path ≤ v.
Proof.
  intros g path.
  assert (Hpath : path ∈ enumerated_paths g) by (vm_compute; left).
  destruct (assemble_path_scores overlapping_reads 10 1 path Hpath)
    as (_ & Hsum & (v & _ & Hv & Hle & _) & _).
  split_and!; [exact Hpath | exact Hsum | exists v; by split].
Defined.

(** *** The fuel of the trimming walk *)

Lemma remove_node_edges g n :
  degree g n ≠ 0%nat → (length (edges (remove_node g n)) < length (edges g))%nat.
Proof.
  intros Hdeg. simpl.
  assert (He : ∃ e, e ∈ edges g ∧ ¬ (e.1 ≠ n ∧ e.2 ≠ n)).
  { unfold degree, in_degree, out_degree, in_edges, out_edges in Hdeg.
    destruct (filter (λ e, e.2 = n) (edges g)) as [|e l] eqn:Hin.
    - destruct (filter (λ e, e.1 = n) (edges g)) as [|e l] eqn:Hout; [done|].
      assert (He : e ∈ filter (λ e, e.1 = n) (edges g)) by (rewrite Hout; left).
      apply list_elem_of_filter in He as [? ?]. exists e. naive_solver.
    - assert (He : e ∈ filter (λ e, e.2 = n) (edges g)) by (rewrite Hin; left).
      apply list_elem_of_filter in He as [? ?]. exists e. naive_solver. }
  destruct He as (e & He & Hne). clear Hdeg.
  induction (edges g) as [|e' l IH]; [by apply elem_of_nil in He|].
  rewrite filter_cons. pose proof (length_filter (λ e, e.1 ≠ n ∧ e.2 ≠ n) l) as Hle.
  apply elem_of_cons in He as [<-|He].
  - rewrite decide_False by done. simpl. lia.
  - specialize (IH He). case_decide; simpl; lia.
Qed.

(** The walk stops by itself before the fuel runs out: with more fuel than
    there are edges, more fuel changes nothing. *)
Lemma trim_walk_fuel min_weight fuel : ∀ fuel' g curr,
  (length (edges g) < fuel)%nat → (length (edges g) < fuel')%nat →
  trim_walk fuel min_weight g curr = trim_walk fuel' min_weight g curr.
Proof.
  induction fuel as [|fuel IH]; intros fuel' g curr Hf Hf'; [lia|].
  destruct fuel' as [|fuel']; [lia|]. simpl.
  case_bool_decide as Hdeg; [|done].
  assert (Hrm : ∀ n, n = curr →
            (length (edges (remove_node g n)) < fuel)%nat
            ∧ (length (edges (remove_node g n)) < fuel')%nat).
  { intros n ->. assert (degree g curr ≠ 0%nat) as Hne%remove_node_edges by lia. lia. }
  case_bool_decide as Hout.
  - destruct (out_edges g curr) as [|[c o] l] eqn:Hedges; [done|].
    destruct (_ <? _); [|done].
    assert (Hc : (c, o) ∈ out_edges g curr) by (rewrite Hedges; left).
    apply list_elem_of_filter in Hc as [Hc _]. simpl in Hc.
    destruct (Hrm c Hc). by apply IH.
  - case_bool_decide as Hin; [|done].
    destruct (in_edges g curr) as [|[o c] l] eqn:Hedges; [done|].
    destruct (_ <? _); [|done].
    assert (Hc : (o, c) ∈ in_edges g curr) by (rewrite Hedges; left).
    apply list_elem_of_filter in Hc as [Hc _]. simpl in Hc.
    destruct (Hrm c Hc). by apply IH.
Qed.


(** *** The nodes of the edges *)

Lemma elem_of_add_node_list n m l : n ∈ add_node_list m l ↔ n = m ∨ n ∈ l.
Proof.
  unfold add_node_list. case_bool_decide.
  - split; [by right | by intros [->|?]].
  - rewrite elem_of_app, list_elem_of_singleton. tauto.
Qed.

Lemma add_node_list_NoDup m l : NoDup l → NoDup (add_node_list m l).
Proof.
  intros Hl. unfold add_node_list. case_bool_decide; [done|].
  apply NoDup_app. split_and!; [done| |apply NoDup_singleton].
  intros x Hx ->%list_elem_of_singleton. done.
Qed.

Lemma add_kmer_edges_in_nodes g kmer : edges_in_nodes g → edges_in_nodes (add_kmer g kmer).
Proof.
  intros Hg a b Hin. unfold add_kmer, add_edge in *. simpl in *.
  rewrite !elem_of_add_node_list.
  assert (Hcases : (a, b) = (Py.slice_to kmer (-1), Py.slice_from kmer 1) ∨ (a, b) ∈ edges g).
  { case_bool_decide; [by right|].
    apply elem_of_app in Hin as [?|Hin]; [by right|].
    apply list_elem_of_singleton in Hin. by left. }
  destruct Hcases as [[= -> ->]|Hold]; [tauto|].
  destruct (Hg _ _ Hold). tauto.
Qed.

Lemma build_graph_edges_in_nodes sequences k : edges_in_nodes (build_graph sequences k).
Proof.
  unfold build_graph.
  assert (H0 : edges_in_nodes empty_graph) by (intros ? ? ?%elem_of_nil; done).
  revert H0. generalize empty_graph. induction sequences as [|s sequences IH];
    intros g Hg; simpl; [done|].
  apply IH. unfold add_sequence. revert g Hg.
  induction (kmers s k) as [|kmer l IHl]; intros g Hg; simpl; [done|].
  apply IHl. by apply add_kmer_edges_in_nodes.
Qed.

Lemma remove_node_edges_in_nodes g n : edges_in_nodes g → edges_in_nodes (remove_node g n).
Proof.
  intros Hg a b Hin. simpl in *.
  apply list_elem_of_filter in Hin as [[Ha Hb] Hin]. simpl in *.
  destruct (Hg _ _ Hin). split; by apply list_elem_of_filter.
Qed.

Lemma trim_walk_edges_in_nodes fuel w : ∀ g curr,
  edges_in_nodes g → edges_in_nodes (trim_walk fuel w g curr).
Proof.
  induction fuel as [|fuel IH]; intros g curr Hg; simpl; [done|].
  repeat case_bool_decide; try done.
  - destruct (out_edges g curr) as [|[c o] ?]; [done|].
    destruct (_ <? _); [|done]. apply IH. by apply remove_node_edges_in_nodes.
  - destruct (in_edges g curr) as [|[o c] ?]; [done|].
    destruct (_ <? _); [|done]. apply IH. by apply remove_node_edges_in_nodes.
Qed.

Lemma trim_low_weight_tails_edges_in_nodes g w :
  edges_in_nodes g → edges_in_nodes (trim_low_weight_tails g w).
Proof.
  intros Hg. unfold trim_low_weight_tails.
  assert (H1 : ∀ l g', edges_in_nodes g' → edges_in_nodes (foldl (trim_from w) g' l)).
  { induction l as [|n l IH]; intros g' Hg'; simpl; [done|]. apply IH.
    unfold trim_from. destruct (has_node g' n); [by apply trim_walk_edges_in_nodes|done]. }
  assert (H2 : ∀ l g', edges_in_nodes g' → edges_in_nodes (foldl drop_singleton g' l)).
  { induction l as [|n l IH]; intros g' Hg'; simpl; [done|]. apply IH.
    unfold drop_singleton. destruct (has_node g' n); [|done].
    case_bool_decide; [by apply remove_node_edges_in_nodes|done]. }
  apply H2, H1, Hg.
Qed.

(** *** The fuel of the path search *)

Lemma list_bind_ext_in {A B} (f h : A → list B) (l : list A) :
  (∀ x, x ∈ l → f x = h x) → l ≫= f = l ≫= h.
Proof.
  induction l as [|x l IH]; intros Hext; [done|]. cbn.
  rewrite (Hext x) by left. f_equal. apply IH. intros y Hy. apply Hext. by right.
Qed.

(** As long as the fuel and the path so far together exceed the number of
    nodes, more fuel finds the same paths. *)
Lemma simple_paths_from_fuel g target :
  edges_in_nodes g → target ∈ nodes g →
  ∀ fuel fuel' visited,
    NoDup visited → (∀ n, n ∈ visited → n ∈ nodes g) → target ∉ visited →
    (length (nodes g) < fuel + length visited)%nat →
    (length (nodes g) < fuel' + length visited)%nat →
    simple_paths_from fuel g visited target = simple_paths_from fuel' g visited target.
Proof.
  intros Hg Htarget.
  assert (Hbound : ∀ visited,
            NoDup visited → (∀ n, n ∈ visited → n ∈ nodes g) → target ∉ visited →
            (S (length visited) ≤ length (nodes g))%nat).
  { intros visited Hnd Hsub Hnot.
    change (S (length visited)) with (length (target :: visited)).
    apply submseteq_length, NoDup_submseteq; [by constructor|].
    intros n [->|Hn]%elem_of_cons; [done | by apply Hsub]. }
  induction fuel as [|fuel IH]; intros fuel' visited Hnd Hsub Hnot Hf Hf'.
  { specialize (Hbound visited Hnd Hsub Hnot). simpl in Hf. lia. }
  destruct fuel' as [|fuel'].
  { specialize (Hbound visited Hnd Hsub Hnot). simpl in Hf'. lia. }
  simpl. destruct visited as [|cur visited]; [done|].
  apply list_bind_ext_in. intros child Hchild.
  case_bool_decide as Ht; [done|]. case_bool_decide as Hv; [done|].
  assert (Hin : child ∈ nodes g).
  { unfold successors, out_edges in Hchild.
    apply list_elem_of_fmap in Hchild as ([a b] & -> & Hab).
    apply list_elem_of_filter in Hab as [_ Hab]. by destruct (Hg _ _ Hab). }
  apply IH.
  - by constructor.
  - intros n [->|Hn]%elem_of_cons; [done | by apply Hsub].
  - intros [?|?]%elem_of_cons; [by subst | done].
  - simpl in *. lia.
  - simpl in *. lia.
Qed.

(** The fuel of [all_simple_paths], the number of nodes, is enough. *)
Lemma all_simple_paths_fuel g source target fuel :
  edges_in_nodes g → source ∈ nodes g → target ∈ nodes g → source ≠ target →
  (length (nodes g) ≤ fuel)%nat →
  simple_paths_from fuel g [source] target = all_simple_paths g source target.
Proof.
  intros Hg Hs Ht Hne Hfuel. unfold all_simple_paths.
  apply simple_paths_from_fuel; try done.
  - apply NoDup_singleton.
  - by intros n ->%list_elem_of_singleton.
  - by intros ->%list_elem_of_singleton.
  - simpl. lia.
  - simpl. lia.
Qed.

(** *** The fuel of the component search *)

Lemma undirected_nodes_NoDup g : NoDup (undirected_nodes g).
Proof.
  unfold undirected_nodes.
  assert (H1 : ∀ (es : list (string * string)) l,
            NoDup l → NoDup (foldl (λ l e, add_node_list e.2 (add_node_list e.1 l)) l es)).
  { induction es as [|e es IH]; intros l Hl; simpl; [done|].
    by apply IH, add_node_list_NoDup, add_node_list_NoDup. }
  assert (H2 : ∀ (ns : list string) l,
            NoDup l → NoDup (foldl (λ l n, add_node_list n l) l ns)).
  { induction ns as [|n ns IH]; intros l Hl; simpl; [done|].
    by apply IH, add_node_list_NoDup. }
  apply H2, H1, NoDup_nil_2.
Qed.

Lemma elem_of_undirected_nodes g n :
  n ∈ undirected_nodes g
  ↔ n ∈ nodes g ∨ ∃ e, e ∈ nx_edges g ∧ (n = e.1 ∨ n = e.2).
Proof.
  unfold undirected_nodes.
  assert (H1 : ∀ (es : list (string * string)) l,
            n ∈ foldl (λ l e, add_node_list e.2 (add_node_list e.1 l)) l es
            ↔ n ∈ l ∨ ∃ e, e ∈ es ∧ (n = e.1 ∨ n = e.2)).
  { induction es as [|e es IH]; intros l; simpl.
    - split; [by left|]. intros [?|(e & ?%elem_of_nil & _)]; done.
    - rewrite IH, !elem_of_add_node_list. setoid_rewrite elem_of_cons. naive_solver. }
  assert (H2 : ∀ (ns : list string) l,
            n ∈ foldl (λ l n, add_node_list n l) l ns ↔ n ∈ l ∨ n ∈ ns).
  { induction ns as [|m ns IH]; intros l; simpl.
    - rewrite elem_of_nil. tauto.
    - rewrite IH, elem_of_add_node_list, elem_of_cons. tauto. }
  rewrite H2, H1, elem_of_nil. tauto.
Qed.

Lemma undirected_nodes_length g :
  edges_in_nodes g → (length (undirected_nodes g) ≤ length (nodes g))%nat.
Proof.
  intros Hg. apply submseteq_length, NoDup_submseteq; [apply undirected_nodes_NoDup|].
  intros n [?|(e & He & Hn)]%elem_of_undirected_nodes; [done|].
  unfold nx_edges in He. apply list_elem_of_bind in He as (m & He & _).
  apply list_elem_of_filter in He as [_ He]. destruct e as [a b].
  destruct (Hg _ _ He). by destruct Hn as [->| ->].
Qed.

Lemma filter_length_lt {A} (P Q : A → Prop) `{∀ x, Decision (P x)} `{∀ x, Decision (Q x)}
    (l : list A) m :
  (∀ x, P x → Q x) → m ∈ l → Q m → ¬ P m →
  (length (filter P l) < length (filter Q l))%nat.
Proof.
  intros HPQ Hm HQ HP.
  assert (Hle : ∀ k : list A, (length (filter P k) ≤ length (filter Q k))%nat).
  { induction k as [|x k IH]; [done|]. rewrite !filter_cons.
    destruct (decide (P x)) as [Hx|Hx].
    - rewrite decide_True by auto. simpl. lia.
    - destruct (decide (Q x)); simpl; lia. }
  induction l as [|x l IH]; [by apply elem_of_nil in Hm|].
  rewrite !filter_cons. apply elem_of_cons in Hm as [<-|Hm].
  - rewrite decide_False, decide_True by done. specialize (Hle l). simpl. lia.
  - specialize (IH Hm). destruct (decide (P x)) as [Hx|Hx].
    + rewrite decide_True by auto. simpl. lia.
    + destruct (decide (Q x)); simpl; lia.
Qed.

Lemma bfs_fixpoint g fuel seen : grow g seen = seen → bfs fuel g seen = seen.
Proof. intros Hfix. induction fuel as [|fuel IH]; simpl; [done|]. by rewrite Hfix. Qed.

(** A round that adds nothing ends the search; any other round takes a
    node from those not seen yet. With more rounds than such nodes the
    result is closed: one more round adds nothing. *)
Lemma bfs_closed g : ∀ fuel seen,
  (length (filter (λ m, m ∉ seen) (undirected_nodes g)) < fuel)%nat →
  grow g (bfs fuel g seen) = bfs fuel g seen.
Proof.
  induction fuel as [|fuel IH]; intros seen Hfuel; [lia|]. simpl.
  destruct (filter (λ m, (m ∉ seen) ∧ Exists (λ s, adjacent g s m) seen)
              (undirected_nodes g)) as [|m new] eqn:Hnew.
  - assert (Hfix : grow g seen = seen) by (unfold grow; rewrite Hnew; apply app_nil_r).
    rewrite Hfix, bfs_fixpoint by done. exact Hfix.
  - apply IH.
    assert (Hm : m ∈ filter (λ m, (m ∉ seen) ∧ Exists (λ s, adjacent g s m) seen)
                   (undirected_nodes g)) by (rewrite Hnew; left).
    apply list_elem_of_filter in Hm as [[Hm _] Hin].
    assert (Hgrown : m ∈ grow g seen).
    { unfold grow. rewrite Hnew. apply elem_of_app. right. left. }
    enough (length (filter (λ m, m ∉ grow g seen) (undirected_nodes g))
            < length (filter (λ m, m ∉ seen) (undirected_nodes g)))%nat by lia.
    apply (filter_length_lt _ _ _ m); [|done|done|tauto].
    intros x Hx Hs. apply Hx. unfold grow. apply elem_of_app. by left.
Qed.

(** The component of a node is closed under adjacency: the fuel of
    [component_of], the number of nodes, is enough. *)
Lemma component_of_closed g v :
  edges_in_nodes g → v ∈ undirected_nodes g →
  grow g (component_of g v) = component_of g v.
Proof.
  intros Hg Hv. unfold component_of. apply bfs_closed.
  pose proof (undirected_nodes_length g Hg) as Hlen.
  enough (length (filter (λ m, m ∉ [v]) (undirected_nodes g))
          < length (filter (λ _, True) (undirected_nodes g)))%nat as Hlt.
  { pose proof (length_filter (λ _ : string, True) (undirected_nodes g)). lia. }
  apply (filter_length_lt _ _ _ v); [done|done|done|].
  intros Hnot. apply Hnot. left.
Qed.

(** *** The acyclicity check *)

Lemma walk_predecessors g : ∀ rest a b,
  walk g a rest b →
  ∀ x, x ∈ rest ++ [b] → ∃ y, y ∈ a :: rest ∧ (y, x) ∈ edges g.
Proof.
  induction rest as [|n rest IH]; intros a b Hwalk x Hx; simpl in *.
  - apply list_elem_of_singleton in Hx as ->. exists a. split; [left | done].
  - destruct Hwalk as [Han Hwalk]. apply elem_of_cons in Hx as [->|Hx].
    + exists a. split; [left | done].
    + destruct (IH _ _ Hwalk x Hx) as (y & Hy & Hyx). exists y. split; [by right | done].
Qed.

Lemma remove_node_keeps (C : list string) g r :
  r ∉ C →
  (∀ x, x ∈ C → x ∈ nodes g ∧ ∃ y, y ∈ C ∧ (y, x) ∈ edges g) →
  ∀ x, x ∈ C → x ∈ nodes (remove_node g r) ∧ ∃ y, y ∈ C ∧ (y, x) ∈ edges (remove_node g r).
Proof.
  intros Hr Hinv x Hx. destruct (Hinv x Hx) as (Hn & y & Hy & Hyx). simpl. split.
  - apply list_elem_of_filter. split; [by intros -> | done].
  - exists y. split; [done|]. apply list_elem_of_filter. simpl.
    split; [split; by intros -> | done].
Qed.

Lemma peel_keeps (C : list string) g :
  (∀ x, x ∈ C → x ∈ nodes g ∧ ∃ y, y ∈ C ∧ (y, x) ∈ edges g) →
  ∀ x, x ∈ C → x ∈ nodes (peel g) ∧ ∃ y, y ∈ C ∧ (y, x) ∈ edges (peel g).
Proof.
  intros Hinv. unfold peel.
  assert (Hout : ∀ r, r ∈ filter (λ n, in_degree g n = 0%nat) (nodes g) → r ∉ C).
  { intros r [Hdeg _]%list_elem_of_filter Hr.
    destruct (Hinv r Hr) as (_ & y & _ & Hyr).
    unfold in_degree, in_edges in Hdeg. apply length_zero_iff_nil in Hdeg.
    assert (Hmem : (y, r) ∈ filter (λ e, e.2 = r) (edges g))
      by by apply list_elem_of_filter.
    rewrite Hdeg in Hmem. by apply elem_of_nil in Hmem. }
  revert Hout Hinv. generalize (filter (λ n, in_degree g n = 0%nat) (nodes g)).
  intros R. revert g. induction R as [|r R IH]; intros g Hout Hinv; simpl; [done|].
  apply IH.
  - intros r' Hr'. apply Hout. by right.
  - apply remove_node_keeps; [apply Hout; left | done].
Qed.

(** A graph with a cycle fails the acyclicity check: the nodes of the
    cycle are never peeled off. *)
Lemma has_cycle_not_acyclic g :
  edges_in_nodes g → has_cycle g → is_directed_acyclic_graph g = false.
Proof.
  intros Hg (a & rest & Hwalk).
  assert (Hinv : ∀ x, x ∈ a :: rest →
            x ∈ nodes g ∧ ∃ y, y ∈ a :: rest ∧ (y, x) ∈ edges g).
  { intros x Hx.
    destruct (walk_predecessors g rest a a Hwalk x) as (y & Hy & Hyx).
    { apply elem_of_app. apply elem_of_cons in Hx as [->|Hx]; [right; left | by left]. }
    split; [by destruct (Hg _ _ Hyx) | by exists y]. }
  unfold is_directed_acyclic_graph. apply bool_decide_eq_false.
  generalize (length (nodes g)). intros fuel. clear Hg Hwalk.
  revert g Hinv. induction fuel as [|fuel IH]; intros g Hinv Hnil; simpl in Hnil.
  - destruct (Hinv a) as [Ha _]; [left|]. rewrite Hnil in Ha. by apply elem_of_nil in Ha.
  - by apply (IH (peel g)); [apply peel_keeps|].
Qed.

(** *** Cyclic graphs *)

(** C2. Whenever the graph built from the sequences has a cycle, the
    acyclicity check of [assemble] fails, so the line that builds the
    exception for cyclic graphs is reached; the exception is built and
    never raised. On the read with a repeat of period two, whose graph for
    the k-mer size 10 that [assemble] chooses has a cycle, [assemble]
    returns, whatever the aligner: no warning and the empty list of
    contigs. *)
Theorem assemble_cyclic_returns {Aln : Type} `{Countable Aln}
    (nsb_align : string → string → Qc → list Aln) (match_percent : Aln → Qc)
    (reverse_complement : Aln → Aln) (min_match_quality : Qc) :
  (∀ sequences kmer_size,
     has_cycle (build_graph sequences kmer_size) →
     is_directed_acyclic_graph (build_graph sequences kmer_size) = false)
  ∧ choose_kmer_size None (min_seq_len "ATATATATATAT" []) = (10, [])
  ∧ has_cycle (build_graph repeat_reads 10)
  ∧ assemble nsb_align match_percent reverse_complement
      repeat_reads None 3 min_match_quality None None = ([], []).
Proof.
  split_and!.
  - intros sequences kmer_size. apply has_cycle_not_acyclic, build_graph_edges_in_nodes.
  - reflexivity.
  - exists "ATATATATA"%string, ["TATATATAT"%string]. split; vm_compute.
    + left.
    + right. left.
  - vm_compute. reflexivity.
Qed.

(** With the aligner that finds nothing. *)
Lemma assemble_cyclic_returns_witness :
  has_cycle (build_graph repeat_reads 10)
  ∧ is_directed_acyclic_graph (build_graph repeat_reads 10) = false
  ∧ sample_assemble repeat_reads None 3 (Qc_of_Z 1) None None = ([], []).
Proof.
  destruct (assemble_cyclic_returns (Aln := nat) no_alignment (λ _, 1%Qc) id (Qc_of_Z 1))
    as (Hcheck & _ & Hcycle & Hrun).
  split_and!; [exact Hcycle | exact (Hcheck repeat_reads 10 Hcycle) | exact Hrun].
Defined.

(** *** The simple paths *)

Lemma elem_of_successors g cur child : child ∈ successors g cur ↔ (cur, child) ∈ edges g.
Proof.
  unfold successors, out_edges. rewrite list_elem_of_fmap. split.
  - intros ([a b] & -> & [Ha Hab]%list_elem_of_filter). simpl in Ha. by subst.
  - intros Hin. exists (cur, child). split; [done|]. by apply list_elem_of_filter.
Qed.

(** What the search returns repeats no node and ends at the target. *)
Lemma simple_paths_from_simple g target fuel : ∀ visited p,
  NoDup visited → target ∉ visited →
  p ∈ simple_paths_from fuel g visited target →
  NoDup p ∧ last p = Some target.
Proof.
  induction fuel as [|fuel IH]; intros visited p Hnd Hnot Hp; simpl in Hp.
  - by apply elem_of_nil in Hp.
  - destruct visited as [|cur visited]; [by apply elem_of_nil in Hp|].
    apply list_elem_of_bind in Hp as (child & Hp & _).
    case_bool_decide as Ht.
    + apply list_elem_of_singleton in Hp as ->. split.
      * rewrite reverse_Permutation. by constructor.
      * by rewrite last_reverse.
    + case_bool_decide as Hv; [by apply elem_of_nil in Hp|].
      apply IH in Hp; [done | by constructor |].
      intros [?|?]%elem_of_cons; [by subst | done].
Qed.

(** Every walk along edges that repeats no node and ends at the target is
    found, given fuel for its length. *)
Lemma simple_paths_from_complete g target : ∀ steps fuel cur vis,
  Forall (λ e, e ∈ edges g) (path_edges (cur :: steps)) →
  last steps = Some target →
  NoDup (reverse vis ++ cur :: steps) →
  (length steps ≤ fuel)%nat →
  reverse vis ++ cur :: steps ∈ simple_paths_from fuel g (cur :: vis) target.
Proof.
  induction steps as [|b steps IH]; intros fuel cur vis Hchain Hlast Hnd Hfuel; [done|].
  destruct fuel as [|fuel]; [simpl in Hfuel; lia|]. simpl.
  rewrite path_edges_cons in Hchain. apply Forall_cons in Hchain as [Hedge Hchain].
  apply list_elem_of_bind. exists b. split; [|by apply elem_of_successors].
  apply NoDup_app in Hnd as (Hvis & Hdisj & Hrest).
  apply NoDup_cons in Hrest as [Hcur Hrest]. apply NoDup_cons in Hrest as [Hb Hsteps].
  destruct steps as [|c steps].
  - injection Hlast as ->. rewrite bool_decide_eq_true_2 by done.
    apply list_elem_of_singleton. rewrite !reverse_cons, <- app_assoc. reflexivity.
  - rewrite last_cons_cons in Hlast.
    assert (Hne : b ≠ target).
    { intros ->. apply Hb. by apply last_Some_elem_of. }
    rewrite bool_decide_eq_false_2 by done.
    rewrite bool_decide_eq_false_2.
    + replace (reverse vis ++ cur :: b :: c :: steps)
        with (reverse (cur :: vis) ++ b :: c :: steps)
        by (rewrite reverse_cons, <- app_assoc; reflexivity).
      apply IH; [done | done | | simpl in *; lia].
      rewrite reverse_cons, <- app_assoc. simpl.
      apply NoDup_app. split_and!; [exact Hvis | exact Hdisj |].
      constructor; [exact Hcur|]. constructor; [exact Hb | exact Hsteps].
    + intros [->|Hin]%elem_of_cons.
      * apply Hcur. left.
      * apply (Hdisj b); [by apply elem_of_reverse | right; left].
Qed.

(** [all_simple_paths] returns exactly the walks from the source along
    edges that repeat no node and end at the target. *)
Lemma all_simple_paths_spec g source target p :
  edges_in_nodes g → source ≠ target →
  p ∈ all_simple_paths g source target
  ↔ ∃ steps, p = source :: steps ∧ NoDup p ∧ last steps = Some target
              ∧ Forall (λ e, e ∈ edges g) (path_edges p).
Proof.
  intros Hg Hne. unfold all_simple_paths. split.
  - intros Hp.
    destruct (simple_paths_from_simple g target (length (nodes g)) [source] p)
      as [Hnd Hlast];
      [apply NoDup_singleton | by intros ->%list_elem_of_singleton | done |].
    apply simple_paths_from_chain in Hp as (steps & -> & Hsteps & Hchain).
    exists steps. simpl in *. split_and!; [done|done| |done].
    destruct steps; [done|]. by rewrite last_cons_cons in Hlast.
  - intros (steps & -> & Hnd & Hlast & Hchain).
    apply (simple_paths_from_complete g target steps _ source []); [done|done|done|].
    assert (Hlen : (length (source :: steps) ≤ length (nodes g))%nat).
    { apply submseteq_length, NoDup_submseteq; [done|].
      destruct steps as [|b steps]; [done|].
      assert (Hsteps : ∀ l a, Forall (λ e, e ∈ edges g) (path_edges (a :: l)) →
                ∀ n, n ∈ l → n ∈ nodes g).
      { induction l as [|c l IH]; intros a Hl n Hn; [by apply elem_of_nil in Hn|].
        rewrite path_edges_cons in Hl. apply Forall_cons in Hl as [Hac Hl].
        apply elem_of_cons in Hn as [->|Hn]; [by destruct (Hg _ _ Hac) | by eapply IH]. }
      intros n [->|Hn]%elem_of_cons; [|by eapply Hsteps].
      rewrite path_edges_cons in Hchain. apply Forall_cons in Hchain as [Hsb _].
      by destruct (Hg _ _ Hsb). }
    simpl in Hlen. lia.
Qed.

(** *** k-mers *)

Lemma slice_inside s (i size : nat) :
  (i + size ≤ String.length s)%nat →
  Py.slice s (Z.of_nat i) (Z.of_nat i + Z.of_nat size) = String.substring i size s.
Proof.
  intros Hle. unfold Py.slice, Py.slice_bound.
  destruct (Z.ltb_spec (Z.of_nat i) 0) as [?|_]; [lia|].
  destruct (Z.ltb_spec (Z.of_nat i + Z.of_nat size) 0) as [?|_]; [lia|].
  f_equal; lia.
Qed.

Lemma kmers_loop_seq s (size : nat) : ∀ n a,
  (0 < size)%nat → (a + n = String.length s)%nat →
  kmers_loop s (Z.of_nat size) (List.seq a n)
  = (λ i, String.substring i size s) <$> List.seq a (S (String.length s) - size - a).
Proof.
  induction n as [|n IH]; intros a Hsize Hlen; simpl.
  - replace (S (String.length s) - size - a)%nat with 0%nat by lia. reflexivity.
  - destruct (Z.gtb_spec (Z.of_nat a + Z.of_nat size) (Z.of_nat (String.length s)))
      as [Hgt|Hle].
    + replace (S (String.length s) - size - a)%nat with 0%nat by lia. reflexivity.
    + replace (S (String.length s) - size - a)%nat
        with (S (S (String.length s) - size - S a)) by lia.
      simpl. rewrite slice_inside by lia. f_equal. apply IH; lia.
Qed.

(** X1. [kmers(s, size)] for a size from 1 to the length of [s] is the
    list of the [len(s) - size + 1] substrings of length [size], by
    starting index; for a larger size it is empty. *)
Theorem kmers_spec (s : string) (size : nat) :
  (0 < size)%nat →
  ((String.length s < size)%nat → kmers s (Z.of_nat size) = [])
  ∧ ((size ≤ String.length s)%nat →
     kmers s (Z.of_nat size)
     = (λ i, String.substring i size s) <$> List.seq 0 (String.length s - size + 1)
     ∧ length (kmers s (Z.of_nat size)) = (String.length s - size + 1)%nat
     ∧ Forall (λ kmer, String.length kmer = size) (kmers s (Z.of_nat size))).
Proof.
  intros Hsize. unfold kmers.
  rewrite (kmers_loop_seq s size (String.length s) 0 Hsize eq_refl), Nat.sub_0_r.
  split.
  - intros Hlt. replace (S (String.length s) - size)%nat with 0%nat by lia. reflexivity.
  - intros Hle.
    replace (S (String.length s) - size)%nat with (String.length s - size + 1)%nat by lia.
    split_and!; [done | by rewrite length_fmap, length_seq |].
    apply Forall_fmap, Forall_forall. intros i Hi%elem_of_seq. simpl.
    rewrite substring_length. lia.
Qed.

(** The example of the docstring. *)
Lemma kmers_spec_witness :
  kmers "abcdef" 2 = ["ab"; "bc"; "cd"; "de"; "ef"]%string
  ∧ kmers "abcdef" 7 = [].
Proof.
  destruct (kmers_spec "abcdef" 2 ltac:(lia)) as [_ Hin].
  destruct (kmers_spec "abcdef" 7 ltac:(lia)) as [Hout _].
  split.
  - destruct Hin as (-> & _); [simpl; lia | reflexivity].
  - apply Hout. simpl. lia.
Defined.

(** *** Edge frequencies count k-mers *)

Lemma build_graph_foldl sequences k :
  build_graph sequences k = foldl add_kmer empty_graph (sequences ≫= λ s, kmers s k).
Proof.
  unfold build_graph. generalize empty_graph.
  induction sequences as [|s sequences IH]; intros g; [done|].
  cbn. rewrite foldl_app. apply IH.
Qed.

Lemma add_kmers_freq e (l : list string) : ∀ g,
  let occurrences :=
    filter (λ kmer, (Py.slice_to kmer (-1), Py.slice_from kmer 1) = e) l in
  edge_freq (foldl add_kmer g l) !! e
  = match occurrences with
    | [] => edge_freq g !! e
    | _ => Some (freq g e + Z.of_nat (length occurrences))
    end
  ∧ (e ∈ edges (foldl add_kmer g l) ↔ e ∈ edges g ∨ occurrences ≠ []).
Proof.
  induction l as [|kmer l IH]; intros g; simpl.
  - split; [done|]. rewrite filter_nil. naive_solver.
  - destruct (IH (add_kmer g kmer)) as [IHf IHe]. rewrite IHf, IHe. clear IH IHf IHe.
    rewrite filter_cons. unfold add_kmer, add_edge, freq. simpl.
    destruct (decide ((Py.slice_to kmer (-1), Py.slice_from kmer 1) = e)) as [<-|Hne].
    + rewrite lookup_insert_eq. simpl. split.
      * destruct (filter _ l); simpl; f_equal; lia.
      * case_bool_decide; [naive_solver|]. rewrite elem_of_app, list_elem_of_singleton.
        naive_solver.
    + rewrite lookup_insert_ne by done. split; [done|].
      case_bool_decide; [done|]. rewrite elem_of_app, list_elem_of_singleton.
      naive_solver.
Qed.

(** X2. In the graph that [assemble] builds, the frequency of an edge is
    the number of k-mers, over all the sequences and with repeats, whose
    first [k-1] characters are its source and whose last [k-1] characters
    are its target; the pairs with such a k-mer are exactly the edges, and
    each of them has its entry in [edge_freq]. *)
Theorem build_graph_edge_freq (sequences : list string) (kmer_size : Z)
    (e : string * string) :
  let occurrences :=
    filter (λ kmer, (Py.slice_to kmer (-1), Py.slice_from kmer 1) = e)
           (sequences ≫= λ s, kmers s kmer_size) in
  freq (build_graph sequences kmer_size) e = Z.of_nat (length occurrences)
  ∧ (e ∈ edges (build_graph sequences kmer_size) ↔ occurrences ≠ [])
  ∧ (e ∈ edges (build_graph sequences kmer_size) →
     edge_freq (build_graph sequences kmer_size) !! e
     = Some (Z.of_nat (length occurrences))).
Proof.
  intros occurrences. rewrite build_graph_foldl.
  destruct (add_kmers_freq e (sequences ≫= λ s, kmers s kmer_size) empty_graph)
    as [Hf He].
  fold occurrences in Hf, He. unfold freq at 1. rewrite Hf, He. simpl.
  rewrite elem_of_nil, lookup_empty. unfold freq. simpl. rewrite lookup_empty. simpl.
  split_and!.
  - by destruct occurrences.
  - naive_solver.
  - intros [[]|Hne]. destruct occurrences; [done|]. f_equal.
Qed.

(** The two overlapping reads share the 10-mer GTTGCAAGCT. *)
Lemma build_graph_edge_freq_witness :
  ("GTTGCAAGC", "TTGCAAGCT")%string ∈ edges (build_graph overlapping_reads 10)
  ∧ edge_freq (build_graph overlapping_reads 10) !! ("GTTGCAAGC", "TTGCAAGCT")%string
    = Some 2.
Proof.
  destruct (build_graph_edge_freq overlapping_reads 10 ("GTTGCAAGC", "TTGCAAGCT")%string)
    as (_ & Hin & Hfreq).
  assert (Hedge : ("GTTGCAAGC", "TTGCAAGCT")%string ∈ edges (build_graph overlapping_reads 10)).
  { apply Hin. vm_compute. discriminate. }
  split; [exact Hedge|]. rewrite (Hfreq Hedge). vm_compute. reflexivity.
Defined.

(** *** What trimming removes *)

Lemma remove_node_sub g n :
  edge_freq (remove_node g n) = edge_freq g
  ∧ nodes (remove_node g n) `sublist_of` nodes g
  ∧ edges (remove_node g n) `sublist_of` edges g.
Proof. split_and!; [done | apply sublist_filter | apply sublist_filter]. Qed.

Lemma trim_walk_sub w fuel : ∀ g curr,
  edge_freq (trim_walk fuel w g curr) = edge_freq g
  ∧ nodes (trim_walk fuel w g curr) `sublist_of` nodes g
  ∧ edges (trim_walk fuel w g curr) `sublist_of` edges g.
Proof.
  induction fuel as [|fuel IH]; intros g curr; simpl; [done|].
  assert (Hstep : ∀ n other,
            edge_freq (trim_walk fuel w (remove_node g n) other) = edge_freq g
            ∧ nodes (trim_walk fuel w (remove_node g n) other) `sublist_of` nodes g
            ∧ edges (trim_walk fuel w (remove_node g n) other) `sublist_of` edges g).
  { intros n other. destruct (IH (remove_node g n) other) as (Hf & Hn & He).
    destruct (remove_node_sub g n) as (Hf' & Hn' & He').
    split_and!; [congruence | by etrans | by etrans]. }
  repeat case_bool_decide; try done.
  - destruct (out_edges g curr) as [|[c o] ?]; [done|]. by destruct (_ <? _).
  - destruct (in_edges g curr) as [|[o c] ?]; [done|]. by destruct (_ <? _).
Qed.

Lemma foldl_graph_sub (step : DeBruijnGraph → string → DeBruijnGraph) :
  (∀ g n, edge_freq (step g n) = edge_freq g
          ∧ nodes (step g n) `sublist_of` nodes g
          ∧ edges (step g n) `sublist_of` edges g) →
  ∀ l g, edge_freq (foldl step g l) = edge_freq g
         ∧ nodes (foldl step g l) `sublist_of` nodes g
         ∧ edges (foldl step g l) `sublist_of` edges g.
Proof.
  intros Hstep. induction l as [|n l IH]; intros g; simpl; [done|].
  destruct (IH (step g n)) as (Hf & Hn & He). destruct (Hstep g n) as (Hf' & Hn' & He').
  split_and!; [congruence | by etrans | by etrans].
Qed.

Lemma trim_from_sub w g n :
  edge_freq (trim_from w g n) = edge_freq g
  ∧ nodes (trim_from w g n) `sublist_of` nodes g
  ∧ edges (trim_from w g n) `sublist_of` edges g.
Proof. unfold trim_from. destruct (has_node g n); [apply trim_walk_sub | done]. Qed.

Lemma drop_singleton_sub g n :
  edge_freq (drop_singleton g n) = edge_freq g
  ∧ nodes (drop_singleton g n) `sublist_of` nodes g
  ∧ edges (drop_singleton g n) `sublist_of` edges g.
Proof.
  unfold drop_singleton. destruct (has_node g n); [|done].
  case_bool_decide; [apply remove_node_sub | done].
Qed.

(** X3. [trim_low_weight_tails] only removes: what is left of the nodes
    and of the edges is a sub-list of what there was, in the same order,
    and [edge_freq] is not touched at all (it keeps the entries of the
    edges that went). *)
Theorem trim_low_weight_tails_only_removes (g : DeBruijnGraph) (min_weight : Z) :
  edge_freq (trim_low_weight_tails g min_weight) = edge_freq g
  ∧ nodes (trim_low_weight_tails g min_weight) `sublist_of` nodes g
  ∧ edges (trim_low_weight_tails g min_weight) `sublist_of` edges g.
Proof.
  unfold trim_low_weight_tails.
  destruct (foldl_graph_sub (trim_from min_weight) (trim_from_sub min_weight) (nodes g) g)
    as (Hf & Hn & He).
  destruct (foldl_graph_sub drop_singleton drop_singleton_sub
              (nodes (foldl (trim_from min_weight) g (nodes g)))
              (foldl (trim_from min_weight) g (nodes g))) as (Hf' & Hn' & He').
  split_and!; [congruence | by etrans | by etrans].
Qed.

(** *** What trimming keeps *)

Lemma degree_edges g g' n : edges g' = edges g → degree g' n = degree g n.
Proof.
  intros He. unfold degree, in_degree, out_degree, in_edges, out_edges. by rewrite He.
Qed.

Lemma degree_zero_untouched g n e :
  degree g n = 0%nat → e ∈ edges g → e.1 ≠ n ∧ e.2 ≠ n.
Proof.
  unfold degree, in_degree, out_degree, in_edges, out_edges. intros Hdeg He.
  assert (Hin : filter (λ e, e.2 = n) (edges g) = []) by (apply length_zero_iff_nil; lia).
  assert (Hout : filter (λ e, e.1 = n) (edges g) = []) by (apply length_zero_iff_nil; lia).
  split; intros Heq.
  - assert (Hmem : e ∈ filter (λ e, e.1 = n) (edges g)) by by apply list_elem_of_filter.
    rewrite Hout in Hmem. by apply elem_of_nil in Hmem.
  - assert (Hmem : e ∈ filter (λ e, e.2 = n) (edges g)) by by apply list_elem_of_filter.
    rewrite Hin in Hmem. by apply elem_of_nil in Hmem.
Qed.

Lemma filter_all {A} (P : A → Prop) `{∀ x, Decision (P x)} (l : list A) :
  (∀ x, x ∈ l → P x) → filter P l = l.
Proof.
  induction l as [|x l IH]; intros Hall; [done|].
  rewrite filter_cons, decide_True by (apply Hall; left).
  f_equal. apply IH. intros y Hy. apply Hall. by right.
Qed.

(** Removing a node without edges leaves the edges as they are. *)
Lemma remove_isolated_edges g n :
  degree g n = 0%nat → edges (remove_node g n) = edges g.
Proof.
  intros Hdeg. simpl. apply filter_all. intros e He.
  by apply (degree_zero_untouched g n).
Qed.

Lemma drop_singleton_edges g n : edges (drop_singleton g n) = edges g.
Proof.
  unfold drop_singleton. destruct (has_node g n); [|done].
  case_bool_decide; [by apply remove_isolated_edges | done].
Qed.

Lemma drop_singletons_edges l : ∀ g, edges (foldl drop_singleton g l) = edges g.
Proof.
  induction l as [|n l IH]; intros g; simpl; [done|].
  by rewrite IH, drop_singleton_edges.
Qed.

(** The node the walk removes has one edge, the light one it looked at:
    no other edge goes with it. *)
Lemma trim_walk_keeps w e fuel : ∀ g curr,
  e ∈ edges g → w ≤ freq g e → e ∈ edges (trim_walk fuel w g curr).
Proof.
  induction fuel as [|fuel IH]; intros g curr He Hw; simpl; [done|].
  case_bool_decide as Hdeg; [|done].
  unfold degree, in_degree, out_degree in *.
  case_bool_decide as Hout.
  - assert (Hin : in_edges g curr = []) by (apply length_zero_iff_nil; lia).
    destruct (out_edges g curr) as [|[c o] l] eqn:Hedges; [done|].
    destruct l; [|simpl in Hout; lia].
    destruct (Z.ltb_spec (freq g (c, o)) w) as [Hlow|_]; [|done].
    assert (Hc : (c, o) ∈ out_edges g curr) by (rewrite Hedges; left).
    apply list_elem_of_filter in Hc as [Hc _]. simpl in Hc. subst c.
    apply IH; [|done]. simpl. apply list_elem_of_filter. split; [|done]. split; intros Heq.
    + assert (Hmem : e ∈ out_edges g curr) by by apply list_elem_of_filter.
      rewrite Hedges in Hmem. apply list_elem_of_singleton in Hmem. subst e. lia.
    + assert (Hmem : e ∈ in_edges g curr) by by apply list_elem_of_filter.
      rewrite Hin in Hmem. by apply elem_of_nil in Hmem.
  - case_bool_decide as Hin'; [|done].
    assert (Hnone : out_edges g curr = []) by (apply length_zero_iff_nil; lia).
    destruct (in_edges g curr) as [|[o c] l] eqn:Hedges; [done|].
    destruct l; [|simpl in Hin'; lia].
    destruct (Z.ltb_spec (freq g (o, c)) w) as [Hlow|_]; [|done].
    assert (Hc : (o, c) ∈ in_edges g curr) by (rewrite Hedges; left).
    apply list_elem_of_filter in Hc as [Hc _]. simpl in Hc. subst c.
    apply IH; [|done]. simpl. apply list_elem_of_filter. split; [|done]. split; intros Heq.
    + assert (Hmem : e ∈ out_edges g curr) by by apply list_elem_of_filter.
      rewrite Hnone in Hmem. by apply elem_of_nil in Hmem.
    + assert (Hmem : e ∈ in_edges g curr) by by apply list_elem_of_filter.
      rewrite Hedges in Hmem. apply list_elem_of_singleton in Hmem. subst e. lia.
Qed.

(** X4. [trim_low_weight_tails(min_weight)] never removes an edge whose
    frequency is [min_weight] or more: every edge that goes was read with
    a frequency below [min_weight]. *)
Theorem trim_low_weight_tails_keeps_heavy (g : DeBruijnGraph) (min_weight : Z)
    (e : string * string) :
  e ∈ edges g → min_weight ≤ freq g e → e ∈ edges (trim_low_weight_tails g min_weight).
Proof.
  intros He Hw. unfold trim_low_weight_tails. rewrite drop_singletons_edges.
  assert (Hloop : ∀ l g', e ∈ edges g' → min_weight ≤ freq g' e →
            e ∈ edges (foldl (trim_from min_weight) g' l)).
  { induction l as [|n l IH]; intros g' He' Hw'; simpl; [done|].
    assert (Hfreq : edge_freq (trim_from min_weight g' n) = edge_freq g')
      by apply trim_from_sub.
    apply IH.
    - unfold trim_from. destruct (has_node g' n); [by apply trim_walk_keeps | done].
    - unfold freq in *. by rewrite Hfreq. }
  by apply Hloop.
Qed.

(** With the minimum weight 1 nothing of the two overlapping reads is
    trimmed. *)
Lemma trim_low_weight_tails_keeps_heavy_witness :
  ("ACGTTGCAA", "CGTTGCAAG")%string
    ∈ edges (trim_low_weight_tails (build_graph overlapping_reads 10) 1).
Proof.
  apply trim_low_weight_tails_keeps_heavy.
  - vm_compute. left.
  - vm_compute. discriminate.
Defined.

(** X5. After [trim_low_weight_tails] no node is left without an edge:
    every node that remains has an edge coming in or going out. *)
Theorem trim_low_weight_tails_no_singleton (g : DeBruijnGraph) (min_weight : Z)
    (n : string) :
  n ∈ nodes (trim_low_weight_tails g min_weight) →
  degree (trim_low_weight_tails g min_weight) n ≠ 0%nat.
Proof.
  unfold trim_low_weight_tails.
  generalize (foldl (trim_from min_weight) g (nodes g)). clear g. intros g.
  assert (Hloop : ∀ l g',
            (∀ m, m ∈ nodes (foldl drop_singleton g' l) → m ∈ nodes g')
            ∧ ∀ m, m ∈ nodes (foldl drop_singleton g' l) → m ∈ l → degree g' m ≠ 0%nat).
  { induction l as [|a l IHl]; intros g'; simpl.
    - split; [done|]. intros m _ Hm. by apply elem_of_nil in Hm.
    - assert (Hsub : ∀ m, m ∈ nodes (drop_singleton g' a) → m ∈ nodes g').
      { intros m Hm. destruct (drop_singleton_sub g' a) as (_ & Hn & _).
        by eapply elem_of_sublist. }
      destruct (IHl (drop_singleton g' a)) as [IHn IHd].
      split; [intros m Hm; by apply Hsub, IHn|].
      intros m Hm [->|Hl]%elem_of_cons.
      + apply IHn in Hm. unfold drop_singleton, has_node in Hm.
        case_bool_decide as Ha; [|done].
        case_bool_decide as Hdeg; [|done].
        simpl in Hm. apply list_elem_of_filter in Hm as [Hne _]. done.
      + rewrite <- (degree_edges g' (drop_singleton g' a)) by apply drop_singleton_edges.
        by apply IHd. }
  destruct (Hloop (nodes g) g) as [Hn Hd].
  intros Hin. rewrite (degree_edges g) by apply drop_singletons_edges.
  apply Hd; [done | by apply Hn].
Qed.

(** The first node of the two overlapping reads stays, with its edge. *)
Lemma trim_low_weight_tails_no_singleton_witness :
  degree (trim_low_weight_tails (build_graph overlapping_reads 10) 1) "ACGTTGCAA" ≠ 0%nat.
Proof.
  apply trim_low_weight_tails_no_singleton. vm_compute. left.
Defined.

(** *** The connected components *)

Lemma adjacent_sym g a b : adjacent g a b → adjacent g b a.
Proof. unfold adjacent. tauto. Qed.

Lemma connected_sym g a b : rtc (adjacent g) a b → rtc (adjacent g) b a.
Proof.
  induction 1 as [|a m b Ham _ IH]; [done|].
  etrans; [exact IH|]. by apply rtc_once, adjacent_sym.
Qed.

Lemma elem_of_grow g seen m :
  m ∈ grow g seen
  ↔ m ∈ seen ∨ ((m ∉ seen) ∧ m ∈ undirected_nodes g ∧ ∃ s, s ∈ seen ∧ adjacent g s m).
Proof.
  unfold grow. rewrite elem_of_app, list_elem_of_filter, Exists_exists. naive_solver.
Qed.

Lemma grow_NoDup g seen : NoDup seen → NoDup (grow g seen).
Proof.
  intros Hnd. unfold grow. apply NoDup_app. split_and!; [done| |].
  - intros x Hx [[Hnot _] _]%list_elem_of_filter. done.
  - apply NoDup_filter, undirected_nodes_NoDup.
Qed.

(** What a search from [seen] collects: [seen] itself, then only nodes
    of the graph, each connected to a node of [seen]; and no node twice. *)
Lemma bfs_spec g fuel : ∀ seen,
  (∀ x, x ∈ seen → x ∈ bfs fuel g seen)
  ∧ (∀ x, x ∈ bfs fuel g seen →
       (x ∈ seen ∨ x ∈ undirected_nodes g) ∧ ∃ s, s ∈ seen ∧ rtc (adjacent g) s x)
  ∧ (NoDup seen → NoDup (bfs fuel g seen)).
Proof.
  induction fuel as [|fuel IH]; intros seen; simpl.
  - split_and!; [done | | done]. intros x Hx. split; [by left|]. by exists x.
  - destruct (IH (grow g seen)) as (IH1 & IH2 & IH3). split_and!.
    + intros x Hx. apply IH1, elem_of_grow. by left.
    + intros x Hx. destruct (IH2 x Hx) as [Hwhere (s & Hs & Hreach)].
      apply elem_of_grow in Hs as [Hs|(_ & _ & s0 & Hs0 & Hadj)].
      * split; [|by exists s].
        destruct Hwhere as [[?|(_ & ? & _)]%elem_of_grow|?]; auto.
      * split; [|exists s0; split; [done|]; by eapply rtc_l].
        destruct Hwhere as [[?|(_ & ? & _)]%elem_of_grow|?]; auto.
    + intros Hnd. by apply IH3, grow_NoDup.
Qed.

(** A component is closed under the edges, in either direction. *)
Lemma component_of_adjacent g v a b :
  edges_in_nodes g → v ∈ undirected_nodes g →
  a ∈ component_of g v → adjacent g a b → b ∈ component_of g v.
Proof.
  intros Hg Hv Ha Hab. pose proof (component_of_closed g v Hg Hv) as Hclosed.
  destruct (decide (b ∈ component_of g v)) as [?|Hb]; [done|].
  assert (Hgrown : b ∈ grow g (component_of g v)).
  { apply elem_of_grow. right. split_and!; [done| |by exists a].
    apply elem_of_undirected_nodes. left.
    destruct Hab as [Hab|Hab]; by destruct (Hg _ _ Hab). }
  by rewrite Hclosed in Hgrown.
Qed.

Lemma component_of_connected g v a b :
  edges_in_nodes g → v ∈ undirected_nodes g →
  a ∈ component_of g v → rtc (adjacent g) a b → b ∈ component_of g v.
Proof.
  intros Hg Hv Ha Hab. induction Hab as [|a m b Ham _ IH]; [done|].
  apply IH. by eapply component_of_adjacent.
Qed.

(** The state of the loop over the nodes: the components so far and the
    nodes they hold. *)
Lemma next_component_loop g :
  edges_in_nodes g →
  ∀ l acc,
    (∀ v, v ∈ l → v ∈ undirected_nodes g) →
    (∀ x, x ∈ acc.2 ↔ ∃ c, c ∈ acc.1 ∧ x ∈ c) →
    (∀ c, c ∈ acc.1 → ∃ v, v ∈ undirected_nodes g ∧ c = component_of g v) →
    NoDup acc.1 →
    (∀ c1 c2 x, c1 ∈ acc.1 → c2 ∈ acc.1 → x ∈ c1 → x ∈ c2 → c1 = c2) →
    let acc' := foldl (next_component g) acc l in
    (∀ x, x ∈ acc'.2 ↔ ∃ c, c ∈ acc'.1 ∧ x ∈ c)
    ∧ (∀ c, c ∈ acc'.1 → ∃ v, v ∈ undirected_nodes g ∧ c = component_of g v)
    ∧ NoDup acc'.1
    ∧ (∀ c1 c2 x, c1 ∈ acc'.1 → c2 ∈ acc'.1 → x ∈ c1 → x ∈ c2 → c1 = c2)
    ∧ (∀ x, x ∈ acc.2 ∨ x ∈ l → x ∈ acc'.2).
Proof.
  intros Hg. induction l as [|v l IH]; intros acc Hl Hseen Hcomp Hnd Hdisj; cbn [foldl];
    cbv zeta.
  { split_and!; try done. intros x [?|?%elem_of_nil]; done. }
  assert (Hv : v ∈ undirected_nodes g) by (apply Hl; left).
  assert (Hl' : ∀ v, v ∈ l → v ∈ undirected_nodes g) by (intros; apply Hl; by right).
  assert (Hstep : next_component g acc v
                  = if bool_decide (v ∈ acc.2) then acc
                    else (acc.1 ++ [component_of g v], acc.2 ++ component_of g v))
    by reflexivity.
  rewrite Hstep. clear Hstep. case_bool_decide as Hin.
  { destruct (IH acc Hl' Hseen Hcomp Hnd Hdisj) as (? & ? & ? & ? & Hall).
    split_and!; try done. intros x [?|[-> |?]%elem_of_cons]; apply Hall; auto. }
  assert (Hself : v ∈ component_of g v) by (apply bfs_spec; left).
  assert (Hfresh : ∀ c x, c ∈ acc.1 → x ∈ c → x ∉ component_of g v).
  { intros c x Hc Hx Hx'. apply Hin, Hseen. exists c. split; [done|].
    destruct (Hcomp c Hc) as (u & Hu & ->).
    destruct (proj1 (proj2 (bfs_spec g (length (nodes g)) [v])) x Hx')
      as [_ (s & ->%list_elem_of_singleton & Hreach)].
    apply connected_sym in Hreach. by apply (component_of_connected g u x v). }
  destruct (IH (acc.1 ++ [component_of g v], acc.2 ++ component_of g v)) as
    (? & ? & ? & ? & Hall); simpl; try done.
  - intros x. rewrite elem_of_app, Hseen. setoid_rewrite elem_of_app.
    setoid_rewrite list_elem_of_singleton. naive_solver.
  - intros c [Hc| ->%list_elem_of_singleton]%elem_of_app; [by apply Hcomp | by exists v].
  - apply NoDup_app. split_and!; [done| |apply NoDup_singleton].
    intros c Hc ->%list_elem_of_singleton.
    destruct (Hcomp _ Hc) as (u & Hu & Heq). by apply (Hfresh _ v Hc).
  - intros c1 c2 x [H1| ->%list_elem_of_singleton]%elem_of_app
      [H2| ->%list_elem_of_singleton]%elem_of_app Hx1 Hx2.
    + by eapply Hdisj.
    + by destruct (Hfresh c1 x H1 Hx1).
    + by destruct (Hfresh c2 x H2 Hx2).
    + done.
  - split_and!; try done. intros x [Hx|[-> |Hx]%elem_of_cons]; apply Hall; simpl.
    + left. apply elem_of_app. by left.
    + left. apply elem_of_app. by right.
    + by right.
Qed.

(** X6. [digraph_connected_components] partitions the nodes: every node
    is in a component, a component holds only nodes and none twice, no
    two components share a node, each component is closed under the
    edges taken in either direction, and any two of its nodes are joined
    by a chain of such edges. *)
Theorem digraph_connected_components_partition (g : DeBruijnGraph) :
  edges_in_nodes g →
  let components := digraph_connected_components g in
  (∀ n, n ∈ nodes g → ∃ c, c ∈ components ∧ n ∈ c)
  ∧ (∀ c n, c ∈ components → n ∈ c → n ∈ nodes g)
  ∧ (∀ c, c ∈ components → NoDup c)
  ∧ NoDup components
  ∧ (∀ c1 c2 n, c1 ∈ components → c2 ∈ components → n ∈ c1 → n ∈ c2 → c1 = c2)
  ∧ (∀ c a b, c ∈ components → a ∈ c → adjacent g a b → b ∈ c)
  ∧ (∀ c a b, c ∈ components → a ∈ c → b ∈ c → rtc (adjacent g) a b).
Proof.
  intros Hg components. subst components. unfold digraph_connected_components.
  assert (Hsub : ∀ n, n ∈ undirected_nodes g → n ∈ nodes g).
  { intros n [?|(e & He & Hn)]%elem_of_undirected_nodes; [done|].
    unfold nx_edges in He. apply list_elem_of_bind in He as (m & He & _).
    apply list_elem_of_filter in He as [_ He]. destruct e as [a b].
    destruct (Hg _ _ He). by destruct Hn as [-> | ->]. }
  destruct (next_component_loop g Hg (undirected_nodes g) ([], []))
    as (Hseen & Hcomp & Hnd & Hdisj & Hall); simpl.
  - done.
  - intros x. rewrite elem_of_nil. split; [done|]. by intros (c & ?%elem_of_nil & _).
  - by intros c ?%elem_of_nil.
  - apply NoDup_nil_2.
  - by intros c1 c2 x ?%elem_of_nil.
  - split_and!; [| | |done|done| |].
    + intros n Hn. apply Hseen, Hall. right. apply elem_of_undirected_nodes. by left.
    + intros c n Hc Hn. destruct (Hcomp c Hc) as (v & Hv & ->).
      destruct (proj1 (proj2 (bfs_spec g (length (nodes g)) [v])) n Hn)
        as [[->%list_elem_of_singleton|?] _]; by apply Hsub.
    + intros c Hc. destruct (Hcomp c Hc) as (v & Hv & ->).
      apply bfs_spec, NoDup_singleton.
    + intros c a b Hc Ha Hab. destruct (Hcomp c Hc) as (v & Hv & ->).
      by eapply component_of_adjacent.
    + intros c a b Hc Ha Hb. destruct (Hcomp c Hc) as (v & Hv & ->).
      destruct (proj1 (proj2 (bfs_spec g (length (nodes g)) [v])) a Ha)
        as [_ (s & ->%list_elem_of_singleton & Hva)].
      destruct (proj1 (proj2 (bfs_spec g (length (nodes g)) [v])) b Hb)
        as [_ (s & ->%list_elem_of_singleton & Hvb)].
      etrans; [by apply connected_sym | done].
Qed.

(** The first node of the two overlapping reads has its component. *)
Lemma digraph_connected_components_partition_witness :
  ∃ c, c ∈ digraph_connected_components (build_graph overlapping_reads 10)
       ∧ "ACGTTGCAA"%string ∈ c.
Proof.
  destruct (digraph_connected_components_partition (build_graph overlapping_reads 10)
              (build_graph_edges_in_nodes overlapping_reads 10))
    as (Hcover & _).
  apply Hcover. vm_compute. left.
Defined.

(** X7. The paths that [assemble] enumerates are exactly the simple
    paths from a source to a sink of the same component: a path starts at
    a node without incoming edge, ends at a node with incoming and
    without outgoing edge, goes along edges of the graph and visits no
    node twice; and every such path is enumerated. *)
Theorem enumerated_paths_spec (g : DeBruijnGraph) (p : list string) :
  edges_in_nodes g →
  p ∈ enumerated_paths g
  ↔ ∃ component source sink steps,
      component ∈ digraph_connected_components g
      ∧ source ∈ component ∧ is_source g source
      ∧ sink ∈ component ∧ is_sink g sink
      ∧ p = source :: steps ∧ last steps = Some sink ∧ NoDup p
      ∧ Forall (λ e, e ∈ edges g) (path_edges p).
Proof.
  intros Hg. unfold enumerated_paths, component_paths, product, sources, sinks.
  assert (Hne : ∀ source sink, is_source g source → is_sink g sink → source ≠ sink).
  { intros source sink [_ Hin] (_ & Hin' & _) ->. done. }
  split.
  - intros Hp.
    apply list_elem_of_bind in Hp as (component & Hp & Hcomponent).
    apply list_elem_of_bind in Hp as ([s t] & Hp & Hst).
    apply list_elem_of_bind in Hst as (source & Hst & Hsource).
    apply list_elem_of_bind in Hst as (sink & Hst & Hsink).
    apply list_elem_of_singleton in Hst as [= -> ->].
    apply list_elem_of_filter in Hsource as [Hsource Hs].
    apply list_elem_of_filter in Hsink as [Hsink Ht].
    simpl in Hp. apply all_simple_paths_spec in Hp as (steps & -> & Hnd & Hlast & Hchain);
      [|done|by apply Hne].
    exists component, source, sink, steps. by split_and!.
  - intros (component & source & sink & steps & Hc & Hs & Hsource & Ht & Hsink
            & -> & Hlast & Hnd & Hchain).
    apply list_elem_of_bind. exists component. split; [|done].
    apply list_elem_of_bind. exists (source, sink). split.
    + simpl. apply all_simple_paths_spec; [done | by apply Hne |]. by exists steps.
    + apply list_elem_of_bind. exists source. split; [|by apply list_elem_of_filter].
      apply list_elem_of_bind. exists sink. split; [left | by apply list_elem_of_filter].
Qed.

(** The one path of the two overlapping reads. *)
Lemma enumerated_paths_spec_witness :
  ∃ component source sink steps,
    component ∈ digraph_connected_components
                  (trim_low_weight_tails (build_graph overlapping_reads 10) 1)
    ∧ source ∈ component ∧ sink ∈ component
    ∧ ["ACGTTGCAA"; "CGTTGCAAG"; "GTTGCAAGC"; "TTGCAAGCT"; "TGCAAGCTA";
       "GCAAGCTAA"]%string = source :: steps
    ∧ last steps = Some sink.
Proof.
  destruct (proj1 (enumerated_paths_spec
                     (trim_low_weight_tails (build_graph overlapping_reads 10) 1)
                     ["ACGTTGCAA"; "CGTTGCAAG"; "GTTGCAAGC"; "TTGCAAGCT"; "TGCAAGCTA";
                      "GCAAGCTAA"]%string
                     (trim_low_weight_tails_edges_in_nodes _ 1
                        (build_graph_edges_in_nodes overlapping_reads 10))))
    as (component & source & sink & steps & Hc & Hs & _ & Ht & _ & Hp & Hlast & _).
  - vm_compute. left.
  - exists component, source, sink, steps. by split_and!.
Defined.

(** *** The returned contigs *)

Lemma append_length (a b : string) :
  String.length (a +:+ b) = (String.length a + String.length b)%nat.
Proof. induction a as [|c a IH]; simpl; [done|]. by rewrite IH. Qed.

Lemma string_of_list_ascii_length (l : list ascii) :
  String.length (string_of_list_ascii l) = length l.
Proof. induction l as [|c l IH]; simpl; [done|]. by rewrite IH. Qed.

(** Every edge along a path counts once at least. *)
Lemma edge_sum_edges g path :
  graph_ok g → Forall (λ e, e ∈ edges g) (path_edges path) →
  Z.of_nat (length (path_edges path)) ≤ edge_sum g path.
Proof.
  intros Hg. unfold edge_sum. induction (path_edges path) as [|[a b] l IH];
    intros Hall; cbn [foldr length]; [lia|].
  apply Forall_cons in Hall as [He Hall]. specialize (IH Hall).
  pose proof (in_edge_freq g a b Hg He) as Hf. destruct Hg as [Hpos _].
  apply Hpos in Hf. lia.
Qed.

Section ContigFacts.
Context {Aln : Type} `{Countable Aln}.
Variable nsb_align : string → string → Qc → list Aln.
Variable match_percent : Aln → Qc.
Variable reverse_complement : Aln → Aln.

(** X8. No two contigs that [assemble] returns have the same sequence. *)
Theorem assemble_contigs_distinct (sequences : list string) (kmer_size : option Z)
    (min_edge_weight : Z) (min_match_quality : Qc)
    (min_read_mapping_overlap min_contig_length : option Z) :
  NoDup (seq <$> (assemble nsb_align match_percent reverse_complement sequences kmer_size
                    min_edge_weight min_match_quality min_read_mapping_overlap
                    min_contig_length).2).
Proof.
  unfold assemble. destruct sequences as [|s0 rest]; [apply NoDup_nil_2|].
  destruct (choose_kmer_size kmer_size (min_seq_len s0 rest)) as [k w1].
  cbn [fst snd].
  set (contigs := foldl _ _ _).
  assert (Hkeys : map_Forall (λ key (c : Contig (Aln := Aln)), seq c = key) contigs).
  { subst contigs. apply (remap_read_Forall _ _ _ (λ key c, seq c = key)); [done|].
    intros key c. unfold select_contigs. rewrite map_lookup_imap.
    destruct (path_scores_of _ !! key) as [sc|]; simpl; [|done].
    case_bool_decide; [|done]. by intros [= <-]. }
  assert (Heq : seq <$> (map_to_list contigs).*2 = (map_to_list contigs).*1).
  { rewrite <- list_fmap_compose. apply list_fmap_ext.
    intros i [key c] Hi. simpl. apply (Hkeys key c).
    apply elem_of_map_to_list. by eapply list_elem_of_lookup_2. }
  rewrite Heq. apply NoDup_fst_map_to_list.
Qed.

(** X9. The score of a contig that [assemble] returns is the sum of the
    edge frequencies along an enumerated path that spells it; every edge
    of the path counts once at least, so the score is at least the number
    of characters the contig is longer than the first node of its path,
    and at least 1. *)
Theorem assemble_contig_score (s0 : string) (rest : list string) (kmer_size : option Z)
    (min_edge_weight : Z) (min_match_quality : Qc)
    (min_read_mapping_overlap min_contig_length : option Z)
    (contig : Contig (Aln := Aln)) :
  let sequences := s0 :: rest in
  let k := (choose_kmer_size kmer_size (min_seq_len s0 rest)).1 in
  let g := trim_low_weight_tails (build_graph sequences k) min_edge_weight in
  contig ∈ (assemble nsb_align match_percent reverse_complement sequences kmer_size
              min_edge_weight min_match_quality min_read_mapping_overlap
              min_contig_length).2 →
  ∃ first steps,
    first :: steps ∈ enumerated_paths g
    ∧ path_string (first :: steps) = seq contig
    ∧ edge_sum g (first :: steps) = score contig
    ∧ String.length (seq contig) = (String.length first + length steps)%nat
    ∧ Z.of_nat (length steps) ≤ score contig
    ∧ 1 ≤ score contig.
Proof.
  intros sequences k g Hin.
  apply assemble_contigs in Hin as (Hscore & _). fold sequences k g in Hscore.
  assert (Hg : graph_ok g) by apply trim_low_weight_tails_ok, build_graph_ok.
  destruct (record_paths_spec g (enumerated_paths g) Hg) as [_ Hmax].
  destruct (Hmax _ _ Hscore) as (path & Hpath & Hstring & Hsum).
  pose proof (path_nodes_nonempty g path Hg Hpath) as Hne.
  destruct (enumerated_path_shape g path Hpath) as (first & steps & -> & Hsteps & _ & Hchain).
  destruct (path_string_chars first steps Hne) as (chars & Hchars & Hspell).
  pose proof (edge_sum_edges g (first :: steps) Hg Hchain) as Hedges.
  assert (Hlen : length (path_edges (first :: steps)) = length steps).
  { unfold path_edges. rewrite length_zip. cbn [tail length]. lia. }
  rewrite path_score_edge_sum in Hsum.
  exists first, steps. split_and!; [done|done|done| |lia|].
  - rewrite <- Hstring, Hspell, append_length, string_of_list_ascii_length.
    by rewrite (Forall2_length _ _ _ Hchars).
  - destruct steps; [done|]. simpl in *. lia.
Qed.

End ContigFacts.

(** The contig of the two overlapping reads: six edges, score 6. *)
Lemma assemble_contig_score_witness :
  ∃ first steps,
    path_string (first :: steps) = "ACGTTGCAAGCTAA"%string
    ∧ Z.of_nat (length steps) ≤ 6.
Proof.
  assert (Hin : new_contig "ACGTTGCAAGCTAA" 6
                  ∈ (sample_assemble overlapping_reads None 1 (Qc_of_Z 1) None None).2)
    by (vm_compute; left).
  destruct (assemble_contig_score (Aln := nat) no_alignment (λ _, 1%Qc) id
              "ACGTTGCAAGCT" ["GTTGCAAGCTAA"%string] None 1 (Qc_of_Z 1) None None
              (new_contig "ACGTTGCAAGCTAA" 6) Hin)
    as (first & steps & _ & Hstring & _ & _ & Hle & _).
  exists first, steps. split; [exact Hstring | exact Hle].
Defined.

(** *** Remapped reads *)

Section AddMappedRead.
Context {Aln : Type} `{Countable Aln}.
Variable reverse_complement : Aln → Aln.

Lemma add_mapped_read_keys (c : Contig (Aln := Aln)) (read : Aln) (multimap : nat) k :
  is_Some (remapped_reads (add_mapped_read reverse_complement c read multimap) !! k)
  ↔ is_Some (remapped_reads c !! k)
    ∨ k = (if decide (is_Some (remapped_reads c !! reverse_complement read))
           then reverse_complement read else read).
Proof.
  unfold add_mapped_read. simpl.
  destruct (decide (is_Some (remapped_reads c !! reverse_complement read))) as [Hrc|Hrc];
    [rewrite bool_decide_eq_true_2 by done | rewrite bool_decide_eq_false_2 by done].
  - destruct (decide (reverse_complement read = k)) as [->|Hne].
    + rewrite lookup_insert_eq. naive_solver.
    + rewrite lookup_insert_ne by done. naive_solver.
  - destruct (decide (read = k)) as [->|Hne].
    + rewrite lookup_insert_eq. naive_solver.
    + rewrite lookup_insert_ne by done. naive_solver.
Qed.

(** X10. [Contig.add_mapped_read(read, multimap)] for a positive
    [multimap] (Python divides by zero otherwise) keeps every entry of
    [remapped_reads] and raises no weight; it adds at most one key, the
    reverse complement of the read when that is a key already and the
    read itself otherwise; the weight under that key is then at most
    [1 / multimap], and at most 1. The sequence and the score stay. *)
Theorem add_mapped_read_spec (c : Contig (Aln := Aln)) (read : Aln) (multimap : nat) :
  (0 < multimap)%nat →
  let c' := add_mapped_read reverse_complement c read multimap in
  let rc := reverse_complement read in
  let key := if decide (is_Some (remapped_reads c !! rc)) then rc else read in
  seq c' = seq c
  ∧ score c' = score c
  ∧ (∀ k q, remapped_reads c !! k = Some q →
       ∃ q', remapped_reads c' !! k = Some q' ∧ (q' ≤ q)%Qp)
  ∧ (∀ k, is_Some (remapped_reads c' !! k) ↔ is_Some (remapped_reads c !! k) ∨ k = key)
  ∧ (∃ q, remapped_reads c' !! key = Some q
          ∧ (q ≤ 1 / pos_to_Qp (Pos.of_nat multimap))%Qp ∧ (q ≤ 1)%Qp).
Proof.
  intros Hpos c' rc key. subst c'. unfold add_mapped_read. simpl. fold rc.
  assert (Hkey : (if bool_decide (is_Some (remapped_reads c !! rc)) then rc else read) = key).
  { subst key. by destruct (decide (is_Some (remapped_reads c !! rc)));
      [rewrite bool_decide_eq_true_2 | rewrite bool_decide_eq_false_2]. }
  rewrite Hkey. clear Hkey. generalize key. clear key. intros key.
  split_and!; [done|done| | |].
  - intros k q Hk. destruct (decide (key = k)) as [->|Hne].
    + rewrite lookup_insert_eq, Hk. simpl. eexists. split; [done|]. apply Qp.le_min_l.
    + rewrite lookup_insert_ne by done. by exists q.
  - intros k. destruct (decide (key = k)) as [->|Hne].
    + rewrite lookup_insert_eq. naive_solver.
    + rewrite lookup_insert_ne by done. naive_solver.
  - rewrite lookup_insert_eq. eexists. split_and!; [done|apply Qp.le_min_r|].
    etrans; [apply Qp.le_min_r|]. apply Qp.div_le.
    apply pos_to_Qp_inj_le, Pos.le_1_l.
Qed.

End AddMappedRead.

Section RemapFacts.
Context {Aln : Type} `{Countable Aln}.
Variable nsb_align : string → string → Qc → list Aln.
Variable match_percent : Aln → Qc.
Variable reverse_complement : Aln → Aln.

(** X11. When the reverse complement is an involution, no contig that
    [assemble] returns has both an alignment and its reverse complement
    among its remapped reads: an alignment whose reverse complement is
    another alignment is recorded under one of the two only. *)
Theorem assemble_reverse_complement_once (sequences : list string) (kmer_size : option Z)
    (min_edge_weight : Z) (min_match_quality : Qc)
    (min_read_mapping_overlap min_contig_length : option Z)
    (contig : Contig (Aln := Aln)) (a : Aln) :
  (∀ x, reverse_complement (reverse_complement x) = x) →
  contig ∈ (assemble nsb_align match_percent reverse_complement sequences kmer_size
              min_edge_weight min_match_quality min_read_mapping_overlap
              min_contig_length).2 →
  is_Some (remapped_reads contig !! a) →
  reverse_complement a ≠ a →
  remapped_reads contig !! reverse_complement a = None.
Proof.
  intros Hinv Hin Ha Hne. unfold assemble in Hin.
  destruct sequences as [|s0 rest]; [by apply elem_of_nil in Hin|].
  destruct (choose_kmer_size kmer_size (min_seq_len s0 rest)) as [k w1].
  cbn [fst snd] in Hin.
  apply list_elem_of_fmap in Hin as ([key c] & -> & Hin).
  apply elem_of_map_to_list in Hin. cbn [snd] in *.
  set (P := λ (_ : string) (c : Contig (Aln := Aln)),
         ∀ x, is_Some (remapped_reads c !! x) →
              is_Some (remapped_reads c !! reverse_complement x) →
              reverse_complement x = x).
  assert (HP : P key c).
  { eapply (remap_read_Forall _ _ _ P); [| |exact Hin].
    - intros key0 c0 read n Hc x Hx Hrx. unfold P in Hc.
      apply add_mapped_read_keys in Hx. apply add_mapped_read_keys in Hrx.
      destruct (decide (is_Some (remapped_reads c0 !! reverse_complement read)))
        as [Hrc|Hrc].
      + apply Hc.
        * by destruct Hx as [?| ->].
        * destruct Hrx as [?|Heq]; [done|]. by rewrite Heq.
      + destruct Hx as [Hx| ->], Hrx as [Hrx|Heq].
        * by apply Hc.
        * destruct Hrc. by rewrite <- Heq, Hinv.
        * done.
        * done.
    - intros key' c'. unfold select_contigs. rewrite map_lookup_imap.
      destruct (path_scores_of _ !! key') as [sc|]; simpl; [|done].
      case_bool_decide; [|done]. intros [= <-] x. simpl. rewrite lookup_empty.
      by intros [? ?]. }
  destruct (remapped_reads c !! reverse_complement a) eqn:Hrc; [|done].
  destruct Hne. by apply HP.
Qed.

End RemapFacts.

(** Both reads align to the contig of the two overlapping reads; the
    alignment [true] is recorded, its reverse complement [false] is not. *)
Lemma add_mapped_read_spec_witness :
  ∃ q, remapped_reads (add_mapped_read negb (new_contig "ACGT" 1) true 2) !! true = Some q
       ∧ (q ≤ 1 / 2)%Qp.
Proof.
  destruct (add_mapped_read_spec negb (new_contig "ACGT" 1) true 2 ltac:(lia))
    as (_ & _ & _ & _ & q & Hq & Hle & _).
  exists q. split; [exact Hq | exact Hle].
Defined.

Lemma assemble_reverse_complement_once_witness :
  remapped_reads
    {| seq := "ACGTTGCAAGCTAA"; remapped_reads := {[true := 1%Qp]}; score := 6 |}
    !! false = None.
Proof.
  apply (assemble_reverse_complement_once always_aligned (λ _, 1%Qc) negb
           overlapping_reads None 1 (Qc_of_Z 1) None None _ true).
  - by intros [].
  - vm_compute. left.
  - vm_compute. eauto.
  - discriminate.
Defined.

(** *** The end of the trimming walk *)

(** X23. The [while] loop of [trim_low_weight_tails] ends: every turn
    that does not leave the loop removes a node that has exactly one
    edge, and that edge with it, so the loop takes no more turns than the
    graph has edges; given more turns than that, the result is the same
    whatever their number, and it is the result of the walk that
    [trim_low_weight_tails] makes from a node of the graph. *)
Theorem trim_walk_terminates (g : DeBruijnGraph) (min_weight : Z) (n : string)
    (fuel : nat) :
  (length (edges g) < fuel)%nat →
  trim_walk fuel min_weight g n = trim_walk (S (length (edges g))) min_weight g n
  ∧ (n ∈ nodes g → trim_walk fuel min_weight g n = trim_from min_weight g n)
  ∧ (length (edges (trim_walk fuel min_weight g n)) ≤ length (edges g))%nat.
Proof.
  intros Hfuel.
  assert (Heq : trim_walk fuel min_weight g n
                = trim_walk (S (length (edges g))) min_weight g n)
    by (apply trim_walk_fuel; lia).
  split_and!; [done| |].
  - intros Hn. unfold trim_from, has_node. by rewrite bool_decide_eq_true_2.
  - apply sublist_length, trim_walk_sub.
Qed.

(** A hundred turns from the first node of the two overlapping reads. *)
Lemma trim_walk_terminates_witness :
  trim_walk 100 3 (build_graph overlapping_reads 10) "ACGTTGCAA"
  = trim_from 3 (build_graph overlapping_reads 10) "ACGTTGCAA".
Proof.
  destruct (trim_walk_terminates (build_graph overlapping_reads 10) 3 "ACGTTGCAA" 100)
    as (_ & Hfrom & _); [vm_compute; lia|].
  apply Hfrom. vm_compute. left.
Defined.

(** *** Removing an edge *)

(** X24. [remove_edge(n1, n2)] fails with a KeyError, changing nothing,
    when [edge_freq] has no entry for the edge. After [add_edge(n1, n2)]
    it succeeds, and the edge and its whole frequency are gone, also when
    the edge had been there before with a frequency of its own (the
    frequency is not counted down), while the nodes and all other edges
    and frequencies stay. When the entry is there and the edge is not, as
    after [remove_node], it deletes the entry and then fails with the
    error of networkx. *)
Theorem remove_edge_spec (g : DeBruijnGraph) (n1 n2 : string) :
  (edge_freq g !! (n1, n2) = None →
   remove_edge g n1 n2 = (g, Some (KeyError (n1, n2))))
  ∧ (∀ f,
       let removed := remove_edge (add_edge g n1 n2 f) n1 n2 in
       removed.2 = None
       ∧ ((n1, n2) ∉ edges removed.1)
       ∧ freq removed.1 (n1, n2) = 0
       ∧ edge_freq removed.1 = delete (n1, n2) (edge_freq g)
       ∧ nodes removed.1 = nodes (add_edge g n1 n2 f)
       ∧ ∀ e, e ≠ (n1, n2) →
              (e ∈ edges removed.1 ↔ e ∈ edges g) ∧ freq removed.1 e = freq g e)
  ∧ (is_Some (edge_freq g !! (n1, n2)) → (n1, n2) ∉ edges g →
     (remove_edge g n1 n2).2 = Some (NetworkXError n1 n2)
     ∧ edge_freq (remove_edge g n1 n2).1 = delete (n1, n2) (edge_freq g)
     ∧ edges (remove_edge g n1 n2).1 = edges g)
  ∧ (is_Some (edge_freq g !! (n1, n2)) →
     (remove_edge (remove_node g n1) n1 n2).2 = Some (NetworkXError n1 n2)).
Proof.
  split_and!.
  - intros Hnone. unfold remove_edge. by rewrite Hnone.
  - intros f removed. subst removed. unfold remove_edge, add_edge. simpl.
    rewrite lookup_insert_eq.
    assert (Hin : (n1, n2) ∈ (if bool_decide ((n1, n2) ∈ edges g) then edges g
                              else edges g ++ [(n1, n2)])).
    { case_bool_decide; [done|]. apply elem_of_app. right. left. }
    rewrite (bool_decide_eq_true_2 _ Hin). simpl. split_and!.
    + done.
    + intros [Hne _]%list_elem_of_filter. done.
    + unfold freq. simpl. by rewrite lookup_delete_eq.
    + by rewrite delete_insert_eq.
    + done.
    + intros e He. split.
      * rewrite list_elem_of_filter. case_bool_decide; [naive_solver|].
        rewrite elem_of_app, list_elem_of_singleton. naive_solver.
      * unfold freq. simpl. rewrite lookup_delete_ne by done.
        by rewrite lookup_insert_ne.
  - intros [v Hv] Hnot. unfold remove_edge. rewrite Hv.
    by rewrite bool_decide_eq_false_2.
  - intros [v Hv]. unfold remove_edge. simpl. rewrite Hv.
    rewrite bool_decide_eq_false_2; [done|].
    intros [[Hne _] _]%list_elem_of_filter. done.
Qed.

(** The edge that the two overlapping reads share, counted twice, is
    gone after one removal. *)
Lemma remove_edge_spec_witness :
  freq (remove_edge (build_graph overlapping_reads 10) "GTTGCAAGC" "TTGCAAGCT").1
       ("GTTGCAAGC", "TTGCAAGCT")%string = 0
  ∧ (remove_edge (remove_node (build_graph overlapping_reads 10) "GTTGCAAGC")
       "GTTGCAAGC" "TTGCAAGCT").2
    = Some (NetworkXError "GTTGCAAGC" "TTGCAAGCT").
Proof.
  split; [vm_compute; reflexivity|].
  destruct (remove_edge_spec (build_graph overlapping_reads 10) "GTTGCAAGC" "TTGCAAGCT")
    as (_ & _ & _ & Hstale).
  apply Hstale. vm_compute. eauto.
Defined.

(** *** Reads of one base *)

Lemma kmers_loop_elem s size kmer : ∀ indices,
  kmer ∈ kmers_loop s size indices →
  ∃ i : nat, kmer = Py.slice s (Z.of_nat i) (Z.of_nat i + size).
Proof.
  induction indices as [|i indices IH]; simpl; [by intros ?%elem_of_nil|].
  destruct (_ >? _); [by intros ?%elem_of_nil|].
  intros [->|Hin]%elem_of_cons; [by exists i | by apply IH].
Qed.

Lemma kmers_length_le s size kmer :
  0 ≤ size → kmer ∈ kmers s size → Z.of_nat (String.length kmer) ≤ size.
Proof.
  intros Hsize [i ->]%kmers_loop_elem. unfold Py.slice, Py.slice_bound.
  rewrite substring_length.
  destruct (Z.ltb_spec (Z.of_nat i) 0); [lia|].
  destruct (Z.ltb_spec (Z.of_nat i + size) 0); lia.
Qed.

(** A k-mer of one character at most gives the empty node twice. *)
Lemma short_kmer_nodes kmer :
  (String.length kmer ≤ 1)%nat →
  Py.slice_to kmer (-1) = EmptyString ∧ Py.slice_from kmer 1 = EmptyString.
Proof.
  destruct kmer as [|c [|c' kmer]]; simpl; intros Hlen; [done|done|lia].
Qed.

(** The graph of such k-mers: nothing, or the empty node with its loop. *)
Lemma short_kmers_graph (l : list string) :
  Forall (λ kmer, (String.length kmer ≤ 1)%nat) l →
  ∀ g,
    (nodes g = [] ∧ edges g = []
     ∨ nodes g = [EmptyString] ∧ edges g = [(EmptyString, EmptyString)]) →
    nodes (foldl add_kmer g l) = [] ∧ edges (foldl add_kmer g l) = []
    ∨ nodes (foldl add_kmer g l) = [EmptyString]
      ∧ edges (foldl add_kmer g l) = [(EmptyString, EmptyString)].
Proof.
  induction 1 as [|kmer l Hkmer _ IH]; intros g Hg; simpl; [done|].
  apply IH. right. unfold add_kmer, add_edge.
  destruct (short_kmer_nodes kmer Hkmer) as [-> ->]. simpl.
  destruct Hg as [[-> ->]|[-> ->]]; by vm_compute.
Qed.

Lemma loop_graph_paths (g : DeBruijnGraph) (min_edge_weight : Z) :
  (nodes g = [] ∧ edges g = []
   ∨ nodes g = [EmptyString] ∧ edges g = [(EmptyString, EmptyString)]) →
  enumerated_paths (trim_low_weight_tails g min_edge_weight) = [].
Proof.
  destruct g as [ns es m]. simpl. intros [[-> ->]|[-> ->]]; by vm_compute.
Qed.

Section ShortReads.
Context {Aln : Type} `{Countable Aln}.
Variable nsb_align : string → string → Qc → list Aln.
Variable match_percent : Aln → Qc.
Variable reverse_complement : Aln → Aln.

Lemma remap_no_contigs mmq mrmo sequences :
  foldl (remap_read nsb_align match_percent reverse_complement mmq mrmo)
        (∅ : gmap string (Contig (Aln := Aln))) sequences = ∅.
Proof.
  induction sequences as [|s sequences IH]; simpl; [done|].
  unfold remap_read at 2, maps_to. rewrite map_to_list_empty. simpl. exact IH.
Qed.

(** X25. With a k-mer size of 0 or 1 [assemble] returns no contig: every
    k-mer gives the empty node on both sides, so the graph is at most one
    node with a loop and has no source. That is the k-mer size that is
    chosen when an input sequence has one character or none and the
    k-mer size is left to its default or is given larger than that
    sequence: one such read among the input leaves no contig. *)
Theorem assemble_short_read (s0 : string) (rest : list string) (kmer_size : option Z)
    (min_edge_weight : Z) (min_match_quality : Qc)
    (min_read_mapping_overlap min_contig_length : option Z) :
  let m := min_seq_len s0 rest in
  let result :=
    assemble nsb_align match_percent reverse_complement (s0 :: rest) kmer_size
      min_edge_weight min_match_quality min_read_mapping_overlap min_contig_length in
  (0 ≤ (choose_kmer_size kmer_size m).1 ≤ 1 → result.2 = [])
  ∧ (m ≤ 1 → kmer_size = None → result.2 = [])
  ∧ (m ≤ 1 → ∀ k, kmer_size = Some k → m < k → result.2 = []).
Proof.
  intros m result.
  assert (Hshort : 0 ≤ (choose_kmer_size kmer_size m).1 ≤ 1 → result.2 = []).
  { intros Hk. subst result. unfold assemble. fold m.
    destruct (choose_kmer_size kmer_size m) as [k w1]. cbn [fst snd] in *.
    set (g := trim_low_weight_tails (build_graph (s0 :: rest) k) min_edge_weight).
    assert (Hpaths : enumerated_paths g = []).
    { subst g. apply loop_graph_paths. rewrite build_graph_foldl.
      apply short_kmers_graph; [|by left].
      apply Forall_forall. intros kmer [s [Hkmer _]]%list_elem_of_bind.
      apply kmers_length_le in Hkmer; lia. }
    unfold path_scores_of. rewrite Hpaths. simpl.
    unfold select_contigs. rewrite map_imap_empty, remap_no_contigs.
    by rewrite map_to_list_empty. }
  pose proof (min_seq_len_nonneg s0 rest) as Hm. fold m in Hm.
  split_and!; [done| |].
  - intros Hle ->. apply Hshort. unfold choose_kmer_size.
    assert (m = 0 ∨ m = 1) as [-> | ->] by lia; simpl; lia.
  - intros Hle k -> Hlt. apply Hshort. unfold choose_kmer_size.
    destruct (Z.gtb_spec k m); [simpl; lia | lia].
Qed.

End ShortReads.

(** A read of one base beside the two overlapping reads. *)
Lemma assemble_short_read_witness :
  (sample_assemble ("A" :: overlapping_reads) None 1 (Qc_of_Z 1) None None).2 = [].
Proof.
  destruct (assemble_short_read (Aln := nat) no_alignment (λ _, 1%Qc) id
              "A" overlapping_reads None 1 (Qc_of_Z 1) None None) as (_ & Hdefault & _).
  apply Hdefault; [vm_compute; discriminate | reflexivity].
Defined.

End AssembleFacts.

